(** * Color Inspector: a shallow embedding of [src/extension.ts]

    The extension scans the active file and its explicit imports for colour
    tokens.  [src/extension.ts] holds three successive revisions of the
    extension, one after the other:

    - revision 1 (lines 1-1430): hits with attached usages, first-seen
      de-duplication;
    - revision 2 (lines 1431-3106): revision 1 plus the theme classifier
      ([computeThemeByLine]) and a theme tag in the variable key;
    - revision 3 (lines 3107-4748): occurrences, a global variable table,
      exclusion spans and entries aggregated by [makeColorKey].

    Functions that are textually the same in the three revisions
    ([buildLineStartIndex], [offsetToLine0], [offsetToCol],
    [normalizeColorKey], [findImports], [resolveWithExtensions],
    [resolveImportCandidates], [collectImportGraph]) are embedded once.
    Functions that differ live in the modules [Rev2] and [Rev3].

    JavaScript strings are modelled as [string]: sequences of code units
    below 256 (Latin-1).  Offsets and indices that the source subtracts from
    are [Z]; positions produced by the regular-expression matcher are [nat]. *)

From Stdlib Require Import ZArith Lia Ascii String List Bool Arith DecimalString Sorted.
From Stdlib Require Import Wf_nat Inverse_Image.
From stdpp Require Import gmap strings list.
From Equations Require Import Equations.

Local Open Scope Z_scope.

(** ** JavaScript string primitives *)

Module Js.

Definition code (c : ascii) : N := N_of_ascii c.

Definition inRange (lo hi : N) (c : ascii) : bool :=
  ((lo <=? code c) && (code c <=? hi))%N.

(** [\d] *)
Definition isDigit (c : ascii) : bool := inRange 48 57 c.
Definition isUpper (c : ascii) : bool := inRange 65 90 c.
Definition isLower (c : ascii) : bool := inRange 97 122 c.
Definition isAlpha (c : ascii) : bool := isUpper c || isLower c.
Definition isAlnum (c : ascii) : bool := isAlpha c || isDigit c.
(** [\w] *)
Definition isWordChar (c : ascii) : bool := isAlnum c || (code c =? 95)%N.
(** [[0-9a-fA-F]] *)
Definition isHexDigit (c : ascii) : bool :=
  isDigit c || inRange 65 70 c || inRange 97 102 c.
(** [\s], and the characters [String.prototype.trim] strips: TAB, LF, VT, FF,
    CR, SPACE and NBSP are the white space and line terminators below 256. *)
Definition isSpace (c : ascii) : bool :=
  inRange 9 13 c || (code c =? 32)%N || (code c =? 160)%N.
(** [.] matches everything but the line terminators LF and CR. *)
Definition isDot (c : ascii) : bool :=
  negb ((code c =? 10)%N || (code c =? 13)%N).

Definition isChar (c : ascii) : ascii -> bool := Ascii.eqb c.
Definition isNot (c : ascii) : ascii -> bool := fun x => negb (Ascii.eqb c x).

(** The double quote, which a string literal of this file cannot hold. *)
Definition dquote : ascii := ascii_of_N 34.
Definition isQuote (c : ascii) : bool := (code c =? 34)%N || (code c =? 39)%N.

(** [String.prototype.toLowerCase] on one code unit: A-Z, and the Latin-1
    capitals U+00C0-U+00DE except the multiplication sign U+00D7.  On the
    code units of this development (below 256) the lower case of a text is
    the lower case of its code units; the one rule of [toLowerCase] that
    looks at the neighbours of a letter, for the Greek capital sigma, is
    about a letter outside them. *)
Definition toLowerChar (c : ascii) : ascii :=
  if isUpper c || (inRange 192 222 c && negb (code c =? 215)%N)
  then ascii_of_N (code c + 32) else c.

Fixpoint toLowerCase (s : string) : string :=
  match s with
  | EmptyString => EmptyString
  | String c tl => String (toLowerChar c) (toLowerCase tl)
  end.

Fixpoint trimStart (s : string) : string :=
  match s with
  | String c tl => if isSpace c then trimStart tl else s
  | EmptyString => EmptyString
  end.

Fixpoint trimEnd (s : string) : string :=
  match s with
  | String c tl =>
      match trimEnd tl with
      | EmptyString => if isSpace c then EmptyString else String c EmptyString
      | t => String c t
      end
  | EmptyString => EmptyString
  end.

Definition trim (s : string) : string := trimEnd (trimStart s).

Definition startsWith (s p : string) : bool := String.prefix p s.

(** [s.slice(n)] for [0 <= n]. *)
Fixpoint sliceFrom (n : nat) (s : string) : string :=
  match n, s with
  | O, _ => s
  | S n', String _ tl => sliceFrom n' tl
  | S _, EmptyString => EmptyString
  end.

(** [s.slice(0, n)] for [0 <= n]. *)
Fixpoint sliceTo (n : nat) (s : string) : string :=
  match n, s with
  | S n', String c tl => String c (sliceTo n' tl)
  | _, _ => EmptyString
  end.

(** [s.slice(a, b)] for [0 <= a]; empty when [b <= a]. *)
Definition slice (a b : nat) (s : string) : string :=
  sliceTo (b - a) (sliceFrom a s).

(** [whole.indexOf(value)]: the first position at which [value] occurs in
    [whole], [None] for JavaScript's -1. *)
Fixpoint indexOf (value whole : string) : option nat :=
  if String.prefix value whole then Some O
  else match whole with
       | String _ tl => S <$> indexOf value tl
       | EmptyString => None
       end.

(** A template literal's rendering of a non-negative integer. *)
Definition natToString (n : nat) : string :=
  NilZero.string_of_uint (Nat.to_uint n).

End Js.

(** ** Regular expressions

    The subset of JavaScript regular expressions that the source uses, with
    the backtracking order of the language: alternatives are tried from the
    left, greedy quantifiers take the longest run first, lazy ones the
    shortest.  Every quantified item of the source's expressions is a single
    character class, so [Star] ranges over a class. *)

Module RegExp.
Import Js.

Inductive regex : Type :=
| Eps : regex
| Chr (p : ascii -> bool) : regex
| Seq (r1 r2 : regex) : regex
| Alt (r1 r2 : regex) : regex
| Star (greedy : bool) (p : ascii -> bool) : regex
| Group (i : nat) (r : regex) : regex
| Bol : regex
| Eol : regex
| WordB : regex.

(** The matcher's state: the position, the character before it (for [\b]),
    the text from the position on, and the capture spans recorded so far. *)
Record mstate : Type := MState {
  m_pos : nat;
  m_prev : option ascii;
  m_rest : string;
  m_caps : list (nat * (nat * nat))
}.

Definition isWordOpt (o : option ascii) : bool :=
  match o with Some c => isWordChar c | None => false end.

Definition nextChar (s : string) : option ascii :=
  match s with String c _ => Some c | EmptyString => None end.

Fixpoint starGreedy (p : ascii -> bool) (k : mstate -> option mstate)
    (caps : list (nat * (nat * nat))) (pos : nat) (prev : option ascii)
    (rest : string) : option mstate :=
  match rest with
  | String c tl =>
      if p c then
        match starGreedy p k caps (S pos) (Some c) tl with
        | Some r => Some r
        | None => k (MState pos prev rest caps)
        end
      else k (MState pos prev rest caps)
  | EmptyString => k (MState pos prev rest caps)
  end.

Fixpoint starLazy (p : ascii -> bool) (k : mstate -> option mstate)
    (caps : list (nat * (nat * nat))) (pos : nat) (prev : option ascii)
    (rest : string) : option mstate :=
  match k (MState pos prev rest caps) with
  | Some r => Some r
  | None =>
      match rest with
      | String c tl =>
          if p c then starLazy p k caps (S pos) (Some c) tl else None
      | EmptyString => None
      end
  end.

(** [rmatch r st k]: match [r] at [st], then continue with [k]; the first
    success in backtracking order. *)
Fixpoint rmatch (r : regex) (st : mstate) (k : mstate -> option mstate)
    : option mstate :=
  match r with
  | Eps => k st
  | Chr p =>
      match m_rest st with
      | String c tl =>
          if p c then k (MState (S (m_pos st)) (Some c) tl (m_caps st))
          else None
      | EmptyString => None
      end
  | Seq r1 r2 => rmatch r1 st (fun st' => rmatch r2 st' k)
  | Alt r1 r2 =>
      match rmatch r1 st k with
      | Some res => Some res
      | None => rmatch r2 st k
      end
  | Star greedy p =>
      (if greedy then starGreedy else starLazy)
        p k (m_caps st) (m_pos st) (m_prev st) (m_rest st)
  | Group i r1 =>
      rmatch r1 st (fun st' =>
        k (MState (m_pos st') (m_prev st') (m_rest st')
             ((i, (m_pos st, m_pos st')) :: m_caps st')))
  | Bol => if Nat.eqb (m_pos st) 0 then k st else None
  | Eol => match m_rest st with EmptyString => k st | _ => None end
  | WordB =>
      if xorb (isWordOpt (m_prev st)) (isWordOpt (nextChar (m_rest st)))
      then k st else None
  end.

(** A match object: [m.index], [m[0]] and the captured groups. *)
Record Match : Type := MkMatch {
  m_index : nat;
  m_text : string;
  m_groups : list (nat * string)
}.

Definition m_end (m : Match) : nat := m_index m + String.length (m_text m).

Fixpoint lookupGroup (i : nat) (gs : list (nat * string)) : option string :=
  match gs with
  | [] => None
  | (j, s) :: tl => if Nat.eqb i j then Some s else lookupGroup i tl
  end.

(** [m[i]], [None] for [undefined]. *)
Definition group (m : Match) (i : nat) : option string :=
  lookupGroup i (m_groups m).

Definition mkMatch (pos : nat) (rest : string) (st : mstate) : Match :=
  {| m_index := pos;
     m_text := sliceTo (m_pos st - pos) rest;
     m_groups :=
       map (fun c : nat * (nat * nat) =>
              (c.1, slice (c.2.1 - pos) (c.2.2 - pos) rest))
           (m_caps st) |}.

(** One attempt at the position of [rest]. *)
Definition execAt (r : regex) (pos : nat) (prev : option ascii) (rest : string)
    : option Match :=
  mkMatch pos rest <$> rmatch r (MState pos prev rest []) Some.

(** [str.matchAll(re)] for a global [re]: the leftmost match from
    [lastIndex], which then moves to the match's end (one further after an
    empty match).  [skip] counts the characters still inside the last match. *)
Fixpoint matchAllFrom (r : regex) (skip pos : nat) (prev : option ascii)
    (rest : string) : list Match :=
  match skip with
  | S n =>
      match rest with
      | String c tl => matchAllFrom r n (S pos) (Some c) tl
      | EmptyString => []
      end
  | O =>
      match execAt r pos prev rest with
      | Some m =>
          m :: match rest with
               | String c tl =>
                   matchAllFrom r (Nat.pred (String.length (m_text m)))
                     (S pos) (Some c) tl
               | EmptyString => []
               end
      | None =>
          match rest with
          | String c tl => matchAllFrom r O (S pos) (Some c) tl
          | EmptyString => []
          end
      end
  end.

Definition matchAll (r : regex) (s : string) : list Match :=
  matchAllFrom r O O None s.

(** [str.match(re)] and [re.exec(str)] for a non-global [re]: the leftmost
    match. *)
Fixpoint searchFrom (r : regex) (pos : nat) (prev : option ascii)
    (rest : string) : option Match :=
  match execAt r pos prev rest with
  | Some m => Some m
  | None =>
      match rest with
      | String c tl => searchFrom r (S pos) (Some c) tl
      | EmptyString => None
      end
  end.

Definition search (r : regex) (s : string) : option Match :=
  searchFrom r O None s.

(** [re.test(str)] *)
Definition test (r : regex) (s : string) : bool :=
  match search r s with Some _ => true | None => false end.

(** The text outside the matches [ms] of [s], with [by] in place of each:
    [pos] is the position of [s] in the whole text. *)
Fixpoint splice (ms : list Match) (pos : nat) (s : string) (by_ : string)
    : string :=
  match ms with
  | [] => s
  | m :: ms' =>
      sliceTo (m_index m - pos) s +:+ by_ +:+
      splice ms' (m_end m) (sliceFrom (m_end m - pos) s) by_
  end.

(** [str.replace(re, by)] for a global [re] and a [by] without [$]. *)
Definition replaceAll (r : regex) (s by_ : string) : string :=
  splice (matchAll r s) O s by_.

(** [str.replace(re, by)] for a non-global [re]. *)
Definition replaceFirst (r : regex) (s by_ : string) : string :=
  match search r s with
  | Some m => splice [m] O s by_
  | None => s
  end.

(** The pieces of [s] between the matches [ms]. *)
Fixpoint pieces (ms : list Match) (pos : nat) (s : string) : list string :=
  match ms with
  | [] => [s]
  | m :: ms' =>
      sliceTo (m_index m - pos) s ::
      pieces ms' (m_end m) (sliceFrom (m_end m - pos) s)
  end.

(** [str.split(re)] for an [re] that matches no empty string. *)
Definition split (r : regex) (s : string) : list string :=
  pieces (matchAll r s) O s.

(** *** Building expressions *)

Definition chr (c : ascii) : regex := Chr (isChar c).
(** A letter under the [i] flag. *)
Definition chrI (c : ascii) : regex :=
  Chr (fun x => Ascii.eqb (toLowerChar x) (toLowerChar c)).

Fixpoint lit (s : string) : regex :=
  match s with
  | EmptyString => Eps
  | String c EmptyString => chr c
  | String c tl => Seq (chr c) (lit tl)
  end.

Fixpoint litI (s : string) : regex :=
  match s with
  | EmptyString => Eps
  | String c EmptyString => chrI c
  | String c tl => Seq (chrI c) (litI tl)
  end.

Fixpoint seqs (rs : list regex) : regex :=
  match rs with
  | [] => Eps
  | [r] => r
  | r :: tl => Seq r (seqs tl)
  end.

Fixpoint alts (rs : list regex) : regex :=
  match rs with
  | [] => Eps
  | [r] => r
  | r :: tl => Alt r (alts tl)
  end.

(** [r?], [p*], [p*?], [p+] *)
Definition opt (r : regex) : regex := Alt r Eps.
Definition star (p : ascii -> bool) : regex := Star true p.
Definition starL (p : ascii -> bool) : regex := Star false p.
Definition plus (p : ascii -> bool) : regex := Seq (Chr p) (Star true p).

(** [p{n}] *)
Fixpoint rep (n : nat) (p : ascii -> bool) : regex :=
  match n with
  | O => Eps
  | S O => Chr p
  | S n' => Seq (Chr p) (rep n' p)
  end.

(** [p{0,n}], greedy *)
Fixpoint upTo (n : nat) (p : ascii -> bool) : regex :=
  match n with
  | O => Eps
  | S n' => opt (Seq (Chr p) (upTo n' p))
  end.

(** [p{lo,hi}], greedy *)
Definition repRange (lo hi : nat) (p : ascii -> bool) : regex :=
  Seq (rep lo p) (upTo (hi - lo) p).

(** *** Notions for stating where matches lie *)

(** A lower bound on the length of every match of [r]. *)
Fixpoint minLen (r : regex) : nat :=
  match r with
  | Eps => 0
  | Chr _ => 1
  | Seq r1 r2 => minLen r1 + minLen r2
  | Alt r1 r2 => Nat.min (minLen r1) (minLen r2)
  | Star _ _ => 0
  | Group _ r1 => minLen r1
  | Bol => 0
  | Eol => 0
  | WordB => 0
  end.

(** [st'] is [st] after at least [n] characters were consumed. *)
Definition advances (n : nat) (st st' : mstate) : Prop :=
  exists w : string,
    m_rest st = w +:+ m_rest st' /\
    m_pos st' = (m_pos st + String.length w)%nat /\
    (n <= String.length w)%nat.

(** The length of the run of characters of class [p] at the start of [s]. *)
Fixpoint runLen (p : ascii -> bool) (s : string) : nat :=
  match s with
  | String c tl => if p c then S (runLen p tl) else O
  | EmptyString => O
  end.

End RegExp.

(** ** Line index (lines 4056-4088; the same text at 938-968 and 2562-2592) *)

Module LineIndex.
Import Js.

(** [arr[i]] for a numeric index: [None] for [undefined]. *)
Definition lookupZ {A : Type} (l : list A) (i : Z) : option A :=
  if i <? 0 then None else l !! Z.to_nat i.

(** The [for] loop of [buildLineStartIndex] from index [i] on. *)
Fixpoint lineStartsFrom (i : Z) (text : string) : list Z :=
  match text with
  | EmptyString => []
  | String c tl =>
      if (code c =? 10)%N then (i + 1) :: lineStartsFrom (i + 1) tl
      else lineStartsFrom (i + 1) tl
  end.

Definition buildLineStartIndex (text : string) : list Z :=
  0 :: lineStartsFrom 0 text.

(** [x <= offset] where [x] may be [undefined]: the comparison is then false. *)
Definition leDefined (x : option Z) (offset : Z) : bool :=
  match x with Some v => v <=? offset | None => false end.

(** The binary search [while (lo <= hi) { mid = (lo + hi) >> 1; if (key(mid) <=
    x) { ans = mid; lo = mid + 1 } else { hi = mid - 1 } }], which the source
    writes twice: over [lineStarts] in [offsetToLine0] and over
    [excludeSpans[..].start] in [isExcluded].  [>> 1] is written as a shift
    on [Z]: it is the 32-bit shift of the source as long as [lo + hi] is
    below 2^31, that is for arrays of fewer than 2^30 elements.  [key mid]
    is [None] where the array has no element at [mid]; inside the loop [mid]
    always lies between [lo] and [hi], so this arises only for a [hi] beyond
    the end of the array. *)
Equations? bsearchLast (key : Z -> option Z) (x lo hi ans : Z) : Z
  by wf (Z.to_nat (hi - lo + 1)) lt :=
bsearchLast key x lo hi ans with Z_le_gt_dec lo hi := {
  | right _ := ans
  | left _ :=
      if leDefined (key (Z.shiftr (lo + hi) 1)) x
      then bsearchLast key x (Z.shiftr (lo + hi) 1 + 1) hi (Z.shiftr (lo + hi) 1)
      else bsearchLast key x lo (Z.shiftr (lo + hi) 1 - 1) ans }.
Proof.
  all: rewrite Z.shiftr_div_pow2 by lia; change (2 ^ 1) with 2;
    pose proof (Z.div_le_lower_bound (lo + hi) 2 lo ltac:(lia) ltac:(lia));
    pose proof (Z.div_le_upper_bound (lo + hi) 2 hi ltac:(lia) ltac:(lia)); lia.
Defined.

Definition offsetToLine0 (lineStarts : list Z) (offset : Z) : Z :=
  bsearchLast (lookupZ lineStarts) offset 0 (Z.of_nat (length lineStarts) - 1) 0.

Definition offsetToCol (lineStarts : list Z) (offset : Z) : Z :=
  let line0 := offsetToLine0 lineStarts offset in
  let start := default 0 (lookupZ lineStarts line0) in
  Z.max 0 (offset - start).

End LineIndex.

(** ** Import graph (lines 4582-4748; the same text at 1244-1400 and
    2945-3080, except [isFollowable]).  In the expressions quoted below
    [\x22] stands for the double quote, and a blank is no part of an
    expression. *)

Module Imports.
Import Js RegExp.

(** [type ImportSpec = { spec: string; kind: js | css }] *)
Inductive ImportKind : Type := KJs | KCss.

Definition kindString (k : ImportKind) : string :=
  match k with KJs => "js" | KCss => "css" end.

Definition isCssKind (k : ImportKind) : bool :=
  match k with KCss => true | KJs => false end.

Record ImportSpec : Type := MkImport { spec : string; kind : ImportKind }.

Definition notQuote (c : ascii) : bool := negb (isQuote c).

(** [/\bimport\s+[^;]*?\s+from\s+[\x22']([^\x22']+)[\x22']/g] *)
Definition importFrom : regex :=
  seqs [WordB; lit "import"; plus isSpace; starL (isNot ";"); plus isSpace;
        lit "from"; plus isSpace; Chr isQuote; Group 1 (plus notQuote);
        Chr isQuote].

(** [/\bimport\s+[\x22']([^\x22']+)[\x22']/g] *)
Definition importBare : regex :=
  seqs [WordB; lit "import"; plus isSpace; Chr isQuote; Group 1 (plus notQuote);
        Chr isQuote].

(** [/\brequire\(\s* [\x22']([^\x22']+)[\x22']\s* \)/g] *)
Definition requireRe : regex :=
  seqs [WordB; lit "require("; star isSpace; Chr isQuote;
        Group 1 (plus notQuote); Chr isQuote; star isSpace; chr ")"].

(** [/@import\s+(?:url\(\s* )?[\x22']([^\x22']+)[\x22']\s* \)?/g] *)
Definition cssImport : regex :=
  seqs [lit "@import"; plus isSpace; opt (Seq (lit "url(") (star isSpace));
        Chr isQuote; Group 1 (plus notQuote); Chr isQuote; star isSpace;
        opt (chr ")")].

(** The closure [add] of [findImports]: [seen] holds the keys
    [`${kind}:${spec}`], [results] the specifiers found so far. *)
Definition add (acc : gset string * list ImportSpec) (sp : string)
    (k : ImportKind) : gset string * list ImportSpec :=
  let key := kindString k +:+ ":" +:+ sp in
  if decide (key ∈ acc.1) then acc
  else ({[key]} ∪ acc.1, acc.2 ++ [MkImport (trim sp) k]).

(** [for (const m of text.matchAll(re)) add(m[1], kind)] *)
Definition addAll (re : regex) (k : ImportKind) (text : string)
    (acc : gset string * list ImportSpec) : gset string * list ImportSpec :=
  foldl (fun a m => add a (default "" (group m 1)) k) acc (matchAll re text).

Definition findImports (text : string) : list ImportSpec :=
  (addAll cssImport KCss text
     (addAll requireRe KJs text
        (addAll importBare KJs text
           (addAll importFrom KJs text (∅, []))))).2.

(** [/\.[a-zA-Z0-9]+$/] *)
Definition hasExtRe : regex := seqs [chr "."; plus isAlnum; Eol].

(** [/^\/+/] *)
Definition leadingSlashes : regex := seqs [Bol; plus (isChar "/")].

Definition exts : list string :=
  [".ts"; ".tsx"; ".js"; ".jsx"; ".css"; ".scss"; ".sass"; ".less"; ".json";
   ".vue"; ".svelte"; ".html"].

(** [isFollowable] of revisions 1 and 2 (lines 1281-1297 and 2973-2982). *)
Definition isFollowable (sp : string) (k : ImportKind) : bool :=
  if startsWith sp "./" || startsWith sp "../" then true
  else if startsWith sp "/" then true
  else if startsWith sp "@/" || startsWith sp "~/" then true
  else if isCssKind k && negb (startsWith sp "http") && negb (startsWith sp "data:")
  then true
  else false.

(** A [vscode.Uri] is identified with its canonical string, the value of
    [uri.toString()] under which [collectImportGraph] records it. *)
Definition Uri : Type := string.

(** The host interface the traversal consumes: [vscode.Uri.joinPath],
    [vscode.Uri.parse], [vscode.workspace.fs.readFile] ([None] when it
    throws) and [vscode.workspace.fs.stat] ([false] when it throws). *)
Record Host : Type := MkHost {
  joinPath : Uri -> string -> Uri;
  parse : string -> Uri;
  readFile : Uri -> option string;
  stat : Uri -> bool
}.

Section Traversal.
Context (H : Host) (wsRoot : Uri).

Definition resolveWithExtensions (raw : Uri) (sp : string) : list Uri :=
  if test hasExtRe sp then [raw]
  else map (fun ext => parse H (raw +:+ ext)) exts ++
       map (fun ext => joinPath H raw ("index" +:+ ext)) exts.

Definition resolveImportCandidates (baseFile : Uri) (sp : string)
    (k : ImportKind) : list Uri :=
  let s := trim sp in
  if startsWith s "/" then
    resolveWithExtensions (joinPath H wsRoot (replaceFirst leadingSlashes s "")) s
  else if startsWith s "@/" || startsWith s "~/" then
    resolveWithExtensions (joinPath H wsRoot (sliceFrom 2 s)) s
  else if startsWith s "./" || startsWith s "../" then
    resolveWithExtensions (joinPath H (joinPath H baseFile "..") s) s
  else if isCssKind k then
    resolveWithExtensions (joinPath H (joinPath H baseFile "..") s) s
  else [].

(** The three revisions of [collectImportGraph] differ only in the
    [isFollowable] in scope. *)
Context (isFollowable : string -> ImportKind -> bool).

(** The inner loops of [collectImportGraph] over the imports of one file:
    the candidates that are pushed on the queue, in order (for each
    followable import the first candidate that exists). *)
Definition enqueued (uri : Uri) (text : string) : list Uri :=
  flat_map
    (fun imp =>
       if isFollowable (spec imp) (kind imp) then
         match List.find (stat H) (resolveImportCandidates uri (spec imp) (kind imp)) with
         | Some c => [c]
         | None => []
         end
       else [])
    (findImports text).

(** What reading and scanning [uri] pushes: nothing when the read throws. *)
Definition pushedBy (uri : Uri) : list Uri :=
  match readFile H uri with
  | Some text => enqueued uri text
  | None => []
  end.

(** The variables of the [while] loop.  [out] is also the list of the files
    read: [readUriText(uri)] is called exactly once after each
    [out.push(uri)], and nowhere else.  [shifted] is a ghost variable with no
    counterpart in the source: the values [queue.shift()] returned, in order. *)
Record LoopState : Type := MkLoop {
  visited : gset string;
  queue : list Uri;
  out : list Uri;
  shifted : list Uri
}.

(** One iteration of [while (queue.length && out.length < maxFiles)];
    [None] when the condition fails. *)
Definition loopStep (maxFiles : nat) (st : LoopState) : option LoopState :=
  match queue st with
  | [] => None
  | uri :: rest =>
      if (length (out st) <? maxFiles)%nat then
        if decide (uri ∈ visited st) then
          Some (MkLoop (visited st) rest (out st) (shifted st ++ [uri]))
        else
          Some (MkLoop ({[uri]} ∪ visited st) (rest ++ pushedBy uri)
                  (out st ++ [uri]) (shifted st ++ [uri]))
      else None
  end.

(** [n] iterations of the loop, fewer when its condition fails earlier. *)
Fixpoint iterate (maxFiles n : nat) (st : LoopState) : LoopState :=
  match n with
  | O => st
  | S n' =>
      match loopStep maxFiles st with
      | Some st' => iterate maxFiles n' st'
      | None => st
      end
  end.

Definition loopMeasure (maxFiles : nat) (st : LoopState) : nat * nat :=
  ((maxFiles - length (out st))%nat, length (queue st)).

(** The whole loop, by well-founded recursion on [loopMeasure]: the state in
    which the loop's condition fails. *)
Equations? collectLoop (maxFiles : nat) (st : LoopState) : LoopState
  by wf (loopMeasure maxFiles st) (lexprod nat nat lt lt) :=
collectLoop maxFiles (MkLoop vis [] o sh) := MkLoop vis [] o sh;
collectLoop maxFiles (MkLoop vis (uri :: rest) o sh)
  with lt_dec (length o) maxFiles := {
  | right _ := MkLoop vis (uri :: rest) o sh
  | left _ with decide (uri ∈ vis) := {
    | left _ := collectLoop maxFiles (MkLoop vis rest o (sh ++ [uri]))
    | right _ :=
        collectLoop maxFiles
          (MkLoop ({[uri]} ∪ vis) (rest ++ pushedBy uri) (o ++ [uri])
             (sh ++ [uri])) } }.
Proof.
  all: unfold loopMeasure; simpl;
    first [ right; lia | left; rewrite length_app; simpl; lia ].
Defined.

Definition initialState (root : Uri) : LoopState := MkLoop ∅ [root] [] [].

Definition collectImportGraph (root : Uri) (maxFiles : nat) : list Uri :=
  out (collectLoop maxFiles (initialState root)).

(** *** Notions for the theorems *)

(** An explicit import edge: scanning [u] pushes [v] on the queue. *)
Definition importEdge (u v : Uri) : Prop := v ∈ pushedBy u.

(** The files reachable from [root] along import edges. *)
Definition inClosure (root u : Uri) : Prop := rtc importEdge root u.

(** The invariant of the loop. *)
Record Inv (root : Uri) (maxFiles : nat) (st : LoopState) : Prop := MkInv {
  inv_nodup : NoDup (out st);
  inv_visited : forall u, u ∈ visited st <-> u ∈ out st;
  inv_length : (length (out st) <= maxFiles)%nat;
  inv_root : (out st = [] /\ queue st = [root]) \/ (exists o, out st = root :: o);
  inv_closed : forall u v, u ∈ out st -> importEdge u v -> v ∈ out st \/ v ∈ queue st;
  inv_reach : forall u, u ∈ out st \/ u ∈ queue st -> inClosure root u;
  inv_shifted : forall u, u ∈ shifted st <-> u ∈ out st
}.

End Traversal.

End Imports.

(** ** An in-memory host for closed examples: POSIX paths, a finite table of
    files. *)

Module MemHost.
Import Js RegExp Imports.

(** Segments of a path, resolving [.] and [..] as [posix.join] does;
    [acc] holds the segments so far, last first. *)
Fixpoint normSegs (segs acc : list string) : list string :=
  match segs with
  | [] => reverse acc
  | s :: tl =>
      if decide (s = "" ∨ s = ".") then normSegs tl acc
      else if decide (s = "..") then normSegs tl (tail acc)
      else normSegs tl (s :: acc)
  end.

Definition joinSegs (segs : list string) : string :=
  foldr (fun s r => "/" +:+ s +:+ r) "" segs.

Definition posixJoin (base seg : string) : string :=
  joinSegs (normSegs (split (chr "/") base ++ split (chr "/") seg) []).

Fixpoint lookupFile (files : list (string * string)) (u : string) : option string :=
  match files with
  | [] => None
  | (p, t) :: tl => if decide (p = u) then Some t else lookupFile tl u
  end.

Definition memHost (files : list (string * string)) : Host :=
  {| joinPath := posixJoin;
     parse := fun s => s;
     readFile := lookupFile files;
     stat := fun u => match lookupFile files u with Some _ => true | None => false end |}.

(** [a.css] imports [b.css], which imports [a.css]. *)
Definition cycleHost : Host :=
  memHost [("/w/a.css", "@import './b.css';");
                   ("/w/b.css", "@import './a.css';")].

(** A root with three imports under a cap of 2. *)
Definition fanHost : Host :=
  memHost [("/w/a.css", "@import './b.css'; @import './c.css'; @import './d.css';");
                   ("/w/b.css", ""); ("/w/c.css", ""); ("/w/d.css", "")].

End MemHost.

(** ** Colour grammars and keys shared by the revisions *)

Module Colors.
Import Js RegExp.

(** [(?:[0-9a-fA-F]{3,4}|[0-9a-fA-F]{6}|[0-9a-fA-F]{8})] *)
Definition hexBody : regex :=
  alts [repRange 3 4 isHexDigit; rep 6 isHexDigit; rep 8 isHexDigit].

(** [/#(?:[0-9a-fA-F]{3,4}|[0-9a-fA-F]{6}|[0-9a-fA-F]{8})\b/g] *)
Definition hexRegex : regex := seqs [chr "#"; hexBody; WordB].

(** [\d{1,3}] *)
Definition d13 : regex := repRange 1 3 isDigit.

(** [(?:0?\.\d+|1|0|\.\d+)] *)
Definition alphaValue : regex :=
  alts [seqs [opt (chr "0"); chr "."; plus isDigit]; chr "1"; chr "0";
        seqs [chr "."; plus isDigit]].

(** [[A-Za-z0-9_-]] *)
Definition isNameChar (c : ascii) : bool := isWordChar c || isChar "-" c.

(** [/--([A-Za-z0-9_-]+)\s*:\s*([^;]+)\s*;/g] *)
Definition cssVarDefRegex : regex :=
  seqs [lit "--"; Group 1 (plus isNameChar); star isSpace; chr ":";
        star isSpace; Group 2 (plus (isNot ";")); star isSpace; chr ";"].

(** [/^#(?:[0-9a-fA-F]{3,4}|[0-9a-fA-F]{6}|[0-9a-fA-F]{8})\b/] *)
Definition hexAnchored : regex := seqs [Bol; chr "#"; hexBody; WordB].

(** [value.trim().toLowerCase().replace(/\s+/g, <empty>)] *)
Definition normalizeColorKey (value : string) : string :=
  replaceAll (plus isSpace) (toLowerCase (trim value)) "".

(** The last step of the normalisation in the words of the specification:
    removing all whitespace. *)
Fixpoint removeSpaces (s : string) : string :=
  match s with
  | EmptyString => EmptyString
  | String c tl => if isSpace c then removeSpaces tl else String c (removeSpaces tl)
  end.

End Colors.

(** ** Revision 3: occurrences, the global variable table, entries *)

Module Rev3.
Import Js RegExp LineIndex Imports Colors.

Record HitRange : Type := MkRange {
  line : Z;       (* 1-based *)
  startCol : Z;   (* 0-based *)
  endCol : Z      (* 0-based *)
}.

(** [scope] and [property] are optional: [None] for [undefined]. *)
Record UsageInfo : Type := MkUsage {
  isDefinition : bool;
  scope : option string;
  property : option string;
  usageLine : Z
}.

(** The tagged union [ColorOccur]: [kind: var] carries a name. *)
Inductive ColorOccur : Type :=
| OccVar (name value file : string) (range : HitRange) (usage : UsageInfo)
| OccLiteral (value file : string) (range : HitRange) (usage : UsageInfo).

Definition occValue (o : ColorOccur) : string :=
  match o with OccVar _ v _ _ _ => v | OccLiteral v _ _ _ => v end.
Definition occFile (o : ColorOccur) : string :=
  match o with OccVar _ _ f _ _ => f | OccLiteral _ f _ _ => f end.
Definition occRange (o : ColorOccur) : HitRange :=
  match o with OccVar _ _ _ r _ => r | OccLiteral _ _ r _ => r end.
Definition occUsage (o : ColorOccur) : UsageInfo :=
  match o with OccVar _ _ _ _ u => u | OccLiteral _ _ _ u => u end.
Definition occName (o : ColorOccur) : option string :=
  match o with OccVar n _ _ _ _ => Some n | OccLiteral _ _ _ _ => None end.
Definition isVar (o : ColorOccur) : bool :=
  match o with OccVar _ _ _ _ _ => true | OccLiteral _ _ _ _ => false end.

(** [type ColorEntry]; [kind] and [name] are those of the first occurrence. *)
Record ColorEntry : Type := MkEntry {
  key : string;
  entryIsVar : bool;
  entryName : option string;
  entryValue : string;
  occurrences : list ColorOccur
}.

Record VarDef : Type := MkVarDef { defName : string; defValue : string }.

(** [isFollowable] of revision 3 (lines 4619-4633). *)
Definition isFollowable (sp : string) (k : ImportKind) : bool :=
  if startsWith sp "./" || startsWith sp "../" then true
  else if startsWith sp "/" then true
  else if startsWith sp "@/" || startsWith sp "~/" then true
  else if isCssKind k && negb (startsWith sp ".") && negb (startsWith sp "@")
          && negb (startsWith sp "~")
  then true
  else false.

Definition makeColorKey (o : ColorOccur) : string :=
  match o with
  | OccVar name value _ _ _ =>
      "var:" +:+ toLowerCase name +:+ "=" +:+ normalizeColorKey value
  | OccLiteral value _ _ _ => "lit:" +:+ normalizeColorKey value
  end.

(** [/\.(css|scss|sass|less)$/i] *)
Definition cssFileRe : regex :=
  seqs [chr "."; alts [litI "css"; litI "scss"; litI "sass"; litI "less"]; Eol].

Definition isCssFile (file : string) : bool := test cssFileRe file.

(** [/\r?\n$/] *)
Definition lineEndRe : regex := seqs [opt (chr "013"); chr "010"; Eol].

Definition getLineText (text : string) (lineStarts : list Z) (line0 : Z)
    : string :=
  let start := default 0 (lookupZ lineStarts line0) in
  let textLength := Z.of_nat (String.length text) in
  let end_ :=
    if line0 + 1 <? Z.of_nat (length lineStarts)
    then default textLength (lookupZ lineStarts (line0 + 1))
    else textLength in
  replaceFirst lineEndRe (slice (Z.to_nat start) (Z.to_nat end_) text) "".

(** [/^(?:rgba?|RGBA?)\([^)]*\)/] and [/^(?:hsla?|HSLA?)\([^)]*\)/] *)
Definition rgbAnchored : regex :=
  seqs [Bol; Alt (Seq (lit "rgb") (opt (chr "a"))) (Seq (lit "RGB") (opt (chr "A")));
        chr "("; star (isNot ")"); chr ")"].
Definition hslAnchored : regex :=
  seqs [Bol; Alt (Seq (lit "hsl") (opt (chr "a"))) (Seq (lit "HSL") (opt (chr "A")));
        chr "("; star (isNot ")"); chr ")"].

(** [m?.[0]] when it is truthy: a match with a non-empty text. *)
Definition truthyMatch (m : option Match) : option string :=
  match m with
  | Some x => if decide (m_text x = "") then None else Some (m_text x)
  | None => None
  end.

(** The empty string stands for no token, as in the source. *)
Definition extractFirstColorToken (rhs : string) : string :=
  let s := trim rhs in
  match truthyMatch (search hexAnchored s) with
  | Some hex => trim hex
  | None =>
      match truthyMatch (search rgbAnchored s) with
      | Some rgb => trim rgb
      | None =>
          match truthyMatch (search hslAnchored s) with
          | Some hsl => trim hsl
          | None => ""
          end
      end
  end.

Definition groupText (m : Match) (i : nat) : string := default "" (group m i).

Definition scanVarDefinitions (text : string) : list VarDef :=
  omap (fun m =>
          let propName := "--" +:+ groupText m 1 in
          let rhs := trim (groupText m 2) in
          let value := extractFirstColorToken rhs in
          if decide (value = "") then None else Some (MkVarDef propName value))
       (matchAll cssVarDefRegex text).

(** Pass 1 of [render] (lines 3304-3323): the table
    [globalVarValueByName]. *)
Definition addDef (table : gmap string string) (d : VarDef)
    : gmap string string :=
  match table !! defName d with
  | Some _ => table
  | None => <[defName d := defValue d]> table
  end.

Definition addDefs (table : gmap string string) (defs : list VarDef)
    : gmap string string :=
  foldl addDef table defs.

(** The loop over [uris]; a file whose read throws is skipped. *)
Definition collectVarTable (H : Host) (uris : list Uri) : gmap string string :=
  foldl (fun table uri =>
           match readFile H uri with
           | Some text => addDefs table (scanVarDefinitions text)
           | None => table
           end) ∅ uris.

(** [/\brgba?\(\s*\d{1,3}\s*,\s*\d{1,3}\s*,\s*\d{1,3}(?:\s*,\s*(?:0?\.\d+|1|0|\.\d+))?\s* \)/gi] *)
Definition rgbRegex : regex :=
  seqs [WordB; litI "rgb"; opt (chrI "a"); chr "("; star isSpace; d13;
        star isSpace; chr ","; star isSpace; d13; star isSpace; chr ",";
        star isSpace; d13;
        opt (seqs [star isSpace; chr ","; star isSpace; alphaValue]);
        star isSpace; chr ")"].

(** [/\bhsla?\(\s*\d{1,3}(?:deg)?\s*,\s*\d{1,3}%\s*,\s*\d{1,3}%\s*(?:,\s*(?:0?\.\d+|1|0|\.\d+))?\s* \)/gi] *)
Definition hslRegex : regex :=
  seqs [WordB; litI "hsl"; opt (chrI "a"); chr "("; star isSpace; d13;
        opt (litI "deg"); star isSpace; chr ","; star isSpace; d13; chr "%";
        star isSpace; chr ","; star isSpace; d13; chr "%"; star isSpace;
        opt (seqs [chr ","; star isSpace; alphaValue]);
        star isSpace; chr ")"].

(** [/var\(\s*(--[A-Za-z0-9_-]+)\s*(?:,\s*[^)]* )?\)/g] *)
Definition cssVarRefRegex : regex :=
  seqs [lit "var("; star isSpace; Group 1 (Seq (lit "--") (plus isNameChar));
        star isSpace; opt (seqs [chr ","; star isSpace; star (isNot ")")]);
        chr ")"].

(** An exclusion span [{ start, end }]. *)
Record Span : Type := MkSpan { spanStart : Z; spanEnd : Z }.

(** [excludeSpans.sort((a, b) => a.start - b.start)]: the sort is stable. *)
Fixpoint insertSpan (s : Span) (l : list Span) : list Span :=
  match l with
  | [] => [s]
  | h :: tl =>
      if spanStart s <? spanStart h then s :: l else h :: insertSpan s tl
  end.

Definition sortSpans (l : list Span) : list Span := foldl (fun acc s => insertSpan s acc) [] l.

(** The closure [isExcluded] (lines 4344-4365). *)
Definition isExcluded (excludeSpans : list Span) (start end_ : Z) : bool :=
  let idx :=
    bsearchLast (fun mid => spanStart <$> lookupZ excludeSpans mid) start 0
      (Z.of_nat (length excludeSpans) - 1) (-1) in
  if idx <? 0 then false
  else match lookupZ excludeSpans idx with
       | Some s => (start <? spanEnd s) && (spanStart s <? end_)
       | None => false
       end.

(** What loop 1 keeps of a match of [cssVarDefRegex]: the name, the value and
    the offsets of the value; [None] where the loop says [continue]. *)
Definition varDefHit (m : Match) : option (string * string * Z * Z) :=
  let matchStart := Z.of_nat (m_index m) in
  let whole := m_text m in
  let propName := "--" +:+ groupText m 1 in
  let rhs := trim (groupText m 2) in
  let value := extractFirstColorToken rhs in
  if decide (value = "") then None
  else match indexOf value whole with
       | None => None
       | Some inner =>
           let startOffset := matchStart + Z.of_nat inner in
           let endOffset := startOffset + Z.of_nat (String.length value) in
           Some (propName, value, startOffset, endOffset)
       end.

Definition varDefHits (text : string) : list (string * string * Z * Z) :=
  omap varDefHit (matchAll cssVarDefRegex text).

(** [excludeSpans] after the sort. *)
Definition excludeSpansOf (text : string) : list Span :=
  sortSpans (map (fun h : string * string * Z * Z => MkSpan h.1.2 h.2) (varDefHits text)).

Section Scanner.
(** The context extractors ([findCssContext], lines 4120-4150;
    [findJsxScopeAround], 4180-4230; [findJsPropertyKeyBeforeCol],
    4156-4178) only fill [scope] and [property]; they are parameters here. *)
Context (findCssContext : string -> list Z -> Z -> option string * option string)
        (findJsxScopeAround : string -> list Z -> Z -> option string)
        (findJsPropertyKeyBeforeCol : string -> Z -> option string).

Context (text : string) (lineStarts : list Z) (file : string)
        (globalVarValueByName : gmap string string).

(** The block every loop of the scanner repeats: line, column, context. *)
Definition rangeAt (startOffset endOffset : Z) : HitRange :=
  MkRange (offsetToLine0 lineStarts startOffset + 1)
          (offsetToCol lineStarts startOffset)
          (offsetToCol lineStarts endOffset).

Definition usageAt (isDef : bool) (startOffset : Z) : UsageInfo :=
  let line0 := offsetToLine0 lineStarts startOffset in
  let snippet := getLineText text lineStarts line0 in
  let col := offsetToCol lineStarts startOffset in
  let ctx :=
    if isCssFile file then findCssContext text lineStarts startOffset
    else (findJsxScopeAround text lineStarts line0,
          findJsPropertyKeyBeforeCol snippet col) in
  MkUsage isDef ctx.1 ctx.2 (line0 + 1).

(** Loop 1: variable definitions. *)
Definition varDefOccurrences : list ColorOccur :=
  map (fun h : string * string * Z * Z =>
         OccVar h.1.1.1 h.1.1.2 file (rangeAt h.1.2 h.2) (usageAt true h.1.2))
      (varDefHits text).

(** Loop 2: variable references; a name the table does not resolve (or
    resolves to the empty string) is skipped. *)
Definition varRefOccurrence (m : Match) : option ColorOccur :=
  let startOffset := Z.of_nat (m_index m) in
  let name := groupText m 1 in
  let endOffset := startOffset + Z.of_nat (String.length (m_text m)) in
  match globalVarValueByName !! name with
  | Some resolved =>
      if decide (resolved = "") then None
      else Some (OccVar name resolved file (rangeAt startOffset endOffset)
                   (usageAt false startOffset))
  | None => None
  end.

Definition varRefOccurrences : list ColorOccur :=
  omap varRefOccurrence (matchAll cssVarRefRegex text).

(** Loops 3 to 5: the matches of a literal grammar that are kept. *)
Definition literalMatches (re : regex) : list Match :=
  filter (fun m => isExcluded (excludeSpansOf text) (Z.of_nat (m_index m))
                     (Z.of_nat (m_index m) + Z.of_nat (String.length (m_text m)))
                   = false)
         (matchAll re text).

Definition literalOccurrence (m : Match) : ColorOccur :=
  let startOffset := Z.of_nat (m_index m) in
  let endOffset := startOffset + Z.of_nat (String.length (m_text m)) in
  OccLiteral (m_text m) file (rangeAt startOffset endOffset)
    (usageAt false startOffset).

Definition literalOccurrences (re : regex) : list ColorOccur :=
  map literalOccurrence (literalMatches re).

Definition scanTextForColorOccurrences : list ColorOccur :=
  varDefOccurrences ++ varRefOccurrences ++ literalOccurrences hexRegex ++
  literalOccurrences rgbRegex ++ literalOccurrences hslRegex.

End Scanner.

(** The aggregation loop of [render] (lines 3337-3355) over the
    occurrences of all files, in order. *)
(** [existing.occurrences.push(o)]: the entry is shared by reference, so the
    push is an update of the map at the entry's key. *)
Definition pushOccurrence (existing : ColorEntry) (o : ColorOccur) : ColorEntry :=
  MkEntry (key existing) (entryIsVar existing) (entryName existing)
    (entryValue existing) (occurrences existing ++ [o]).

Definition addOccurrence (entriesByKey : gmap string ColorEntry)
    (o : ColorOccur) : gmap string ColorEntry :=
  let k := makeColorKey o in
  match entriesByKey !! k with
  | None =>
      <[k := MkEntry k (isVar o) (occName o) (occValue o) [o]]> entriesByKey
  | Some existing => <[k := pushOccurrence existing o]> entriesByKey
  end.

(** The definitions of all files of [uris] that can be read, in traversal
    order. *)
Definition allVarDefinitions (H : Host) (uris : list Uri) : list VarDef :=
  concat (map (fun uri => match readFile H uri with
                          | Some text => scanVarDefinitions text
                          | None => []
                          end) uris).

(** The value of the first definition of [name] in a list of definitions. *)
Definition firstDefinition (name : string) (defs : list VarDef) : option string :=
  defValue <$> List.find (fun d => bool_decide (defName d = name)) defs.

(** Two occurrences lie in the occurrence list of one entry. *)
Definition sharesEntry (entriesByKey : gmap string ColorEntry)
    (o1 o2 : ColorOccur) : Prop :=
  exists k e, entriesByKey !! k = Some e /\
              o1 ∈ occurrences e /\ o2 ∈ occurrences e.

Definition aggregate (occByFile : list (list ColorOccur))
    : gmap string ColorEntry :=
  foldl addOccurrence ∅ (concat occByFile).

(** *** Notions and example files for the theorems *)

(** The occurrences of key [k] among [occs], in order. *)
Definition withKey (k : string) (occs : list ColorOccur) : list ColorOccur :=
  filter (fun o => makeColorKey o = k) occs.

Definition spanOfHit (h : string * string * Z * Z) : Span := MkSpan h.1.2 h.2.

(** [excludeSpans] before the sort. *)
Definition defSpans (text : string) : list Span := map spanOfHit (varDefHits text).

(** The literal grammars of loops 3 to 5. *)
Definition literalGrammars : list regex := [hexRegex; rgbRegex; hslRegex].

(** A file with [#FFF] on line 3 and [#fff] on line 9. *)
Definition twoSpellings : string :=
  ".a {" +:+ String "010" "  margin: 0;" +:+ String "010" "  color: #FFF;" +:+
  String "010" "}" +:+ String "010" "" +:+ String "010" ".b {" +:+
  String "010" "  margin: 0;" +:+ String "010" "  padding: 0;" +:+
  String "010" "  color: #fff;" +:+ String "010" "}".

(** A style sheet that defines [--border] and uses the same colour as a
    literal. *)
Definition borderSheet : string :=
  ":root { --border: #aabbcc; }" +:+ String "010" ".card { color: #aabbcc; }".

End Rev3.

(** ** Revision 2: the theme classifier and first-seen de-duplication *)

Module Rev2.
Import Js RegExp LineIndex Imports Colors.

(** [type ThemeTag = dark | light | base] *)
Inductive ThemeTag : Type := Dark | Light | Base.

(** A tag as a template literal prints it. *)
Definition themeString (t : ThemeTag) : string :=
  match t with Dark => "dark" | Light => "light" | Base => "base" end.

Record HitRange : Type := MkRange { line : Z; startCol : Z; endCol : Z }.

Record UsageHit : Type := MkUsageHit {
  usageFile : string;
  usageLine : Z;
  usageScope : string;
  usageProp : string;
  usageSample : string
}.

Inductive ColorHit : Type :=
| HitVar (name value file : string) (range : HitRange)
    (usages : list UsageHit) (theme : ThemeTag)
| HitLiteral (value file : string) (range : HitRange)
    (usages : list UsageHit).

Definition hitValue (h : ColorHit) : string :=
  match h with HitVar _ v _ _ _ _ => v | HitLiteral v _ _ _ => v end.
Definition hitFile (h : ColorHit) : string :=
  match h with HitVar _ _ f _ _ _ => f | HitLiteral _ f _ _ => f end.
Definition hitRange (h : ColorHit) : HitRange :=
  match h with HitVar _ _ _ r _ _ => r | HitLiteral _ _ r _ => r end.
Definition hitTheme (h : ColorHit) : option ThemeTag :=
  match h with HitVar _ _ _ _ _ t => Some t | HitLiteral _ _ _ _ => None end.
Definition hitName (h : ColorHit) : option string :=
  match h with HitVar n _ _ _ _ _ => Some n | HitLiteral _ _ _ _ => None end.

(** [/\r?\n/] *)
Definition lineBreak : regex := Seq (opt (chr "013")) (chr "010").

(** [/\/\*.*?\*\//g] and [/\/\/.*$/g] *)
Definition blockComment : regex := seqs [lit "/*"; starL isDot; lit "*/"].
Definition lineComment : regex := seqs [lit "//"; star isDot; Eol].

Definition stripSameLineComments (l : string) : string :=
  replaceAll lineComment (replaceAll blockComment l "") "".

(** [/@media[^{]*prefers-color-scheme\s*:\s*(dark|light)/] *)
Definition mediaRe : regex :=
  seqs [lit "@media"; star (isNot "{"); lit "prefers-color-scheme";
        star isSpace; chr ":"; star isSpace;
        Group 1 (Alt (lit "dark") (lit "light"))].

(** [/:root[^{]*data-theme-mode\s*=\s*[\x22'](dark|light)[\x22']/] *)
Definition rootAttrRe : regex :=
  seqs [lit ":root"; star (isNot "{"); lit "data-theme-mode"; star isSpace;
        chr "="; star isSpace; Chr isQuote;
        Group 1 (Alt (lit "dark") (lit "light")); Chr isQuote].

Definition darkOrLight (m : Match) : ThemeTag :=
  if decide (group m 1 = Some "dark") then Dark else Light.

(** [None] for [null]: the line holds no trigger. *)
Definition detectThemeTrigger (l : string) : option ThemeTag :=
  let l := toLowerCase l in
  match search mediaRe l with
  | Some media => Some (darkOrLight media)
  | None =>
      match search rootAttrRe l with
      | Some rootAttr => Some (darkOrLight rootAttr)
      | None => None
      end
  end.

(** [(line.match(/{/g) ?? []).length] and the same for the closing brace *)
Definition opensOf (l : string) : nat := length (matchAll (chr "{") l).
Definition closesOf (l : string) : nat := length (matchAll (chr "}") l).

(** The stack of open blocks, innermost first: the head of the list is the
    last element of the source's array.  [None] is the marker [null]. *)
Definition currentTheme (stack : list (option ThemeTag)) : ThemeTag :=
  default Base (list_find is_Some stack ≫= fun x => x.2).

(** [for (k = 0; k < opens; k++) stack.push(k === 0 && trigger ? trigger :
    null)] *)
Definition pushOpens (opens : nat) (trigger : option ThemeTag)
    (stack : list (option ThemeTag)) : list (option ThemeTag) :=
  match opens with
  | O => stack
  | S n => replicate n None ++ trigger :: stack
  end.

(** [for (k = 0; k < closes; k++) if (stack.length > 0) stack.pop()] *)
Definition popCloses (closes : nat) (stack : list (option ThemeTag))
    : list (option ThemeTag) :=
  drop closes stack.

(** The body of the loop over the lines, after [themeByLine[i]] is set. *)
Definition lineStep (stack : list (option ThemeTag)) (raw : string)
    : list (option ThemeTag) :=
  let l := stripSameLineComments raw in
  popCloses (closesOf l) (pushOpens (opensOf l) (detectThemeTrigger l) stack).

Fixpoint themeOfLines (stack : list (option ThemeTag)) (lines : list string)
    : list ThemeTag :=
  match lines with
  | [] => []
  | raw :: tl => currentTheme stack :: themeOfLines (lineStep stack raw) tl
  end.

Definition computeThemeByLine (text : string) : list ThemeTag :=
  themeOfLines [] (split lineBreak text).

(** [/^(?:rgba?|hsla?)\([^)]*\)/i] *)
Definition funcAnchored : regex :=
  seqs [Bol; Alt (Seq (litI "rgb") (opt (chrI "a"))) (Seq (litI "hsl") (opt (chrI "a")));
        chr "("; star (isNot ")"); chr ")"].

(** [/\brgba?\(...\)/g] and [/\bhsla?\(...\)/g] of this revision: no [i]
    flag, and [(?:deg|rad|turn)?] after the hue. *)
Definition rgbRegex : regex :=
  seqs [WordB; lit "rgb"; opt (chr "a"); chr "("; star isSpace; d13;
        star isSpace; chr ","; star isSpace; d13; star isSpace; chr ",";
        star isSpace; d13;
        opt (seqs [star isSpace; chr ","; star isSpace; alphaValue]);
        star isSpace; chr ")"].

Definition hslRegex : regex :=
  seqs [WordB; lit "hsl"; opt (chr "a"); chr "("; star isSpace; d13;
        opt (alts [lit "deg"; lit "rad"; lit "turn"]); star isSpace; chr ",";
        star isSpace; d13; chr "%"; star isSpace; chr ","; star isSpace; d13;
        chr "%";
        opt (seqs [star isSpace; chr ","; star isSpace; alphaValue]);
        star isSpace; chr ")"].

(** A number in a template literal. *)
Definition zToString (z : Z) : string := NilZero.string_of_int (Z.to_int z).

(** [`${line}:${startCol}:${endCol}:${normalizeColorKey(value)}`] *)
Definition rangeKey (r : HitRange) (value : string) : string :=
  zToString (line r) +:+ ":" +:+ zToString (startCol r) +:+ ":" +:+
  zToString (endCol r) +:+ ":" +:+ normalizeColorKey value.

(** [(rhs.match(hex)?.[0] ?? rhs.match(func)?.[0] ?? <empty>)?.trim()] *)
Definition firstColorToken (rhs : string) : string :=
  match search hexAnchored rhs with
  | Some m => trim (m_text m)
  | None =>
      match search funcAnchored rhs with
      | Some m => trim (m_text m)
      | None => ""
      end
  end.

Definition groupText (m : Match) (i : nat) : string := default "" (group m i).

Section Scanner.
Context (text : string) (lineStarts : list Z) (file : string).

Definition rangeAt (startOffset endOffset : Z) : HitRange :=
  MkRange (offsetToLine0 lineStarts startOffset + 1)
          (offsetToCol lineStarts startOffset)
          (offsetToCol lineStarts endOffset).

(** First pass: one variable hit for a match of [cssVarDefRegex], [None]
    where the loop says [continue]. *)
Definition varHit (themeByLine : list ThemeTag) (m : Match) : option ColorHit :=
  let matchStart := Z.of_nat (m_index m) in
  let whole := m_text m in
  let propName := "--" +:+ groupText m 1 in
  let rhs := trim (groupText m 2) in
  let value := firstColorToken rhs in
  if decide (value = "") then None
  else match indexOf value whole with
       | None => None
       | Some inner =>
           let startOffset := matchStart + Z.of_nat inner in
           let endOffset := startOffset + Z.of_nat (String.length value) in
           let line0 := offsetToLine0 lineStarts startOffset in
           let theme := default Base (lookupZ themeByLine line0) in
           Some (HitVar propName value file (rangeAt startOffset endOffset) [] theme)
       end.

Definition varHits : list ColorHit :=
  omap (varHit (computeThemeByLine text)) (matchAll cssVarDefRegex text).

(** [varValueRangeKeys] after the first pass. *)
Definition varValueRangeKeys : gset string :=
  list_to_set (map (fun h => rangeKey (hitRange h) (hitValue h)) varHits).

(** Second pass: the closure [addLiteralHit]. *)
Definition literalHit (m : Match) : option ColorHit :=
  let startOffset := Z.of_nat (m_index m) in
  let value := m_text m in
  let endOffset := startOffset + Z.of_nat (String.length value) in
  let r := rangeAt startOffset endOffset in
  if decide (rangeKey r value ∈ varValueRangeKeys) then None
  else Some (HitLiteral value file r []).

Definition literalHits (re : regex) : list ColorHit :=
  omap literalHit (matchAll re text).

(** [hits] when the usage extraction starts. *)
Definition hitsBeforeUsages : list ColorHit :=
  varHits ++ literalHits hexRegex ++ literalHits rgbRegex ++ literalHits hslRegex.

(** The usage extraction (lines 2763-2936) pushes on the [usages] arrays of
    the hits and sorts them; it changes no other field and neither adds nor
    removes a hit.  It is a parameter: the usages it leaves on hit [i]. *)
Context (usagesOf : string -> string -> list ColorHit -> nat -> list UsageHit).

Definition withUsages (h : ColorHit) (us : list UsageHit) : ColorHit :=
  match h with
  | HitVar n v f r _ t => HitVar n v f r us t
  | HitLiteral v f r _ => HitLiteral v f r us
  end.

Definition scanTextForColorsAndUsages : list ColorHit :=
  imap (fun i h => withUsages h (usagesOf text file hitsBeforeUsages i))
       hitsBeforeUsages.

End Scanner.

(** The de-duplication loop of [render] (lines 1704-1725). *)
Definition dedupKey (h : ColorHit) : string :=
  let normVal := normalizeColorKey (hitValue h) in
  match h with
  | HitVar name _ file _ _ theme =>
      toLowerCase (file +:+ "|" +:+ themeString theme +:+ "|" +:+ name +:+ "=" +:+ normVal)
  | HitLiteral _ file _ _ => toLowerCase (file +:+ "|" +:+ normVal)
  end.

(** The sets [varSeen] and [litSeen], and [merged]. *)
Record Dedup : Type := MkDedup {
  varSeen : gset string;
  litSeen : gset string;
  merged : list ColorHit
}.

Definition dedupStep (d : Dedup) (h : ColorHit) : Dedup :=
  let k := dedupKey h in
  match h with
  | HitVar _ _ _ _ _ _ =>
      if decide (k ∈ varSeen d) then d
      else MkDedup ({[k]} ∪ varSeen d) (litSeen d) (merged d ++ [h])
  | HitLiteral _ _ _ _ =>
      if decide (k ∈ litSeen d) then d
      else MkDedup (varSeen d) ({[k]} ∪ litSeen d) (merged d ++ [h])
  end.

Definition dedupe (allHits : list ColorHit) : list ColorHit :=
  merged (foldl dedupStep (MkDedup ∅ ∅ []) allHits).

(** *** Notions and example files for the theorems *)

(** The stack when the loop reaches the line after [lines]. *)
Definition stackAfter (stack : list (option ThemeTag)) (lines : list string)
    : list (option ThemeTag) :=
  foldl lineStep stack lines.

(** The lines [body] stay inside a block that has [depth] unclosed braces
    above its own: no line both holds a trigger and opens a brace, and no
    line closes more braces than are open above the block. *)
Fixpoint staysInside (depth : nat) (body : list string) : bool :=
  match body with
  | [] => true
  | raw :: tl =>
      let l := stripSameLineComments raw in
      (Nat.eqb (opensOf l) 0 || bool_decide (detectThemeTrigger l = None))
      && (closesOf l <=? depth + opensOf l)%nat
      && staysInside (depth + opensOf l - closesOf l) tl
  end.

Definition isVarHit (h : ColorHit) : bool :=
  match h with HitVar _ _ _ _ _ _ => true | HitLiteral _ _ _ _ => false end.

(** The invariant of the de-duplication loop: [varSeen] holds the keys of
    the variable hits of [merged]. *)
Definition seenInv (d : Dedup) : Prop :=
  forall k, k ∈ varSeen d <->
            exists m, m ∈ merged d /\ isVarHit m = true /\ dedupKey m = k.

(** A style sheet that defines [--bg] at top level and again inside a
    dark-mode media query. *)
Definition themedSheet : string :=
  ":root {" +:+ String "010" "  --bg: #ffffff;" +:+ String "010" "}" +:+
  String "010" "@media (prefers-color-scheme: dark) {" +:+
  String "010" "  :root {" +:+ String "010" "    --bg: #000000;" +:+
  String "010" "  }" +:+ String "010" "}".

(** A style sheet whose dark-mode media query opens on the line that closes
    the rule before it; [--bg] is defined at top level and inside the
    query. *)
Definition reopenedSheet : string :=
  ":root { --bg: #ffffff; }" +:+ String "010" ".card {" +:+
  String "010" "  margin: 0;" +:+
  String "010" "} @media (prefers-color-scheme: dark) {" +:+
  String "010" "  :root { --bg: #ffffff; }" +:+ String "010" "}".

(** A style sheet whose dark-mode media query stands on one line. *)
Definition oneLineSheet : string :=
  ":root { --bg: #ffffff; }" +:+
  String "010" "@media (prefers-color-scheme: dark) { :root { --bg: #ffffff; } }".

End Rev2.

(** ** The followability rule in the words of the specification *)

Module FollowSpec.
Import Js Imports.



End FollowSpec.

(** ** Notions for the theorems on lines *)

Module LineText.
Import Js.

Definition LF : ascii := "010".
Definition CR : ascii := "013".

(** The number of line feeds of a text. *)
Fixpoint countLF (text : string) : nat :=
  match text with
  | EmptyString => O
  | String c tl => if (code c =? 10)%N then S (countLF tl) else countLF tl
  end.

(** A text without its final line break, if it ends with one: a line feed,
    with the carriage return before it if there is one. *)
Fixpoint chompEnd (s : string) : string :=
  match s with
  | EmptyString => EmptyString
  | String c tl =>
      if decide (s = String CR (String LF EmptyString) \/ s = String LF EmptyString)
      then EmptyString
      else String c (chompEnd tl)
  end.

End LineText.

(** ** Notions for the theorems on the order of the traversal *)

Module Provenance.
Import Imports.

Section Traversal.
Context (H : Host) (wsRoot : Uri) (isFollowable : string -> ImportKind -> bool).

(** Where the files of the result and of the queue come from: the first
    entry of the result is the root, every other one was pushed by an entry
    before it; a file on the queue is the root before the first iteration,
    and was pushed by an entry of the result after it. *)
Definition provenance (root : Uri) (st : LoopState) : Prop :=
  (forall j v, out st !! j = Some v ->
     (j = O /\ v = root) \/
     exists i u, (i < j)%nat /\ out st !! i = Some u /\
                 importEdge H wsRoot isFollowable u v)
  /\ (forall v, v ∈ queue st ->
        (out st = [] /\ v = root) \/
        exists u, u ∈ out st /\ importEdge H wsRoot isFollowable u v).

End Traversal.

End Provenance.

(** ** HTML escaping (lines 1406-1422, 3086-3101 and 3430-3440) *)

Module Html.
Import Js RegExp.

(** [[&<>\x22']] *)
Definition isSpecial (c : ascii) : bool :=
  isChar "&" c || isChar "<" c || isChar ">" c || isChar dquote c || isChar "'" c.

(** [/[&<>\x22']/g] *)
Definition specialRe : regex := Chr isSpecial.

(** The callback [(ch) => map[ch] ?? ch] with its table of five entries. *)
Definition entityOf (ch : string) : string :=
  if decide (ch = "&") then "&amp;"
  else if decide (ch = "<") then "&lt;"
  else if decide (ch = ">") then "&gt;"
  else if decide (ch = String dquote EmptyString) then "&quot;"
  else if decide (ch = "'") then "&#39;"
  else ch.

(** [splice] with a callback in place of the fixed text: each match is
    replaced by [fn] of its text. *)
Fixpoint spliceWith (ms : list Match) (pos : nat) (s : string)
    (fn : string -> string) : string :=
  match ms with
  | [] => s
  | m :: ms' =>
      sliceTo (m_index m - pos) s +:+ fn (m_text m) +:+
      spliceWith ms' (m_end m) (sliceFrom (m_end m - pos) s) fn
  end.

(** [str.replace(re, fn)] for a global [re]. *)
Definition replaceAllWith (r : regex) (s : string) (fn : string -> string)
    : string :=
  spliceWith (matchAll r s) O s fn.

Definition escapeHtml (s : string) : string := replaceAllWith specialRe s entityOf.

Definition escapeHtmlAttr (s : string) : string := escapeHtml s.

(** *** Notions for the theorems *)

(** The five entities the escaping writes. *)
Definition entities : list string := ["&amp;"; "&lt;"; "&gt;"; "&quot;"; "&#39;"].

End Html.

(** ** Notions for the theorems on the de-duplication of revision 2 *)

Module DedupNotions.
Import Rev2.

(** What the loop compares: the kind of a hit, which selects [varSeen] or
    [litSeen], and its key. *)
Definition dedupClass (h : ColorHit) : bool * string := (isVarHit h, dedupKey h).

End DedupNotions.

(** ** Revision 3: the counts of [render] (lines 3357-3374) *)

Module Summary.
Import Js Rev3.

(** [const set = uniqueKeysPerFile.get(o.file) ?? new Set(); set.add(e.key);
    uniqueKeysPerFile.set(o.file, set)] *)
Definition addFileKey (u : gmap string (gset string)) (e : ColorEntry)
    (o : ColorOccur) : gmap string (gset string) :=
  <[occFile o := {[key e]} ∪ default ∅ (u !! occFile o)]> u.

(** The loops over [allEntries] and the occurrences of each entry. *)
Definition uniqueKeysPerFile (allEntries : list ColorEntry)
    : gmap string (gset string) :=
  foldl (fun u e => foldl (fun u o => addFileKey u e o) u (occurrences e))
        ∅ allEntries.

(** [uniqueKeysPerFile.get(f)?.size ?? 0] *)
Definition importCount (u : gmap string (gset string)) (f : string) : nat :=
  match u !! f with Some s => size s | None => O end.

(** [allEntries.length] *)
Definition totalColors (allEntries : list ColorEntry) : nat := length allEntries.

(** *** Notions for the theorems *)

(** [Array.from(entriesByKey.values())] lists the entries of the map, each
    once, in the order of their insertion; the order plays no part in the
    counts, so the theorems take any list that enumerates the map. *)
Definition valuesOf (allEntries : list ColorEntry)
    (entriesByKey : gmap string ColorEntry) : Prop :=
  allEntries ≡ₚ (map_to_list entriesByKey).*2.

(** The keys of the occurrences of file [f]. *)
Definition keysInFile (f : string) (occs : list ColorOccur) : gset string :=
  list_to_set (makeColorKey <$> filter (fun o => occFile o = f) occs).

End Summary.

(** ** Notions for the theorems on specifiers *)

Module SpecifierNotions.
Import Js.

(** A text without whitespace. *)
Fixpoint noSpace (p : string) : bool :=
  match p with
  | EmptyString => true
  | String c tl => negb (isSpace c) && noSpace tl
  end.

End SpecifierNotions.

(** ** Notions for the theorems on captured groups *)

Module MatchNotions.
Import Js RegExp.

(** [v] occurs in [w]. *)
Definition substring (v w : string) : Prop :=
  exists pre post, w = pre +:+ v +:+ post.

(** The capture spans of a state lie between [lo] and the position. *)
Definition capsIn (lo : nat) (st : mstate) : Prop :=
  Forall (fun c : nat * (nat * nat) =>
            (lo <= c.2.1)%nat /\ (c.2.1 <= c.2.2)%nat /\ (c.2.2 <= m_pos st)%nat)
         (m_caps st).

End MatchNotions.

(** ** Notions for the theorems on the texts of matches *)

Module Lang.
Import Js RegExp.

(** Every character of [w] is of class [p]. *)
Fixpoint allOf (p : ascii -> bool) (w : string) : bool :=
  match w with
  | EmptyString => true
  | String c tl => p c && allOf p tl
  end.

(** The texts an expression can match, when its tests of the surroundings
    ([^], [$], [\b]) are left out: every match of the matcher is one of
    them. *)
Fixpoint inLang (r : regex) (w : string) : Prop :=
  match r with
  | Eps => w = ""
  | Chr p => exists c, w = String c "" /\ p c = true
  | Seq r1 r2 => exists w1 w2, w = w1 +:+ w2 /\ inLang r1 w1 /\ inLang r2 w2
  | Alt r1 r2 => inLang r1 w \/ inLang r2 w
  | Star _ p => allOf p w = true
  | Group _ r1 => inLang r1 w
  | Bol => w = ""
  | Eol => w = ""
  | WordB => w = ""
  end.

(** The groups of an expression, with their numbers. *)
Fixpoint groupsOf (r : regex) : list (nat * regex) :=
  match r with
  | Group i r1 => (i, r1) :: groupsOf r1
  | Seq r1 r2 => groupsOf r1 ++ groupsOf r2
  | Alt r1 r2 => groupsOf r1 ++ groupsOf r2
  | _ => []
  end.

(** A state of a match that started at [pos0] in the text [rest0]. *)
Definition okState (pos0 : nat) (rest0 : string) (st : mstate) : Prop :=
  (pos0 <= m_pos st)%nat /\ m_rest st = sliceFrom (m_pos st - pos0) rest0.

(** A capture span of group [i] holds a text of a group [i] of [R]. *)
Definition capOk (R : regex) (pos0 : nat) (rest0 : string)
    (c : nat * (nat * nat)) : Prop :=
  exists r1, In (c.1, r1) (groupsOf R) /\
             inLang r1 (slice (c.2.1 - pos0) (c.2.2 - pos0) rest0).

(** A hex colour: [#] and 3, 4, 6 or 8 hex digits. *)
Definition isHexColor (v : string) : Prop :=
  exists ds, v = String "#" ds /\ allOf isHexDigit ds = true /\
             (String.length ds = 3 \/ String.length ds = 4 \/
              String.length ds = 6 \/ String.length ds = 8)%nat.

(** A call of a colour function: a name that is, in lower case, one of
    [names], an opening bracket, arguments without a closing bracket, and
    the closing bracket. *)
Definition isColorCall (names : list string) (v : string) : Prop :=
  exists name args, v = name +:+ "(" +:+ args +:+ ")" /\
                    In (toLowerCase name) names /\
                    allOf (isNot ")") args = true.

(** A colour token: a hex colour or a call of [rgb], [rgba], [hsl] or
    [hsla]. *)
Definition isColorToken (v : string) : Prop :=
  isHexColor v \/ isColorCall ["rgb"; "rgba"; "hsl"; "hsla"] v.

(** Every character class of [r] lies in [P]. *)
Fixpoint classesIn (P : ascii -> bool) (r : regex) : Prop :=
  match r with
  | Chr p => forall c, p c = true -> P c = true
  | Star _ p => forall c, p c = true -> P c = true
  | Seq r1 r2 => classesIn P r1 /\ classesIn P r2
  | Alt r1 r2 => classesIn P r1 /\ classesIn P r2
  | Group _ r1 => classesIn P r1
  | _ => True
  end.

(** Every match of [r] passes a group [i]. *)
Fixpoint mustCapture (i : nat) (r : regex) : bool :=
  match r with
  | Group j r1 => Nat.eqb i j || mustCapture i r1
  | Seq r1 r2 => mustCapture i r1 || mustCapture i r2
  | Alt r1 r2 => mustCapture i r1 && mustCapture i r2
  | _ => false
  end.

End Lang.

(** ** Revision 3: context extraction (lines 4120-4230) *)

Module UsageContext.
Import Js RegExp LineIndex Colors Rev3.

(** [s.lastIndexOf(value)], [None] for -1. *)
Fixpoint lastIndexOf (value whole : string) : option nat :=
  match whole with
  | EmptyString => if String.prefix value whole then Some O else None
  | String _ tl =>
      match lastIndexOf value tl with
      | Some i => Some (S i)
      | None => if String.prefix value whole then Some O else None
      end
  end.

(** [s.slice(0, end)] for any integer [end]: a negative [end] counts from
    the end of [s]. *)
Definition sliceToZ (end_ : Z) (s : string) : string :=
  if end_ <? 0 then sliceTo (Z.to_nat (Z.of_nat (String.length s) + end_)) s
  else sliceTo (Z.to_nat end_) s.

(** [/^\s*([-\w]+)\s*:/] *)
Definition propRe : regex :=
  seqs [Bol; star isSpace; Group 1 (plus isNameChar); star isSpace; chr ":"].

(** [/\/\*.*?\*\//g] *)
Definition commentRe : regex := seqs [lit "/*"; starL isDot; lit "*/"].

(** [x || undefined] for a string [x]. *)
Definition nonEmpty (s : string) : option string :=
  if decide (s = "") then None else Some s.

Definition findCssContext (text : string) (lineStarts : list Z) (offset : Z)
    : option string * option string :=
  let line0 := offsetToLine0 lineStarts offset in
  let lineText := getLineText text lineStarts line0 in
  let property :=
    match search propRe lineText with
    | Some propMatch => group propMatch 1
    | None => None
    end in
  let before := sliceToZ offset text in
  match lastIndexOf "{" before with
  | None => (None, property)
  | Some bracePos =>
      let beforeBrace := sliceTo bracePos before in
      let selectorChunk :=
        match lastIndexOf "}" beforeBrace with
        | Some prevClose => sliceFrom (prevClose + 1) beforeBrace
        | None => beforeBrace
        end in
      let scope :=
        trim (replaceAll (plus isSpace) (replaceAll commentRe selectorChunk "") " ") in
      (nonEmpty scope, property)
  end.

Definition isIdentStart (c : ascii) : bool :=
  isAlpha c || isChar "_" c || isChar "$" c.
Definition isIdentRest (c : ascii) : bool :=
  isAlnum c || isChar "_" c || isChar "$" c || isChar "-" c.

(** [/(?:\x22([^\x22]+)\x22|'([^']+)'|([A-Za-z_$][A-Za-z0-9_$-]* ))\s*:\s*/g] *)
Definition jsKeyRe : regex :=
  seqs [alts [seqs [Chr (isChar dquote); Group 1 (plus (isNot dquote)); Chr (isChar dquote)];
              seqs [chr "'"; Group 2 (plus (isNot "'")); chr "'"];
              Group 3 (Seq (Chr isIdentStart) (star isIdentRest))];
        star isSpace; chr ":"; star isSpace].

(** [last[1] ?? last[2] ?? last[3]] *)
Definition firstGroup (m : Match) : option string :=
  match group m 1 with
  | Some g => Some g
  | None => match group m 2 with Some g => Some g | None => group m 3 end
  end.

(** [col] is a number of the source; the scanner passes a column, an
    integer. *)
Definition findJsPropertyKeyBeforeCol (lineText : string) (col : Z)
    : option string :=
  let upTo := sliceTo (Z.to_nat (Z.max 0 col)) lineText in
  match last (matchAll jsKeyRe upTo) with
  | None => None
  | Some m =>
      match firstGroup m with
      | Some key => nonEmpty (trim key)
      | None => None
      end
  end.

(** [lt.includes(<)] *)
Definition includes (value whole : string) : bool :=
  match indexOf value whole with Some _ => true | None => false end.

(** The loop [for (i = tokenLine0; i >= startLine0; i--)]: [n] counts the
    lines still to try. *)
Fixpoint tagStartFrom (text : string) (lineStarts : list Z) (i : Z) (n : nat)
    : option Z :=
  match n with
  | O => None
  | S n' =>
      if includes "<" (getLineText text lineStarts i) then Some i
      else tagStartFrom text lineStarts (i - 1) n'
  end.

(** The lines [from .. to], [n] of them. *)
Fixpoint linesFrom (text : string) (lineStarts : list Z) (from : Z) (n : nat)
    : list string :=
  match n with
  | O => []
  | S n' => getLineText text lineStarts from :: linesFrom text lineStarts (from + 1) n'
  end.

(** [lines.join( )] with one blank between the lines. *)
Fixpoint joinBlank (lines : list string) : string :=
  match lines with
  | [] => ""
  | [l] => l
  | l :: tl => l +:+ " " +:+ joinBlank tl
  end.

(** [/\bclassName\s*=\s*[\x22']([^\x22']+)[\x22']/] *)
Definition classNameRe : regex :=
  seqs [WordB; lit "className"; star isSpace; chr "="; star isSpace;
        Chr isQuote; Group 1 (plus Imports.notQuote); Chr isQuote].

(** [/\bclassName\s*=\s*\{\s*[\x22']([^\x22']+)[\x22']\s*\}/] *)
Definition classNameBraceRe : regex :=
  seqs [WordB; lit "className"; star isSpace; chr "="; star isSpace; chr "{";
        star isSpace; Chr isQuote; Group 1 (plus Imports.notQuote); Chr isQuote;
        star isSpace; chr "}"].

(** [/<\s*([A-Za-z][A-Za-z0-9]* )\b/] *)
Definition tagRe : regex :=
  seqs [chr "<"; star isSpace; Group 1 (Seq (Chr isAlpha) (star isAlnum)); WordB].

(** [m?.[1]] when it is truthy, then the first class of the list:
    [m[1].trim().split(/\s+/)[0]] when it is truthy. *)
Definition firstClass (m : option Match) : option string :=
  match m with
  | None => None
  | Some x =>
      match group x 1 with
      | None => None
      | Some g =>
          if decide (g = "") then None
          else match split (plus isSpace) (trim g) with
               | first :: _ => nonEmpty first
               | [] => None
               end
      end
  end.

Definition findJsxScopeAround (text : string) (lineStarts : list Z)
    (tokenLine0 : Z) : option string :=
  let startLine0 := Z.max 0 (tokenLine0 - 30) in
  let tagStartLine0 :=
    tagStartFrom text lineStarts tokenLine0 (Z.to_nat (tokenLine0 - startLine0 + 1)) in
  let lines :=
    match tagStartLine0 with
    | Some t => linesFrom text lineStarts t (Z.to_nat (tokenLine0 - t + 1))
    | None => [getLineText text lineStarts tokenLine0]
    end in
  let chunk := joinBlank lines in
  match firstClass (search classNameRe chunk) with
  | Some first => Some ("." +:+ first)
  | None =>
      match firstClass (search classNameBraceRe chunk) with
      | Some first => Some ("." +:+ first)
      | None =>
          match search tagRe chunk with
          | Some m3 =>
              match group m3 1 with
              | Some g => nonEmpty g
              | None => None
              end
          | None => None
          end
      end
  end.

End UsageContext.

(** * Theorems *)

(** ** Strings *)

Module JsFacts.
Import Js.



End JsFacts.

(** ** C7: which specifiers are followed *)

Module FollowFacts.
Import Js Imports FollowSpec JsFacts.





End FollowFacts.

(** ** C9: the line index *)

Module LineIndexFacts.
Import Js LineIndex.

Lemma shiftr1_bounds (lo hi : Z) :
  lo <= hi -> lo <= Z.shiftr (lo + hi) 1 <= hi.
Proof.
  intros Hle. rewrite Z.shiftr_div_pow2 by lia. change (2 ^ 1) with 2.
  pose proof (Z.div_le_lower_bound (lo + hi) 2 lo ltac:(lia) ltac:(lia)).
  pose proof (Z.div_le_upper_bound (lo + hi) 2 hi ltac:(lia) ltac:(lia)).
  lia.
Qed.

(** The loop over a non-decreasing array [f] of length [n]: either no index
    in [lo..hi] has a value at most [x] and the result is [ans], or the
    result is the greatest such index. *)
Lemma bsearchLast_spec (key : Z -> option Z) (f : Z -> Z) (n x : Z) :
  (forall i, 0 <= i < n -> key i = Some (f i)) ->
  (forall i j, 0 <= i -> i <= j -> j < n -> f i <= f j) ->
  forall lo hi ans, 0 <= lo -> hi < n ->
    (bsearchLast key x lo hi ans = ans /\ forall i, lo <= i <= hi -> x < f i) \/
    (lo <= bsearchLast key x lo hi ans <= hi /\
     f (bsearchLast key x lo hi ans) <= x /\
     forall i, bsearchLast key x lo hi ans < i <= hi -> x < f i).
Proof.
  intros Hkey Hmono lo hi ans. funelim (bsearchLast key x lo hi ans).
  - intros Hlo Hhi. clear Heqcall Heq.
    pose proof (shiftr1_bounds lo hi l) as Hmid.
    set (mid := Z.shiftr (lo + hi) 1) in *.
    rewrite (Hkey mid) by lia. simpl.
    destruct (Z.leb_spec (f mid) x) as [Hle|Hgt].
    + destruct (H f n Hkey Hmono ltac:(lia) Hhi) as [[-> Hall] | (Hr & Hfr & Hall)].
      * right. split; [lia|]. split; [exact Hle|]. intros i Hi. apply Hall. lia.
      * right. split; [lia|]. split; [exact Hfr|]. exact Hall.
    + destruct (H0 f n Hkey Hmono Hlo ltac:(lia)) as [[-> Hall] | (Hr & Hfr & Hall)].
      * left. split; [reflexivity|]. intros i Hi.
        destruct (Z_lt_le_dec i mid); [apply Hall; lia|].
        pose proof (Hmono mid i ltac:(lia) ltac:(lia) ltac:(lia)). lia.
      * right. split; [lia|]. split; [exact Hfr|]. intros i Hi.
        destruct (Z_lt_le_dec i mid); [apply Hall; lia|].
        pose proof (Hmono mid i ltac:(lia) ltac:(lia) ltac:(lia)). lia.
  - intros Hlo Hhi. left. split; [reflexivity|].
    intros i Hi. lia.
Qed.

Lemma lookupZ_Some {A : Type} (l : list A) (i : Z) (a : A) :
  lookupZ l i = Some a <-> 0 <= i /\ l !! Z.to_nat i = Some a.
Proof.
  unfold lookupZ. destruct (Z.ltb_spec i 0); split.
  - discriminate.
  - intros [? _]. lia.
  - intros. split; [lia | assumption].
  - intros [_ ?]. assumption.
Qed.

Lemma lookupZ_nth (l : list Z) (i : Z) :
  0 <= i < Z.of_nat (length l) -> lookupZ l i = Some (nth (Z.to_nat i) l 0).
Proof.
  intros Hi. apply lookupZ_Some. split; [lia|].
  destruct (l !! Z.to_nat i) as [a|] eqn:Hl.
  - rewrite (nth_lookup_Some l (Z.to_nat i) 0 a Hl). reflexivity.
  - apply lookup_ge_None in Hl. lia.
Qed.

Lemma lineStartsFrom_gt (text : string) (i : Z) :
  Forall (fun s => i < s) (lineStartsFrom i text).
Proof.
  revert i. induction text as [|c tl IH]; intros i; simpl; [constructor|].
  assert (Htl : Forall (fun s => i < s) (lineStartsFrom (i + 1) tl)).
  { eapply Forall_impl; [apply IH|]. simpl. intros. lia. }
  destruct (code c =? 10)%N; [constructor; [lia | exact Htl] | exact Htl].
Qed.

Lemma lineStartsFrom_sorted (text : string) (i : Z) :
  StronglySorted Z.lt (lineStartsFrom i text).
Proof.
  revert i. induction text as [|c tl IH]; intros i; simpl; [constructor|].
  destruct (code c =? 10)%N; [|apply IH].
  constructor; [apply IH | apply lineStartsFrom_gt].
Qed.

(** The line starts are strictly increasing from 0. *)
Lemma buildLineStartIndex_sorted (text : string) :
  StronglySorted Z.lt (buildLineStartIndex text).
Proof.
  constructor; [apply lineStartsFrom_sorted | apply lineStartsFrom_gt].
Qed.

Lemma sorted_nth_le (l : list Z) :
  StronglySorted Z.lt l ->
  forall i j, (i <= j)%nat -> (j < length l)%nat -> nth i l 0 <= nth j l 0.
Proof.
  induction 1 as [|a l Hs IH Hall]; intros i j Hij Hj; simpl in Hj; [lia|].
  destruct j as [|j].
  - assert (i = O) as -> by lia. reflexivity.
  - destruct i as [|i]; simpl.
    + rewrite Forall_forall in Hall.
      assert (a < nth j l 0); [|lia].
      apply Hall, list_elem_of_In, nth_In. lia.
    + apply IH; lia.
Qed.

(** C9: over the index built from a text, [offsetToLine0] returns the
    greatest index whose line start is at most the offset, and
    [offsetToCol] the offset minus that line start, for every offset from 0
    to the length of the text; both are total functions. *)
Theorem offsetToLine0_greatest (text : string) (n : Z) :
  0 <= n <= Z.of_nat (String.length text) ->
  exists start : Z,
    lookupZ (buildLineStartIndex text) (offsetToLine0 (buildLineStartIndex text) n)
      = Some start /\
    start <= n /\
    (forall j s, offsetToLine0 (buildLineStartIndex text) n < j ->
                 lookupZ (buildLineStartIndex text) j = Some s -> n < s) /\
    offsetToCol (buildLineStartIndex text) n = n - start.
Proof.
  intros Hn.
  set (ls := buildLineStartIndex text).
  pose proof (buildLineStartIndex_sorted text) as Hsorted. fold ls in Hsorted.
  assert (Hlen : (1 <= length ls)%nat) by (unfold ls; simpl; lia).
  set (f := fun i : Z => nth (Z.to_nat i) ls 0).
  assert (Hkey : forall i, 0 <= i < Z.of_nat (length ls) -> lookupZ ls i = Some (f i)).
  { intros i Hi. apply lookupZ_nth. exact Hi. }
  assert (Hmono : forall i j, 0 <= i -> i <= j -> j < Z.of_nat (length ls) -> f i <= f j).
  { intros i j Hi Hij Hj. apply sorted_nth_le; [exact Hsorted | lia | lia]. }
  pose proof (bsearchLast_spec (lookupZ ls) f (Z.of_nat (length ls)) n Hkey Hmono
                0 (Z.of_nat (length ls) - 1) 0 ltac:(lia) ltac:(lia)) as Hspec.
  fold (offsetToLine0 ls n) in Hspec.
  assert (Hf0 : f 0 = 0) by reflexivity.
  assert (Hres : 0 <= offsetToLine0 ls n <= Z.of_nat (length ls) - 1 /\
                 f (offsetToLine0 ls n) <= n /\
                 forall i, offsetToLine0 ls n < i <= Z.of_nat (length ls) - 1 -> n < f i).
  { destruct Hspec as [[_ Hall] | Hgood]; [|exact Hgood].
    specialize (Hall 0 ltac:(lia)). lia. }
  destruct Hres as (Hr & Hfr & Hall).
  exists (f (offsetToLine0 ls n)).
  assert (Hlook : lookupZ ls (offsetToLine0 ls n) = Some (f (offsetToLine0 ls n))).
  { apply Hkey. lia. }
  split; [exact Hlook|]. split; [exact Hfr|]. split.
  - intros j s Hj Hjs.
    assert (Hjr : 0 <= j < Z.of_nat (length ls)).
    { apply lookupZ_Some in Hjs as [Hj0 Hjs]. apply lookup_lt_Some in Hjs. lia. }
    rewrite Hkey in Hjs by exact Hjr. injection Hjs as <-. apply Hall. lia.
  - unfold offsetToCol. rewrite Hlook. simpl. lia.
Qed.

(** The statement at a text of three lines and an offset on its second
    line. *)
Lemma offsetToLine0_greatest_witness :
  exists start : Z,
    lookupZ (buildLineStartIndex ("ab" +:+ String "010" "cd" +:+ String "010" "e"))
      (offsetToLine0 (buildLineStartIndex ("ab" +:+ String "010" "cd" +:+ String "010" "e")) 4)
      = Some start /\
    start <= 4 /\
    (forall j s,
       offsetToLine0 (buildLineStartIndex ("ab" +:+ String "010" "cd" +:+ String "010" "e")) 4 < j ->
       lookupZ (buildLineStartIndex ("ab" +:+ String "010" "cd" +:+ String "010" "e")) j = Some s ->
       4 < s) /\
    offsetToCol (buildLineStartIndex ("ab" +:+ String "010" "cd" +:+ String "010" "e")) 4
      = 4 - start.
Proof.
  apply (offsetToLine0_greatest ("ab" +:+ String "010" "cd" +:+ String "010" "e") 4).
  simpl. lia.
Defined.

End LineIndexFacts.

(** ** The matcher: where matches lie *)

Module RegExpFacts.
Import Js RegExp.

Lemma append_assoc (a b c : string) : (a +:+ b) +:+ c = a +:+ (b +:+ c).
Proof.
  induction a as [|x a IH]; [reflexivity|].
  change (String x ((a +:+ b) +:+ c) = String x (a +:+ (b +:+ c))).
  rewrite IH. reflexivity.
Qed.

Lemma length_append (a b : string) :
  String.length (a +:+ b) = (String.length a + String.length b)%nat.
Proof. induction a as [|x a IH]; simpl; [reflexivity | f_equal; exact IH]. Qed.

Lemma advances_refl (st : mstate) : advances 0 st st.
Proof. exists "". simpl. split; [reflexivity|]. split; lia. Qed.

Lemma advances_trans (n1 n2 : nat) (st1 st2 st3 : mstate) :
  advances n1 st1 st2 -> advances n2 st2 st3 -> advances (n1 + n2) st1 st3.
Proof.
  intros (w1 & Hr1 & Hp1 & Hn1) (w2 & Hr2 & Hp2 & Hn2).
  exists (w1 +:+ w2). split; [|split].
  - rewrite append_assoc, <- Hr2. exact Hr1.
  - rewrite length_append. lia.
  - rewrite length_append. lia.
Qed.

Lemma advances_weaken (n m : nat) (st st' : mstate) :
  (m <= n)%nat -> advances n st st' -> advances m st st'.
Proof. intros Hle (w & Hr & Hp & Hn). exists w. split; [exact Hr|]. split; lia. Qed.

Lemma starGreedy_advances (p : ascii -> bool) (k : mstate -> option mstate)
    (caps : list (nat * (nat * nat))) (rest : string) :
  forall pos prev res,
    starGreedy p k caps pos prev rest = Some res ->
    exists st', advances 0 (MState pos prev rest caps) st' /\ k st' = Some res.
Proof.
  induction rest as [|c tl IH]; intros pos prev res; simpl.
  - intros Hk. eexists. split; [apply advances_refl | exact Hk].
  - destruct (p c).
    + destruct (starGreedy p k caps (S pos) (Some c) tl) as [r|] eqn:Hrec.
      * intros [= <-]. destruct (IH _ _ _ Hrec) as (st' & (w & Hr & Hp & _) & Hk).
        exists st'. split; [|exact Hk]. exists (String c w). simpl in *.
        rewrite Hr. split; [reflexivity|]. split; lia.
      * intros Hk. eexists. split; [apply advances_refl | exact Hk].
    + intros Hk. eexists. split; [apply advances_refl | exact Hk].
Qed.

Lemma starLazy_advances (p : ascii -> bool) (k : mstate -> option mstate)
    (caps : list (nat * (nat * nat))) (rest : string) :
  forall pos prev res,
    starLazy p k caps pos prev rest = Some res ->
    exists st', advances 0 (MState pos prev rest caps) st' /\ k st' = Some res.
Proof.
  induction rest as [|c tl IH]; intros pos prev res; simpl.
  - destruct (k (MState pos prev "" caps)) as [r|] eqn:Hk; [|discriminate].
    intros [= <-]. eexists. split; [apply advances_refl | exact Hk].
  - destruct (k (MState pos prev (String c tl) caps)) as [r|] eqn:Hk.
    + intros [= <-]. eexists. split; [apply advances_refl | exact Hk].
    + destruct (p c); [|discriminate]. intros Hrec.
      destruct (IH _ _ _ Hrec) as (st' & (w & Hr & Hp & _) & Hk').
      exists st'. split; [|exact Hk']. exists (String c w). simpl in *.
      rewrite Hr. split; [reflexivity|]. split; lia.
Qed.

(** A successful match consumed a prefix of the text of at least
    [minLen r] characters before the continuation succeeded. *)
Lemma rmatch_advances (r : regex) :
  forall st k res,
    rmatch r st k = Some res ->
    exists st', advances (minLen r) st st' /\ k st' = Some res.
Proof.
  induction r as [|p|r1 IH1 r2 IH2|r1 IH1 r2 IH2|g p|i r1 IH1| | |];
    intros st k res; simpl.
  - intros Hk. exists st. split; [apply advances_refl | exact Hk].
  - destruct st as [pos prev rest caps]. simpl.
    destruct rest as [|c tl]; [discriminate|].
    destruct (p c); [|discriminate]. intros Hk.
    eexists. split; [|exact Hk]. exists (String c ""). simpl.
    split; [reflexivity|]. split; lia.
  - intros Hm. destruct (IH1 _ _ _ Hm) as (st1 & Ha1 & Hm2).
    destruct (IH2 _ _ _ Hm2) as (st2 & Ha2 & Hk).
    exists st2. split; [eapply advances_trans; eassumption | exact Hk].
  - destruct (rmatch r1 st k) as [r|] eqn:H1.
    + intros [= <-]. destruct (IH1 _ _ _ H1) as (st' & Ha & Hk).
      exists st'. split; [|exact Hk]. eapply advances_weaken; [|exact Ha]. lia.
    + intros H2. destruct (IH2 _ _ _ H2) as (st' & Ha & Hk).
      exists st'. split; [|exact Hk]. eapply advances_weaken; [|exact Ha]. lia.
  - destruct st as [pos prev rest caps]. simpl.
    destruct g; [apply starGreedy_advances | apply starLazy_advances].
  - intros Hm. destruct (IH1 _ _ _ Hm) as (st' & (w & Hr & Hp & Hn) & Hk).
    eexists. split; [|exact Hk]. exists w. simpl. auto.
  - destruct (Nat.eqb (m_pos st) 0); [|discriminate].
    intros Hk. exists st. split; [apply advances_refl | exact Hk].
  - destruct (m_rest st); [|discriminate].
    intros Hk. exists st. split; [apply advances_refl | exact Hk].
  - destruct (xorb _ _); [|discriminate].
    intros Hk. exists st. split; [apply advances_refl | exact Hk].
Qed.

Lemma sliceTo_append (w rest : string) : sliceTo (String.length w) (w +:+ rest) = w.
Proof. induction w as [|c w IH]; simpl; [destruct rest; reflexivity | rewrite IH; reflexivity]. Qed.

(** A match found at [pos] starts there, is a prefix of the text from
    [pos] on, and is at least [minLen r] long. *)
Lemma execAt_spec (r : regex) (pos : nat) (prev : option ascii) (rest : string)
    (m : Match) :
  execAt r pos prev rest = Some m ->
  m_index m = pos /\ (minLen r <= String.length (m_text m))%nat /\
  exists rest', rest = m_text m +:+ rest'.
Proof.
  unfold execAt. destruct (rmatch r (MState pos prev rest []) Some) as [st|] eqn:Hm;
    [|discriminate].
  intros [= <-]. destruct (rmatch_advances r _ _ _ Hm) as (st' & (w & Hr & Hp & Hn) & [= ->]).
  simpl in *. subst rest. rewrite Hp.
  replace (pos + String.length w - pos)%nat with (String.length w) by lia.
  rewrite sliceTo_append. split; [reflexivity|]. split; [exact Hn|]. eauto.
Qed.

(** The matches of [matchAll] lie in the text, in order and without
    overlap, and each is at least [minLen r] long. *)
Lemma matchAllFrom_spec (r : regex) (rest : string) :
  forall skip pos prev,
    Forall (fun m => (pos + skip <= m_index m)%nat /\
                     (m_end m <= pos + String.length rest)%nat /\
                     (minLen r <= String.length (m_text m))%nat)
           (matchAllFrom r skip pos prev rest) /\
    StronglySorted (fun a b => (m_end a <= m_index b)%nat)
                   (matchAllFrom r skip pos prev rest).
Proof.
  induction rest as [|c tl IH]; intros skip pos prev.
  - destruct skip as [|n]; simpl; [|split; constructor].
    destruct (execAt r pos prev "") as [m|] eqn:Hm; [|split; constructor].
    destruct (execAt_spec _ _ _ _ _ Hm) as (Hi & Hn & rest' & Hrest).
    assert (Hlen : String.length (m_text m) = 0%nat).
    { apply (f_equal String.length) in Hrest. rewrite length_append in Hrest.
      simpl in Hrest. lia. }
    split; [|repeat constructor].
    constructor; [|constructor]. unfold m_end. simpl. lia.
  - destruct skip as [|n]; simpl.
    + destruct (execAt r pos prev (String c tl)) as [m|] eqn:Hm.
      * destruct (execAt_spec _ _ _ _ _ Hm) as (Hi & Hn & rest' & Hrest).
        assert (Hlen : (String.length (m_text m) <= S (String.length tl))%nat).
        { apply (f_equal String.length) in Hrest. rewrite length_append in Hrest.
          simpl in Hrest. lia. }
        destruct (IH (Nat.pred (String.length (m_text m))) (S pos) (Some c))
          as [Hall Hsorted].
        split.
        -- constructor; [unfold m_end; simpl; lia|].
           eapply Forall_impl; [exact Hall|]. simpl. intros m' (H1 & H2 & H3).
           split; [lia|]. split; [lia | exact H3].
        -- constructor; [exact Hsorted|].
           eapply Forall_impl; [exact Hall|]. simpl. intros m' (H1 & _).
           unfold m_end. lia.
      * destruct (IH O (S pos) (Some c)) as [Hall Hsorted].
        split; [|exact Hsorted].
        eapply Forall_impl; [exact Hall|]. simpl. intros m' (H1 & H2 & H3).
        split; [lia|]. split; [lia | exact H3].
    + destruct (IH n (S pos) (Some c)) as [Hall Hsorted].
      split; [|exact Hsorted].
      eapply Forall_impl; [exact Hall|]. simpl. intros m' (H1 & H2 & H3).
      split; [lia|]. split; [lia | exact H3].
Qed.

Lemma matchAll_spec (r : regex) (text : string) :
  Forall (fun m => (m_end m <= String.length text)%nat /\
                   (minLen r <= String.length (m_text m))%nat)
         (matchAll r text) /\
  StronglySorted (fun a b => (m_end a <= m_index b)%nat) (matchAll r text).
Proof.
  destruct (matchAllFrom_spec r text O O None) as [Hall Hsorted].
  split; [|exact Hsorted].
  eapply Forall_impl; [exact Hall|]. simpl. intros m (_ & H2 & H3). auto.
Qed.

End RegExpFacts.

(** ** The key normalisation in the words of the specification *)

Module NormalizeFacts.
Import Js RegExp Colors RegExpFacts.

Lemma runLen_le (p : ascii -> bool) (s : string) :
  (runLen p s <= String.length s)%nat.
Proof.
  induction s as [|c tl IH]; simpl; [lia|]. destruct (p c); simpl; lia.
Qed.

Lemma sliceTo_length (n : nat) (s : string) :
  (n <= String.length s)%nat -> String.length (sliceTo n s) = n.
Proof.
  revert s. induction n as [|n IH]; intros s Hn; [destruct s; reflexivity|].
  destruct s as [|c tl]; simpl in *; [lia|]. rewrite IH; lia.
Qed.

(** With the continuation that accepts at once, a greedy star takes the
    whole run. *)
Lemma starGreedy_run (p : ascii -> bool) (caps : list (nat * (nat * nat)))
    (rest : string) :
  forall pos prev,
    exists st, starGreedy p Some caps pos prev rest = Some st /\
               m_pos st = (pos + runLen p rest)%nat.
Proof.
  induction rest as [|c tl IH]; intros pos prev; simpl.
  - eexists. split; [reflexivity|]. simpl. lia.
  - destruct (p c).
    + destruct (IH (S pos) (Some c)) as (st & Hst & Hpos).
      exists st. rewrite Hst. split; [reflexivity|]. lia.
    + eexists. split; [reflexivity|]. simpl. lia.
Qed.

Lemma execAt_spaces (pos : nat) (prev : option ascii) (c : ascii) (tl : string) :
  isSpace c = true ->
  exists m, execAt (plus isSpace) pos prev (String c tl) = Some m /\
            m_index m = pos /\
            String.length (m_text m) = S (runLen isSpace tl).
Proof.
  intros Hc. unfold execAt, plus. simpl. rewrite Hc.
  destruct (starGreedy_run isSpace [] tl (S pos) (Some c)) as (st & Hst & Hpos).
  rewrite Hst. eexists. split; [reflexivity|]. simpl. split; [reflexivity|].
  rewrite Hpos. replace (S pos + runLen isSpace tl - pos)%nat
    with (S (runLen isSpace tl)) by lia.
  apply (sliceTo_length (S (runLen isSpace tl)) (String c tl)).
  pose proof (runLen_le isSpace tl). simpl. lia.
Qed.

Lemma execAt_no_space (pos : nat) (prev : option ascii) (rest : string) :
  match rest with String c _ => isSpace c = false | EmptyString => True end ->
  execAt (plus isSpace) pos prev rest = None.
Proof.
  unfold execAt, plus. simpl. destruct rest as [|c tl]; [reflexivity|].
  intros ->. reflexivity.
Qed.

(** Splicing below a character that no match covers keeps the character. *)
Lemma splice_cons (ms : list Match) (pos : nat) (c : ascii) (tl by_ : string) :
  Forall (fun m => (S pos <= m_index m)%nat) ms ->
  splice ms pos (String c tl) by_ = String c (splice ms (S pos) tl by_).
Proof.
  destruct ms as [|m ms]; intros Hall; simpl; [reflexivity|].
  apply Forall_cons in Hall as [Hm _]. unfold m_end.
  replace (m_index m - pos)%nat with (S (m_index m - S pos)) by lia.
  replace (m_index m + String.length (m_text m) - pos)%nat
    with (S (m_index m + String.length (m_text m) - S pos)) by lia.
  reflexivity.
Qed.

Lemma removeSpaces_run (s : string) :
  removeSpaces (sliceFrom (runLen isSpace s) s) = removeSpaces s.
Proof.
  induction s as [|c tl IH]; simpl; [reflexivity|].
  destruct (isSpace c) eqn:Hc; simpl; [exact IH | rewrite Hc; reflexivity].
Qed.

Lemma splice_spaces (rest : string) :
  forall skip pos prev,
    (skip <= runLen isSpace rest)%nat ->
    splice (matchAllFrom (plus isSpace) skip pos prev rest) (pos + skip)
      (sliceFrom skip rest) "" = removeSpaces (sliceFrom skip rest).
Proof.
  induction rest as [|c tl IH]; intros skip pos prev Hskip.
  - simpl in Hskip. assert (skip = O) as -> by lia. reflexivity.
  - destruct skip as [|n].
    + rewrite Nat.add_0_r.
      change (sliceFrom 0 (String c tl)) with (String c tl).
      destruct (isSpace c) eqn:Hc.
      * destruct (execAt_spaces pos prev c tl Hc) as (m & Hm & Hi & Hlen).
        change (matchAllFrom (plus isSpace) 0 pos prev (String c tl))
          with (match execAt (plus isSpace) pos prev (String c tl) with
                | Some m =>
                    m :: matchAllFrom (plus isSpace)
                           (Nat.pred (String.length (m_text m))) (S pos) (Some c) tl
                | None => matchAllFrom (plus isSpace) 0 (S pos) (Some c) tl
                end).
        rewrite Hm. cbn [splice]. unfold m_end. rewrite Hi, Hlen, Nat.sub_diag.
        cbn [Nat.pred sliceTo].
        replace (pos + S (runLen isSpace tl) - pos)%nat
          with (S (runLen isSpace tl)) by lia.
        cbn [sliceFrom String.append].
        replace (pos + S (runLen isSpace tl))%nat
          with (S pos + runLen isSpace tl)%nat by lia.
        rewrite (IH (runLen isSpace tl) (S pos) (Some c) (le_n _)).
        rewrite removeSpaces_run. simpl. rewrite Hc. reflexivity.
      * change (matchAllFrom (plus isSpace) 0 pos prev (String c tl))
          with (match execAt (plus isSpace) pos prev (String c tl) with
                | Some m =>
                    m :: matchAllFrom (plus isSpace)
                           (Nat.pred (String.length (m_text m))) (S pos) (Some c) tl
                | None => matchAllFrom (plus isSpace) 0 (S pos) (Some c) tl
                end).
        rewrite (execAt_no_space pos prev (String c tl) Hc).
        rewrite splice_cons.
        -- pose proof (IH O (S pos) (Some c) ltac:(lia)) as Htl.
           rewrite Nat.add_0_r in Htl. simpl in Htl. rewrite Htl.
           simpl. rewrite Hc. reflexivity.
        -- destruct (matchAllFrom_spec (plus isSpace) tl O (S pos) (Some c)) as [Hall _].
           eapply Forall_impl; [exact Hall|]. simpl. intros m (H1 & _). lia.
    + simpl in Hskip. destruct (isSpace c) eqn:Hc; [|lia].
      change (matchAllFrom (plus isSpace) (S n) pos prev (String c tl))
        with (matchAllFrom (plus isSpace) n (S pos) (Some c) tl).
      change (sliceFrom (S n) (String c tl)) with (sliceFrom n tl).
      replace (pos + S n)%nat with (S pos + n)%nat by lia.
      apply IH. lia.
Qed.

(** [s.replace(/\s+/g, <empty>)] removes the whitespace of [s]. *)
Lemma replaceAll_spaces (s : string) :
  replaceAll (plus isSpace) s "" = removeSpaces s.
Proof.
  unfold replaceAll, matchAll.
  exact (splice_spaces s O O None (Nat.le_0_l _)).
Qed.

(** [normalizeColorKey] trims, lowercases and removes all whitespace. *)
Lemma normalizeColorKey_spec (value : string) :
  normalizeColorKey value = removeSpaces (toLowerCase (trim value)).
Proof. unfold normalizeColorKey. apply replaceAll_spaces. Qed.

End NormalizeFacts.

(** ** C4: the global variable table *)

Module VarTableFacts.
Import Js Imports Rev3.

Lemma addDef_taken (table : gmap string string) (d : VarDef) (v : string) :
  table !! defName d = Some v -> addDef table d = table.
Proof. intros Hv. unfold addDef. rewrite Hv. reflexivity. Qed.

Lemma addDef_lookup (table : gmap string string) (d : VarDef) (n : string) :
  addDef table d !! n =
  match table !! n with
  | Some v => Some v
  | None => if bool_decide (defName d = n) then Some (defValue d) else None
  end.
Proof.
  unfold addDef. destruct (table !! defName d) as [v|] eqn:Hd.
  - destruct (table !! n) as [w|] eqn:Hn; [reflexivity|].
    case_bool_decide; [congruence | reflexivity].
  - rewrite lookup_insert. case_decide as Heq.
    + subst n. rewrite Hd. rewrite bool_decide_eq_true_2 by reflexivity.
      reflexivity.
    + rewrite bool_decide_eq_false_2 by exact Heq.
      destruct (table !! n); reflexivity.
Qed.

Lemma addDefs_lookup (defs : list VarDef) (table : gmap string string) (n : string) :
  addDefs table defs !! n =
  match table !! n with
  | Some v => Some v
  | None => firstDefinition n defs
  end.
Proof.
  unfold addDefs, firstDefinition.
  revert table. induction defs as [|d defs IH]; intros table; simpl.
  - destruct (table !! n); reflexivity.
  - rewrite IH, addDef_lookup.
    destruct (table !! n) as [v|]; [reflexivity|].
    destruct (bool_decide (defName d = n)); reflexivity.
Qed.

Lemma collectVarTable_addDefs (H : Host) (uris : list Uri) :
  collectVarTable H uris = addDefs ∅ (allVarDefinitions H uris).
Proof.
  unfold collectVarTable, allVarDefinitions, addDefs.
  generalize (∅ : gmap string string) as table.
  induction uris as [|uri uris IH]; intros table; simpl; [reflexivity|].
  rewrite foldl_app, IH.
  destruct (readFile H uri); reflexivity.
Qed.

Lemma collectVarTable_lookup (H : Host) (uris : list Uri) (n : string) :
  collectVarTable H uris !! n = firstDefinition n (allVarDefinitions H uris).
Proof.
  rewrite collectVarTable_addDefs, addDefs_lookup, lookup_empty. reflexivity.
Qed.

(** C4: the table built over the import closure holds, for every name, the
    value of the first definition in traversal order, and a definition of a
    name that the table already holds leaves the table unchanged. *)
Theorem globalVarTable_first_writer_wins :
  (forall (H : Host) (uris : list Uri) (n : string),
     collectVarTable H uris !! n = firstDefinition n (allVarDefinitions H uris))
  /\ (forall (H : Host) (uris : list Uri) (before after : list VarDef) (d : VarDef),
        allVarDefinitions H uris = before ++ d :: after ->
        Forall (fun d' => defName d' <> defName d) before ->
        collectVarTable H uris !! defName d = Some (defValue d))
  /\ (forall (table : gmap string string) (d : VarDef),
        is_Some (table !! defName d) -> addDef table d = table).
Proof.
  split; [|split].
  - exact collectVarTable_lookup.
  - intros H uris before after d Hsplit Hbefore.
    rewrite collectVarTable_lookup, Hsplit.
    unfold firstDefinition. clear Hsplit.
    induction Hbefore as [|d' before Hne _ IH]; simpl.
    + rewrite bool_decide_eq_true_2 by reflexivity. reflexivity.
    + rewrite bool_decide_eq_false_2 by exact Hne. exact IH.
  - intros table d [v Hv]. exact (addDef_taken table d v Hv).
Qed.

(** Two files define [--border]; the importing file is first in traversal
    order and its value is the one retained. *)
Lemma globalVarTable_witness :
  collectVarTable
    (MemHost.memHost [("/w/a.css", ":root { --border: #aabbcc; }");
                      ("/w/b.css", ":root { --border: #000000; }")])
    ["/w/a.css"; "/w/b.css"] !! "--border" = Some "#aabbcc".
Proof.
  apply (proj1 (proj2 globalVarTable_first_writer_wins)
           (MemHost.memHost [("/w/a.css", ":root { --border: #aabbcc; }");
                             ("/w/b.css", ":root { --border: #000000; }")])
           ["/w/a.css"; "/w/b.css"] []
           [MkVarDef "--border" "#000000"] (MkVarDef "--border" "#aabbcc")).
  - vm_compute. reflexivity.
  - constructor.
Defined.

End VarTableFacts.

(** ** C3 and C10: aggregation into entries *)

Module AggregateFacts.
Import Js RegExp LineIndex Imports Colors Rev3 NormalizeFacts.

Lemma addOccurrence_other (m : gmap string ColorEntry) (o : ColorOccur) (k : string) :
  k <> makeColorKey o -> addOccurrence m o !! k = m !! k.
Proof.
  intros Hne. unfold addOccurrence.
  destruct (m !! makeColorKey o); rewrite lookup_insert_ne by congruence; reflexivity.
Qed.

Lemma addOccurrence_existing (m : gmap string ColorEntry) (o : ColorOccur)
    (e : ColorEntry) :
  m !! makeColorKey o = Some e ->
  addOccurrence m o !! makeColorKey o = Some (pushOccurrence e o).
Proof.
  intros He. unfold addOccurrence. rewrite He. apply lookup_insert_eq.
Qed.

Lemma addOccurrence_fresh (m : gmap string ColorEntry) (o : ColorOccur) :
  m !! makeColorKey o = None ->
  addOccurrence m o !! makeColorKey o =
  Some (MkEntry (makeColorKey o) (isVar o) (occName o) (occValue o) [o]).
Proof.
  intros He. unfold addOccurrence. rewrite He. apply lookup_insert_eq.
Qed.

(** What the loop leaves at key [k]: the entry that was there with the
    matching occurrences appended, or a new entry made from the first
    matching occurrence and holding all of them. *)
Lemma foldl_addOccurrence_lookup (occs : list ColorOccur)
    (m : gmap string ColorEntry) (k : string) :
  foldl addOccurrence m occs !! k =
  match m !! k with
  | Some e =>
      Some (MkEntry (key e) (entryIsVar e) (entryName e) (entryValue e)
              (occurrences e ++ withKey k occs))
  | None =>
      match withKey k occs with
      | [] => None
      | o1 :: _ =>
          Some (MkEntry k (isVar o1) (occName o1) (occValue o1) (withKey k occs))
      end
  end.
Proof.
  revert m. induction occs as [|o occs IH]; intros m; simpl.
  - unfold withKey. simpl. destruct (m !! k) as [[? ? ? ? ?]|]; [|reflexivity].
    simpl. rewrite app_nil_r. reflexivity.
  - rewrite IH. unfold withKey. rewrite filter_cons.
    destruct (decide (makeColorKey o = k)) as [Heq|Hne].
    + subst k. destruct (m !! makeColorKey o) as [e|] eqn:He.
      * rewrite (addOccurrence_existing m o e He). simpl.
        rewrite <- app_assoc. reflexivity.
      * rewrite (addOccurrence_fresh m o He). simpl. reflexivity.
    + rewrite addOccurrence_other by congruence. reflexivity.
Qed.

Lemma aggregate_lookup (occByFile : list (list ColorOccur)) (k : string) :
  aggregate occByFile !! k =
  match withKey k (concat occByFile) with
  | [] => None
  | o1 :: _ =>
      Some (MkEntry k (isVar o1) (occName o1) (occValue o1)
              (withKey k (concat occByFile)))
  end.
Proof.
  unfold aggregate. rewrite foldl_addOccurrence_lookup, lookup_empty. reflexivity.
Qed.

Lemma aggregate_occurrences (occByFile : list (list ColorOccur)) (k : string)
    (e : ColorEntry) :
  aggregate occByFile !! k = Some e ->
  occurrences e = withKey k (concat occByFile).
Proof.
  rewrite aggregate_lookup.
  destruct (withKey k (concat occByFile)); [discriminate|].
  intros [= <-]. reflexivity.
Qed.

Lemma sharesEntry_iff (occByFile : list (list ColorOccur)) (o1 o2 : ColorOccur) :
  o1 ∈ concat occByFile -> o2 ∈ concat occByFile ->
  (sharesEntry (aggregate occByFile) o1 o2 <-> makeColorKey o1 = makeColorKey o2).
Proof.
  intros H1 H2. split.
  - intros (k & e & He & Ho1 & Ho2).
    rewrite (aggregate_occurrences _ _ _ He) in Ho1, Ho2.
    unfold withKey in *. apply list_elem_of_filter in Ho1, Ho2.
    destruct Ho1 as [-> _], Ho2 as [Hk _]. symmetry. exact Hk.
  - intros Heq.
    assert (Hin1 : o1 ∈ withKey (makeColorKey o1) (concat occByFile)).
    { apply list_elem_of_filter. split; [reflexivity | exact H1]. }
    assert (Hin2 : o2 ∈ withKey (makeColorKey o1) (concat occByFile)).
    { apply list_elem_of_filter. split; [symmetry; exact Heq | exact H2]. }
    pose proof (aggregate_lookup occByFile (makeColorKey o1)) as Hl.
    destruct (withKey (makeColorKey o1) (concat occByFile)) as [|o0 rest] eqn:Hw.
    + inversion Hin1.
    + eexists _, _. split; [exact Hl|]. simpl. split; assumption.
Qed.

(** C3: an occurrence whose key matches an existing entry is appended to
    that entry's list and nothing else changes; after the loop an entry
    holds exactly the occurrences of its key, all of them and in order; and
    [#FFF] on line 3 and [#fff] on line 9 of one file end in one entry of
    two occurrences. *)
Theorem aggregate_appends_occurrences :
  (forall (m : gmap string ColorEntry) (o : ColorOccur) (e : ColorEntry),
     m !! makeColorKey o = Some e ->
     addOccurrence m o !! makeColorKey o = Some (pushOccurrence e o) /\
     occurrences (pushOccurrence e o) = occurrences e ++ [o] /\
     forall k, k <> makeColorKey o -> addOccurrence m o !! k = m !! k)
  /\ (forall (occByFile : list (list ColorOccur)) (k : string) (e : ColorEntry),
        aggregate occByFile !! k = Some e ->
        occurrences e = filter (fun o => makeColorKey o = k) (concat occByFile))
  /\ (forall (occByFile : list (list ColorOccur)) (o : ColorOccur),
        o ∈ concat occByFile ->
        exists e, aggregate occByFile !! makeColorKey o = Some e /\ o ∈ occurrences e)
  /\ (forall findCssContext findJsxScopeAround findJsPropertyKeyBeforeCol table,
        let entries :=
          aggregate [scanTextForColorOccurrences findCssContext findJsxScopeAround
                       findJsPropertyKeyBeforeCol twoSpellings
                       (buildLineStartIndex twoSpellings) "a.css" table] in
        size entries = 1%nat /\
        ((fun e => map (fun o => (occValue o, line (occRange o))) (occurrences e))
           <$> (entries !! "lit:#fff")) = Some [("#FFF", 3); ("#fff", 9)]).
Proof.
  split; [|split; [|split]].
  - intros m o e He. split; [exact (addOccurrence_existing m o e He)|].
    split; [reflexivity|]. intros k Hk. exact (addOccurrence_other m o k Hk).
  - exact aggregate_occurrences.
  - intros occByFile o Ho.
    pose proof (aggregate_lookup occByFile (makeColorKey o)) as Hl.
    assert (Hin : o ∈ withKey (makeColorKey o) (concat occByFile)).
    { apply list_elem_of_filter. split; [reflexivity | exact Ho]. }
    destruct (withKey (makeColorKey o) (concat occByFile)) as [|o0 rest] eqn:Hw.
    + inversion Hin.
    + eexists. split; [exact Hl | exact Hin].
  - intros fc fj fp table. split; vm_compute; reflexivity.
Qed.

(** The third part at a concrete list of occurrences. *)
Lemma aggregate_appends_witness :
  exists e,
    aggregate [[OccLiteral "#FFF" "a.css" (MkRange 3 9 13) (MkUsage false None None 3);
                OccLiteral "#fff" "a.css" (MkRange 9 9 13) (MkUsage false None None 9)]]
      !! makeColorKey (OccLiteral "#fff" "a.css" (MkRange 9 9 13) (MkUsage false None None 9))
      = Some e /\
    OccLiteral "#fff" "a.css" (MkRange 9 9 13) (MkUsage false None None 9)
      ∈ occurrences e.
Proof.
  apply (proj1 (proj2 (proj2 aggregate_appends_occurrences))
           [[OccLiteral "#FFF" "a.css" (MkRange 3 9 13) (MkUsage false None None 3);
             OccLiteral "#fff" "a.css" (MkRange 9 9 13) (MkUsage false None None 9)]]).
  simpl. apply list_elem_of_In. simpl. right. left. reflexivity.
Defined.

Lemma sharesEntry_same_key (occByFile : list (list ColorOccur)) (o1 o2 : ColorOccur) :
  sharesEntry (aggregate occByFile) o1 o2 -> makeColorKey o1 = makeColorKey o2.
Proof.
  intros (k & e & He & Ho1 & Ho2).
  rewrite (aggregate_occurrences _ _ _ He) in Ho1, Ho2.
  unfold withKey in *. apply list_elem_of_filter in Ho1, Ho2.
  destruct Ho1 as [-> _], Ho2 as [Hk _]. symmetry. exact Hk.
Qed.

Lemma literal_key_inj (v1 f1 v2 f2 : string) (r1 r2 : HitRange) (u1 u2 : UsageInfo) :
  makeColorKey (OccLiteral v1 f1 r1 u1) = makeColorKey (OccLiteral v2 f2 r2 u2)
  <-> normalizeColorKey v1 = normalizeColorKey v2.
Proof.
  simpl. split; [intros [= H]; exact H | intros ->; reflexivity].
Qed.

(** C10: two literal occurrences of the scanned files lie in one entry
    exactly when [normalizeColorKey] gives their values the same key;
    [normalizeColorKey] trims, lowercases and removes all whitespace, and
    nothing more; the keys of [#fff] and [#ffffff] differ, so occurrences
    with these two values never lie in one entry. *)
Theorem literal_entries_by_normalized_value :
  (forall value : string,
     normalizeColorKey value = removeSpaces (toLowerCase (trim value)))
  /\ (forall (occByFile : list (list ColorOccur)) (v1 f1 v2 f2 : string)
          (r1 r2 : HitRange) (u1 u2 : UsageInfo),
     OccLiteral v1 f1 r1 u1 ∈ concat occByFile ->
     OccLiteral v2 f2 r2 u2 ∈ concat occByFile ->
     (sharesEntry (aggregate occByFile) (OccLiteral v1 f1 r1 u1) (OccLiteral v2 f2 r2 u2)
      <-> normalizeColorKey v1 = normalizeColorKey v2))
  /\ normalizeColorKey "#fff" = "#fff"
  /\ normalizeColorKey "#ffffff" = "#ffffff"
  /\ (forall (occByFile : list (list ColorOccur)) (f1 f2 : string)
             (r1 r2 : HitRange) (u1 u2 : UsageInfo),
        ~ sharesEntry (aggregate occByFile)
            (OccLiteral "#fff" f1 r1 u1) (OccLiteral "#ffffff" f2 r2 u2)).
Proof.
  split; [exact normalizeColorKey_spec|]. split; [|split; [|split]].
  - intros occByFile v1 f1 v2 f2 r1 r2 u1 u2 H1 H2.
    rewrite (sharesEntry_iff occByFile _ _ H1 H2). apply literal_key_inj.
  - reflexivity.
  - reflexivity.
  - intros occByFile f1 f2 r1 r2 u1 u2 Hshare.
    apply sharesEntry_same_key, literal_key_inj in Hshare.
    vm_compute in Hshare. discriminate.
Qed.

(** The second part at [#FFF] and [ #fff ], which lie in one entry. *)
Lemma literal_entries_witness :
  sharesEntry
    (aggregate [[OccLiteral "#FFF" "a.css" (MkRange 3 9 13) (MkUsage false None None 3)];
                [OccLiteral " #fff " "b.tsx" (MkRange 9 9 15) (MkUsage false None None 9)]])
    (OccLiteral "#FFF" "a.css" (MkRange 3 9 13) (MkUsage false None None 3))
    (OccLiteral " #fff " "b.tsx" (MkRange 9 9 15) (MkUsage false None None 9))
  <-> normalizeColorKey "#FFF" = normalizeColorKey " #fff ".
Proof.
  apply (proj1 (proj2 literal_entries_by_normalized_value)
           [[OccLiteral "#FFF" "a.css" (MkRange 3 9 13) (MkUsage false None None 3)];
            [OccLiteral " #fff " "b.tsx" (MkRange 9 9 15) (MkUsage false None None 9)]]).
  - simpl. apply list_elem_of_In. simpl. left. reflexivity.
  - simpl. apply list_elem_of_In. simpl. right. left. reflexivity.
Defined.

End AggregateFacts.

(** ** C5: unresolved variable references *)

Module ReferenceFacts.
Import Js RegExp LineIndex Imports Colors Rev3 VarTableFacts.

Section Scanner.
Context (findCssContext : string -> list Z -> Z -> option string * option string)
        (findJsxScopeAround : string -> list Z -> Z -> option string)
        (findJsPropertyKeyBeforeCol : string -> Z -> option string).

#[local] Abbreviation scan :=
  (scanTextForColorOccurrences findCssContext findJsxScopeAround
     findJsPropertyKeyBeforeCol).
#[local] Abbreviation refOccurrence :=
  (varRefOccurrence findCssContext findJsxScopeAround findJsPropertyKeyBeforeCol).

Lemma varRefOccurrence_unresolved (text : string) (lineStarts : list Z)
    (file : string) (table : gmap string string) (m : Match) :
  table !! groupText m 1 = None ->
  refOccurrence text lineStarts file table m = None.
Proof. intros Hn. unfold varRefOccurrence. rewrite Hn. reflexivity. Qed.

Lemma varRefOccurrence_resolved (text : string) (lineStarts : list Z)
    (file : string) (table : gmap string string) (m : Match) (o : ColorOccur) :
  refOccurrence text lineStarts file table m = Some o ->
  occName o = Some (groupText m 1) /\
  table !! groupText m 1 = Some (occValue o) /\
  isDefinition (occUsage o) = false.
Proof.
  unfold varRefOccurrence.
  destruct (table !! groupText m 1) as [resolved|]; [|discriminate].
  destruct (decide (resolved = "")); [discriminate|].
  intros [= <-]. simpl. auto.
Qed.

(** The occurrences of the scanner, by the loop that emits them. *)
Lemma scan_elem_of (text : string) (lineStarts : list Z) (file : string)
    (table : gmap string string) (o : ColorOccur) :
  o ∈ scan text lineStarts file table ->
  (isVar o = true /\ isDefinition (occUsage o) = true /\
   exists h, h ∈ varDefHits text /\ occName o = Some h.1.1.1) \/
  (exists m, m ∈ matchAll cssVarRefRegex text /\
             refOccurrence text lineStarts file table m = Some o) \/
  isVar o = false.
Proof.
  unfold scanTextForColorOccurrences.
  rewrite !elem_of_app. intros [Hd | [Hr | Hl]].
  - left. unfold varDefOccurrences in Hd.
    apply list_elem_of_fmap in Hd as (h & -> & Hh). simpl. eauto.
  - right. left. unfold varRefOccurrences in Hr.
    apply list_elem_of_omap in Hr as (m & Hm & Ho). eauto.
  - right. right.
    assert (Hlit : forall re, o ∈ literalOccurrences findCssContext findJsxScopeAround
                                   findJsPropertyKeyBeforeCol text lineStarts file re ->
                              isVar o = false).
    { intros re Hre. unfold literalOccurrences in Hre.
      apply list_elem_of_fmap in Hre as (m & -> & _). reflexivity. }
    destruct Hl as [Hl | [Hl | Hl]]; eapply Hlit; exact Hl.
Qed.

(** Every definition the scanner reports is one [scanVarDefinitions] finds. *)
Lemma varDefHits_defined (text : string) (h : string * string * Z * Z) :
  h ∈ varDefHits text ->
  exists d, d ∈ scanVarDefinitions text /\ defName d = h.1.1.1.
Proof.
  unfold varDefHits, scanVarDefinitions. intros Hh.
  apply list_elem_of_omap in Hh as (m & Hm & Hh).
  unfold varDefHit in Hh.
  destruct (decide (extractFirstColorToken (trim (groupText m 2)) = "")) as [|Hne] eqn:Hd;
    [discriminate|].
  destruct (indexOf _ (m_text m)); [|discriminate].
  injection Hh as <-. simpl.
  exists (MkVarDef ("--" +:+ groupText m 1)
            (extractFirstColorToken (trim (groupText m 2)))).
  split; [|reflexivity].
  apply list_elem_of_omap. exists m. split; [exact Hm|].
  simpl. rewrite Hd. reflexivity.
Qed.

Lemma firstDefinition_is_Some (n : string) (defs : list VarDef) (d : VarDef) :
  d ∈ defs -> defName d = n -> is_Some (firstDefinition n defs).
Proof.
  intros Hd Hn. unfold firstDefinition.
  destruct (List.find (fun d0 => bool_decide (defName d0 = n)) defs) as [d0|] eqn:Hf.
  - simpl. eauto.
  - exfalso. apply list_elem_of_In in Hd.
    pose proof (List.find_none _ _ Hf d Hd) as Hnone. simpl in Hnone.
    rewrite bool_decide_eq_true_2 in Hnone by exact Hn. discriminate.
Qed.

(** Every file that pass 2 scans was scanned for definitions in pass 1, so
    the table names every variable the file defines. *)
Lemma definitions_in_table (H : Host) (uris : list Uri) (uri : Uri)
    (text : string) (d : VarDef) :
  uri ∈ uris -> readFile H uri = Some text -> d ∈ scanVarDefinitions text ->
  is_Some (collectVarTable H uris !! defName d).
Proof.
  intros Huri Hread Hd.
  rewrite collectVarTable_lookup.
  eapply firstDefinition_is_Some; [|reflexivity].
  unfold allVarDefinitions. apply list_elem_of_In, in_concat.
  exists (scanVarDefinitions text). split.
  - apply in_map_iff. exists uri. rewrite Hread. split; [reflexivity|].
    apply list_elem_of_In. exact Huri.
  - apply list_elem_of_In. exact Hd.
Qed.

(** C5: a reference whose name the table does not hold yields no occurrence;
    every usage occurrence of a variable that the scanner emits has a name
    the table resolves, to the value the occurrence carries; and with the
    table that [render] builds over the scanned files, a name without an
    entry has no variable occurrence at all. *)
Theorem unresolved_reference_not_emitted :
  (forall text lineStarts file (table : gmap string string) (m : Match),
     table !! groupText m 1 = None ->
     refOccurrence text lineStarts file table m = None)
  /\ (forall text lineStarts file (table : gmap string string) (o : ColorOccur) (n : string),
        o ∈ scan text lineStarts file table ->
        occName o = Some n -> isDefinition (occUsage o) = false ->
        table !! n = Some (occValue o))
  /\ (forall (H : Host) (uris : list Uri) (uri : Uri) text lineStarts file
             (o : ColorOccur) (n : string),
        uri ∈ uris -> readFile H uri = Some text ->
        collectVarTable H uris !! n = None ->
        o ∈ scan text lineStarts file (collectVarTable H uris) ->
        occName o <> Some n)
  /\ (forall file,
        scan "a { color: var(--undefined-token); }"
          (buildLineStartIndex "a { color: var(--undefined-token); }") file ∅ = []).
Proof.
  split; [|split; [|split]]; [| | |intros file; vm_compute; reflexivity].
  - intros. apply varRefOccurrence_unresolved. assumption.
  - intros text lineStarts file table o n Ho Hn Hdef.
    apply scan_elem_of in Ho as [(_ & Hd & _) | [(m & _ & Hm) | Hlit]].
    + congruence.
    + apply varRefOccurrence_resolved in Hm as (Hname & Hval & _). congruence.
    + destruct o; simpl in *; congruence.
  - intros H uris uri text lineStarts file o n Huri Hread Hnone Ho Hn.
    apply scan_elem_of in Ho as [(_ & _ & h & Hh & Hname) | [(m & _ & Hm) | Hlit]].
    + apply varDefHits_defined in Hh as (d & Hd & Hdn).
      pose proof (definitions_in_table H uris uri text d Huri Hread Hd) as [v Hv].
      congruence.
    + apply varRefOccurrence_resolved in Hm as (Hname & Hval & _). congruence.
    + destruct o; simpl in *; congruence.
Qed.

End Scanner.

(** The first part at the match of [var(--undefined-token)] and the empty
    table. *)
Lemma unresolved_reference_witness :
  varRefOccurrence (fun _ _ _ => (None, None)) (fun _ _ _ => None) (fun _ _ => None)
    "a { color: var(--undefined-token); }"
    (buildLineStartIndex "a { color: var(--undefined-token); }") "a.css" ∅
    (MkMatch 11 "var(--undefined-token)" [(1%nat, "--undefined-token")]) = None.
Proof.
  apply (proj1 (unresolved_reference_not_emitted
                  (fun _ _ _ => (None, None)) (fun _ _ _ => None) (fun _ _ => None))).
  reflexivity.
Defined.

End ReferenceFacts.

(** ** C1 and C2: the traversal of the import graph *)

Module TraversalFacts.
Import Js RegExp Imports MemHost.

Section Traversal.
Context (H : Host) (wsRoot : Uri) (isFollowable : string -> ImportKind -> bool).

#[local] Abbreviation step := (loopStep H wsRoot isFollowable).
#[local] Abbreviation loop := (collectLoop H wsRoot isFollowable).
#[local] Abbreviation pushed := (pushedBy H wsRoot isFollowable).
#[local] Abbreviation run := (iterate H wsRoot isFollowable).
#[local] Abbreviation importEdge := (Imports.importEdge H wsRoot isFollowable).
#[local] Abbreviation inClosure := (Imports.inClosure H wsRoot isFollowable).
#[local] Abbreviation Inv := (Imports.Inv H wsRoot isFollowable).

(** The recursion of [collectLoop] is the iteration of [loopStep]. *)
Lemma collectLoop_unfold (maxFiles : nat) (st : LoopState) :
  loop maxFiles st =
  match step maxFiles st with
  | Some st' => loop maxFiles st'
  | None => st
  end.
Proof.
  funelim (collectLoop H wsRoot isFollowable maxFiles st); unfold loopStep; simpl;
    try reflexivity;
    destruct (Nat.ltb_spec (length o) maxFiles); try lia; try reflexivity;
    destruct (decide (uri ∈ vis)); try contradiction; reflexivity.
Qed.

(** Every iteration decreases [loopMeasure] in the lexicographic order. *)
Lemma loopStep_decreases (maxFiles : nat) (st st' : LoopState) :
  step maxFiles st = Some st' ->
  lexprod nat nat lt lt (loopMeasure maxFiles st') (loopMeasure maxFiles st).
Proof.
  unfold loopStep, loopMeasure.
  destruct st as [v q o sh]; simpl.
  destruct q as [|uri rest]; [discriminate|].
  destruct (Nat.ltb_spec (length o) maxFiles) as [Hlt|]; [|discriminate].
  destruct (decide (uri ∈ v)); intros [= <-]; simpl.
  - right. lia.
  - left. rewrite length_app. simpl. lia.
Qed.

(** An invariant of the iterations holds when the loop ends, and the loop
    ends in a state in which its condition fails. *)
Lemma collectLoop_invariant (maxFiles : nat) (P : LoopState -> Prop) :
  (forall st st', P st -> step maxFiles st = Some st' -> P st') ->
  forall st, P st ->
    P (loop maxFiles st) /\ step maxFiles (loop maxFiles st) = None.
Proof.
  intros Hstep st.
  induction st as [st IH] using
    (well_founded_induction
       (wf_inverse_image _ _ _ (loopMeasure maxFiles)
          (Subterm.wf_lexprod nat nat lt lt lt_wf lt_wf))).
  intros HP. rewrite collectLoop_unfold.
  destruct (step maxFiles st) as [st'|] eqn:Hs.
  - apply IH.
    + apply loopStep_decreases. exact Hs.
    + eapply Hstep; eassumption.
  - split; [exact HP | exact Hs].
Qed.


Lemma Inv_initial (root : Uri) (maxFiles : nat) :
  Inv root maxFiles (initialState root).
Proof.
  constructor; simpl.
  - constructor.
  - intros u. set_solver.
  - lia.
  - left. split; reflexivity.
  - intros u v Hu. inversion Hu.
  - intros u [Hu|Hu]; [inversion Hu|].
    apply list_elem_of_singleton in Hu as ->. apply rtc_refl.
  - intros u. reflexivity.
Qed.

Lemma Inv_step (root : Uri) (maxFiles : nat) (st st' : LoopState) :
  Inv root maxFiles st -> step maxFiles st = Some st' -> Inv root maxFiles st'.
Proof.
  intros [Hnd Hvis Hlen Hroot Hclosed Hreach Hsh].
  unfold loopStep. destruct st as [vis q o sh]; simpl in *.
  destruct q as [|uri rest]; [discriminate|].
  destruct (Nat.ltb_spec (length o) maxFiles) as [Hlt|]; [|discriminate].
  destruct (decide (uri ∈ vis)) as [Hin|Hnin]; intros [= <-]; constructor; simpl.
  - exact Hnd.
  - exact Hvis.
  - exact Hlen.
  - destruct Hroot as [[-> _]|Hroot]; [|right; exact Hroot].
    apply Hvis in Hin. inversion Hin.
  - intros u v Hu Hv. destruct (Hclosed u v Hu Hv) as [Ho|Hq]; [left; exact Ho|].
    apply elem_of_cons in Hq as [->|Hq]; [left; apply Hvis; exact Hin | right; exact Hq].
  - intros u [Hu|Hu]; apply Hreach; [left; exact Hu | right; right; exact Hu].
  - intros u. rewrite elem_of_app, list_elem_of_singleton, Hsh.
    split; [intros [Hu| ->]; [exact Hu | apply Hvis; exact Hin] | auto].
  - apply NoDup_app. split; [exact Hnd|]. split.
    + intros u Hu Hu'. apply list_elem_of_singleton in Hu' as ->.
      apply Hnin, Hvis, Hu.
    + apply NoDup_singleton.
  - intros u. rewrite elem_of_union, elem_of_singleton, elem_of_app,
      list_elem_of_singleton, Hvis. tauto.
  - rewrite length_app. simpl. lia.
  - right. destruct Hroot as [[-> Hq]|[o' ->]].
    + injection Hq as -> _. exists []. reflexivity.
    + exists (o' ++ [uri]). reflexivity.
  - intros u v Hu Hv. rewrite !elem_of_app, list_elem_of_singleton.
    apply elem_of_app in Hu as [Hu|Hu].
    + destruct (Hclosed u v Hu Hv) as [Ho|Hq]; [left; left; exact Ho|].
      apply elem_of_cons in Hq as [->|Hq]; [left; right; reflexivity | right; left; exact Hq].
    + apply list_elem_of_singleton in Hu as ->. right. right. exact Hv.
  - assert (Huri : inClosure root uri) by (apply Hreach; right; left).
    intros u. rewrite !elem_of_app, list_elem_of_singleton.
    intros [[Hu| ->]|[Hu|Hu]].
    + apply Hreach. left. exact Hu.
    + exact Huri.
    + apply Hreach. right. right. exact Hu.
    + eapply rtc_r; [exact Huri | exact Hu].
  - intros u. rewrite !elem_of_app, list_elem_of_singleton, Hsh. reflexivity.
Qed.

Lemma Inv_final (root : Uri) (maxFiles : nat) :
  Inv root maxFiles (loop maxFiles (initialState root)) /\
  step maxFiles (loop maxFiles (initialState root)) = None.
Proof.
  apply (collectLoop_invariant maxFiles (Inv root maxFiles)).
  - intros st st'. apply Inv_step.
  - apply Inv_initial.
Qed.

(** When the loop ends below the cap, the queue is empty and the result is
    the whole closure. *)
Lemma closure_visited (root : Uri) (maxFiles : nat) :
  (length (collectImportGraph H wsRoot isFollowable root maxFiles) < maxFiles)%nat ->
  forall u, inClosure root u ->
            u ∈ collectImportGraph H wsRoot isFollowable root maxFiles.
Proof.
  unfold collectImportGraph.
  destruct (Inv_final root maxFiles) as [[_ _ _ Hroot Hclosed _ _] Hend].
  destruct (loop maxFiles (initialState root)) as [vis q o sh]; simpl in *.
  intros Hlt. unfold loopStep in Hend. simpl in Hend.
  destruct q as [|uri rest].
  - destruct Hroot as [[_ Hq]|[o' ->]]; [discriminate|].
    intros u Hu. revert u Hu. apply rtc_ind_r.
    + left.
    + intros u v _ Huv IH.
      destruct (Hclosed u v IH Huv) as [Ho|Hq]; [exact Ho | inversion Hq].
  - destruct (Nat.ltb_spec (length o) maxFiles); [|lia].
    destruct (decide (uri ∈ vis)); discriminate.
Qed.

(** C2: with a cap of at least 1 the result starts with the root, has no
    duplicate, and has at most [maxFiles] entries; it has exactly [maxFiles]
    when more than [maxFiles] files are reachable along import edges. *)
Theorem collectImportGraph_capped (root : Uri) (maxFiles : nat) :
  (1 <= maxFiles)%nat ->
  (exists rest, collectImportGraph H wsRoot isFollowable root maxFiles = root :: rest)
  /\ NoDup (collectImportGraph H wsRoot isFollowable root maxFiles)
  /\ (length (collectImportGraph H wsRoot isFollowable root maxFiles) <= maxFiles)%nat
  /\ (forall u, u ∈ collectImportGraph H wsRoot isFollowable root maxFiles ->
                inClosure root u)
  /\ (forall files : list Uri,
        NoDup files -> (forall u, u ∈ files -> inClosure root u) ->
        (maxFiles < length files)%nat ->
        length (collectImportGraph H wsRoot isFollowable root maxFiles) = maxFiles).
Proof.
  intros Hcap.
  pose proof (closure_visited root maxFiles) as Hall.
  unfold collectImportGraph in *.
  destruct (Inv_final root maxFiles) as [[Hnd _ Hlen Hroot _ Hreach _] Hend].
  destruct (loop maxFiles (initialState root)) as [vis q o sh]; simpl in *.
  split; [|split; [exact Hnd | split; [exact Hlen | split]]].
  - destruct Hroot as [[-> ->]|Hroot]; [|exact Hroot].
    unfold loopStep in Hend. simpl in Hend.
    destruct (Nat.ltb_spec 0 maxFiles); [|lia].
    destruct (decide (root ∈ vis)); discriminate.
  - intros u Hu. apply Hreach. left. exact Hu.
  - intros files Hfiles Hin Hmore.
    destruct (Nat.lt_ge_cases (length o) maxFiles) as [Hlt|Hge]; [|lia].
    exfalso.
    assert (Hsub : files ⊆ o) by (intros u Hu; apply Hall; [exact Hlt | apply Hin, Hu]).
    pose proof (submseteq_length _ _ (NoDup_submseteq _ _ Hfiles Hsub)). lia.
Qed.




End Traversal.





Lemma fan_pushed :
  pushedBy fanHost "/w" Imports.isFollowable "/w/a.css"
  = ["/w/b.css"; "/w/c.css"; "/w/d.css"; "/w/b.css"; "/w/c.css"; "/w/d.css"].
Proof. vm_compute. reflexivity. Qed.

(** C2 at [fanHost], whose closure has four files, with a cap of 2: the
    result has two entries. *)
Lemma collectImportGraph_capped_witness :
  length (collectImportGraph fanHost "/w" Imports.isFollowable "/w/a.css" 2) = 2%nat.
Proof.
  apply (proj2 (proj2 (proj2 (proj2
           (collectImportGraph_capped fanHost "/w" Imports.isFollowable "/w/a.css" 2
              (le_S 1 1 (le_n 1))))))
           ["/w/a.css"; "/w/b.css"; "/w/c.css"]).
  - repeat constructor; intros Hin;
      repeat (apply elem_of_cons in Hin as [Hin|Hin]; [discriminate|]); inversion Hin.
  - intros u Hu.
    apply elem_of_cons in Hu as [->|Hu]; [apply rtc_refl|].
    apply rtc_once. unfold importEdge. rewrite fan_pushed.
    apply elem_of_cons in Hu as [->|Hu]; [left|].
    apply elem_of_cons in Hu as [->|Hu]; [right; left | inversion Hu].
  - simpl. lia.
Defined.

End TraversalFacts.

(** ** C8: theme tags *)

Module ThemeFacts.
Import Js RegExp LineIndex Imports Colors Rev2.

Lemma toLowerCase_app (a b : string) :
  toLowerCase (a +:+ b) = toLowerCase a +:+ toLowerCase b.
Proof. induction a as [|c a IH]; simpl; [reflexivity | rewrite IH; reflexivity]. Qed.

Lemma append_inv_head (a x y : string) : a +:+ x = a +:+ y -> x = y.
Proof. induction a as [|c a IH]; simpl; [auto | intros [= Heq]; auto]. Qed.

Lemma replicate_snoc_cons {A : Type} (n : nat) (x : A) (l : list A) :
  replicate n x ++ x :: l = replicate (S n) x ++ l.
Proof. induction n as [|n IH]; simpl; [reflexivity | rewrite IH; reflexivity]. Qed.

Lemma themeOfLines_app (stack : list (option ThemeTag)) (l1 l2 : list string) :
  themeOfLines stack (l1 ++ l2) =
  themeOfLines stack l1 ++ themeOfLines (stackAfter stack l1) l2.
Proof.
  revert stack. induction l1 as [|raw l1 IH]; intros stack; simpl; [reflexivity|].
  rewrite IH. reflexivity.
Qed.

Lemma themeOfLines_length (stack : list (option ThemeTag)) (lines : list string) :
  length (themeOfLines stack lines) = length lines.
Proof.
  revert stack. induction lines as [|raw l IH]; intros stack; simpl; [reflexivity|].
  rewrite IH. reflexivity.
Qed.

(** The tag of the line that follows [pre]. *)
Lemma themeOfLines_lookup (pre : list string) (l : string) (rest : list string) :
  themeOfLines [] (pre ++ l :: rest) !! length pre =
  Some (currentTheme (stackAfter [] pre)).
Proof.
  rewrite themeOfLines_app. rewrite lookup_app_r; rewrite themeOfLines_length; [|lia].
  rewrite Nat.sub_diag. reflexivity.
Qed.

Lemma currentTheme_markers (d : nat) (t : ThemeTag) (stack : list (option ThemeTag)) :
  currentTheme (replicate d None ++ Some t :: stack) = t.
Proof.
  unfold currentTheme. induction d as [|d IH]; simpl.
  - reflexivity.
  - destruct (list_find is_Some (replicate d None ++ Some t :: stack)) as [[i x]|];
      simpl in *; exact IH.
Qed.

Lemma currentTheme_no_tag (stack : list (option ThemeTag)) :
  Forall (fun m => m = None) stack -> currentTheme stack = Base.
Proof.
  unfold currentTheme. induction 1 as [|m stack -> _ IH]; simpl; [reflexivity|].
  destruct (list_find is_Some stack) as [[i x]|]; simpl in *; exact IH.
Qed.

(** A line that opens a brace under a trigger [t] and closes fewer braces
    than it opens leaves [t] on the stack, under the markers of its other
    open braces. *)
Lemma lineStep_trigger (stack : list (option ThemeTag)) (raw : string) (t : ThemeTag) :
  detectThemeTrigger (stripSameLineComments raw) = Some t ->
  (closesOf (stripSameLineComments raw) < opensOf (stripSameLineComments raw))%nat ->
  lineStep stack raw =
  replicate (opensOf (stripSameLineComments raw) - 1
             - closesOf (stripSameLineComments raw)) None ++ Some t :: stack.
Proof.
  intros Ht Hlt. unfold lineStep. rewrite Ht.
  destruct (opensOf (stripSameLineComments raw)) as [|o]; [lia|].
  unfold pushOpens, popCloses. simpl.
  rewrite drop_app_le by (rewrite length_replicate; lia).
  rewrite drop_replicate. replace (o - 0)%nat with o by lia. reflexivity.
Qed.

Lemma stackAfter_inside (body : list string) (d : nat) (t : ThemeTag)
    (stack : list (option ThemeTag)) :
  staysInside d body = true ->
  exists d', stackAfter (replicate d None ++ Some t :: stack) body =
             replicate d' None ++ Some t :: stack.
Proof.
  revert d. induction body as [|raw body IH]; intros d Hin; simpl in *.
  - exists d. reflexivity.
  - apply andb_true_iff in Hin as [Hin Hrest].
    apply andb_true_iff in Hin as [Hpush Hclose].
    apply Nat.leb_le in Hclose.
    set (l := stripSameLineComments raw) in *.
    assert (Hstep : lineStep (replicate d None ++ Some t :: stack) raw =
                    replicate (d + opensOf l - closesOf l) None ++ Some t :: stack).
    { unfold lineStep. fold l.
      assert (Hp : pushOpens (opensOf l) (detectThemeTrigger l)
                     (replicate d None ++ Some t :: stack) =
                   replicate (opensOf l + d) None ++ Some t :: stack).
      { unfold pushOpens. destruct (opensOf l) as [|o] eqn:Ho; [reflexivity|].
        simpl in Hpush. apply bool_decide_eq_true in Hpush. rewrite Hpush.
        rewrite replicate_snoc_cons, app_assoc, <- replicate_add.
        reflexivity. }
      rewrite Hp. unfold popCloses.
      rewrite drop_app_le by (rewrite length_replicate; lia).
      rewrite drop_replicate. f_equal. f_equal. lia. }
    unfold stackAfter in *. simpl. rewrite Hstep. apply IH. exact Hrest.
Qed.

(** A line inside a block opened under a trigger carries the trigger's
    tag. *)
Lemma theme_inside_block (pre : list string) (trig : string) (body : list string)
    (l : string) (rest : list string) (t : ThemeTag) :
  detectThemeTrigger (stripSameLineComments trig) = Some t ->
  (closesOf (stripSameLineComments trig) < opensOf (stripSameLineComments trig))%nat ->
  staysInside (opensOf (stripSameLineComments trig) - 1
               - closesOf (stripSameLineComments trig)) body = true ->
  themeOfLines [] (pre ++ trig :: body ++ l :: rest)
    !! (length pre + 1 + length body)%nat = Some t.
Proof.
  intros Ht Hlt Hin.
  replace (pre ++ trig :: body ++ l :: rest)
    with ((pre ++ trig :: body) ++ l :: rest)
    by (rewrite <- app_assoc; reflexivity).
  replace (length pre + 1 + length body)%nat with (length (pre ++ trig :: body))
    by (rewrite length_app; simpl; lia).
  rewrite themeOfLines_lookup. f_equal.
  unfold stackAfter. rewrite foldl_app. simpl.
  rewrite (lineStep_trigger _ trig t Ht Hlt).
  destruct (stackAfter_inside body _ t (foldl lineStep [] pre) Hin) as [d' Hd'].
  unfold stackAfter in Hd'. rewrite Hd'. apply currentTheme_markers.
Qed.

(** A variable hit on line [n] (1-based) carries the tag that
    [computeThemeByLine] gives line [n - 1]. *)
Lemma varHits_theme (text : string) (lineStarts : list Z) (file : string)
    (h : ColorHit) :
  h ∈ varHits text lineStarts file ->
  hitTheme h =
  Some (default Base (lookupZ (computeThemeByLine text) (line (hitRange h) - 1))).
Proof.
  unfold varHits. intros Hh. apply list_elem_of_omap in Hh as (m & _ & Hm).
  unfold varHit in Hm.
  destruct (decide (firstColorToken (trim (groupText m 2)) = "")); [discriminate|].
  destruct (indexOf _ (m_text m)); [|discriminate].
  injection Hm as <-. simpl. do 3 f_equal. lia.
Qed.

Lemma dedupStep_inv (d : Dedup) (h : ColorHit) :
  seenInv d ->
  seenInv (dedupStep d h) /\
  (forall m, m ∈ merged d -> m ∈ merged (dedupStep d h)) /\
  (isVarHit h = true -> dedupKey h ∈ varSeen (dedupStep d h)).
Proof.
  intros Hinv. unfold dedupStep.
  destruct h as [n v f r us t | v f r us].
  - destruct (decide (dedupKey (HitVar n v f r us t) ∈ varSeen d)) as [Hin|Hnin].
    + split; [exact Hinv|]. split; [auto|]. intros _. exact Hin.
    + split; [|split].
      * intros k. simpl. rewrite elem_of_union, elem_of_singleton, (Hinv k). split.
        -- intros [->|(m & Hm & Hv & Hk)].
           ++ eexists. split; [apply elem_of_app; right; left|]. split; reflexivity.
           ++ exists m. split; [apply elem_of_app; left; exact Hm|]. auto.
        -- intros (m & Hm & Hv & Hk). apply elem_of_app in Hm as [Hm|Hm].
           ++ right. eauto.
           ++ left. apply list_elem_of_singleton in Hm as ->. symmetry. exact Hk.
      * intros m Hm. simpl. apply elem_of_app. left. exact Hm.
      * intros _. simpl. apply elem_of_union. left. apply elem_of_singleton. reflexivity.
  - destruct (decide (dedupKey (HitLiteral v f r us) ∈ litSeen d)).
    + split; [exact Hinv|]. split; [auto | discriminate].
    + split; [|split; [|discriminate]].
      * intros k. simpl. rewrite (Hinv k). split.
        -- intros (m & Hm & Hv & Hk). exists m.
           split; [apply elem_of_app; left; exact Hm|]. auto.
        -- intros (m & Hm & Hv & Hk). apply elem_of_app in Hm as [Hm|Hm]; [eauto|].
           apply list_elem_of_singleton in Hm as ->. discriminate.
      * intros m Hm. simpl. apply elem_of_app. left. exact Hm.
Qed.

Lemma foldl_dedupStep_inv (hits : list ColorHit) (d : Dedup) :
  seenInv d ->
  seenInv (foldl dedupStep d hits) /\
  (forall k, k ∈ varSeen d -> k ∈ varSeen (foldl dedupStep d hits)) /\
  (forall h, h ∈ hits -> isVarHit h = true ->
             dedupKey h ∈ varSeen (foldl dedupStep d hits)).
Proof.
  revert d. induction hits as [|h hits IH]; intros d Hinv; simpl.
  - split; [exact Hinv|]. split; [auto|]. intros h Hh. inversion Hh.
  - destruct (dedupStep_inv d h Hinv) as (Hinv' & Hmono & Hh).
    destruct (IH _ Hinv') as (Hfinal & Hkeep & Hall).
    split; [exact Hfinal|]. split.
    + intros k Hk. apply Hkeep. apply Hinv'. apply Hinv in Hk as (m & Hm & Hv & Hkm).
      exists m. split; [apply Hmono; exact Hm|]. auto.
    + intros h' Hh' Hv. apply elem_of_cons in Hh' as [->|Hh'].
      * apply Hkeep, Hh, Hv.
      * apply Hall; assumption.
Qed.

(** Every variable hit has a hit of its key in [merged]. *)
Lemma dedupe_keeps_key (allHits : list ColorHit) (h : ColorHit) :
  h ∈ allHits -> isVarHit h = true ->
  exists m, m ∈ dedupe allHits /\ isVarHit m = true /\ dedupKey m = dedupKey h.
Proof.
  intros Hh Hv. unfold dedupe.
  assert (Hinit : seenInv (MkDedup ∅ ∅ [])).
  { intros k. simpl. split; [intros Hk; by apply not_elem_of_empty in Hk|].
    intros (m & Hm & _). inversion Hm. }
  destruct (foldl_dedupStep_inv allHits _ Hinit) as (Hfinal & _ & Hall).
  apply Hfinal, Hall; assumption.
Qed.

(** The key of a variable hit tagged dark differs from the key of a
    variable hit of the same file tagged base. *)
Lemma dedupKey_dark_base (file n1 v1 n2 v2 : string) (r1 r2 : HitRange)
    (us1 us2 : list UsageHit) :
  dedupKey (HitVar n1 v1 file r1 us1 Dark) <> dedupKey (HitVar n2 v2 file r2 us2 Base).
Proof.
  unfold dedupKey. simpl. rewrite !toLowerCase_app. intros Heq.
  apply append_inv_head in Heq.
  cbn [toLowerCase String.append themeString] in Heq.
  injection Heq as _ Hd _. vm_compute in Hd. discriminate Hd.
Qed.

(** Where the classifier does tell the themes apart.  A dark media query
    and a dark root attribute selector are dark triggers; a variable hit
    carries the tag of its line; a line after a trigger line that opens more
    braces than it closes, with the block still open, is tagged dark; a line
    reached with no tag on the stack is tagged base; the keys of a dark and
    a base hit of one file differ, so both have an entry after the
    de-duplication; and [themedSheet] gives one base and one dark entry for
    [--bg]. *)
Theorem theme_tags_split_entries :
  (detectThemeTrigger "@media (prefers-color-scheme: dark) {" = Some Dark /\
   detectThemeTrigger ":root[data-theme-mode='dark'] {" = Some Dark /\
   detectThemeTrigger ".card {" = None)
  /\ (forall text lineStarts file h,
     h ∈ varHits text lineStarts file ->
     hitTheme h =
     Some (default Base (lookupZ (computeThemeByLine text) (line (hitRange h) - 1))))
  /\ (forall (pre : list string) (trig : string) (body : list string) (l : string)
             (rest : list string),
        detectThemeTrigger (stripSameLineComments trig) = Some Dark ->
        (closesOf (stripSameLineComments trig) < opensOf (stripSameLineComments trig))%nat ->
        staysInside (opensOf (stripSameLineComments trig) - 1
                     - closesOf (stripSameLineComments trig)) body = true ->
        themeOfLines [] (pre ++ trig :: body ++ l :: rest)
          !! (length pre + 1 + length body)%nat = Some Dark)
  /\ (forall (pre : list string) (l : string) (rest : list string),
        Forall (fun m => m = None) (stackAfter [] pre) ->
        themeOfLines [] (pre ++ l :: rest) !! length pre = Some Base)
  /\ (forall (allHits : list ColorHit) (file n1 v1 n2 v2 : string)
             (r1 r2 : HitRange) (us1 us2 : list UsageHit),
        HitVar n1 v1 file r1 us1 Dark ∈ allHits ->
        HitVar n2 v2 file r2 us2 Base ∈ allHits ->
        exists m1 m2,
          m1 ∈ dedupe allHits /\ m2 ∈ dedupe allHits /\ m1 <> m2 /\
          dedupKey m1 = dedupKey (HitVar n1 v1 file r1 us1 Dark) /\
          dedupKey m2 = dedupKey (HitVar n2 v2 file r2 us2 Base))
  /\ (forall usagesOf,
        map (fun h => (hitName h, hitValue h, line (hitRange h), hitTheme h))
            (dedupe (scanTextForColorsAndUsages themedSheet
                       (buildLineStartIndex themedSheet) "theme.css" usagesOf))
        = [(Some "--bg", "#ffffff", 2, Some Base);
           (Some "--bg", "#000000", 6, Some Dark)]).
Proof.
  split; [repeat split; vm_compute; reflexivity|].
  split; [exact varHits_theme|]. split; [|split; [|split]].
  - intros pre trig body l rest. apply theme_inside_block.
  - intros pre l rest Hno. rewrite themeOfLines_lookup.
    rewrite (currentTheme_no_tag _ Hno). reflexivity.
  - intros allHits file n1 v1 n2 v2 r1 r2 us1 us2 H1 H2.
    destruct (dedupe_keeps_key allHits _ H1 eq_refl) as (m1 & Hm1 & _ & Hk1).
    destruct (dedupe_keeps_key allHits _ H2 eq_refl) as (m2 & Hm2 & _ & Hk2).
    exists m1, m2. repeat split; try assumption.
    intros ->. apply (dedupKey_dark_base file n1 v1 n2 v2 r1 r2 us1 us2). congruence.
  - intros usagesOf. vm_compute. reflexivity.
Qed.

(** The third part at the lines of [themedSheet]: line 6 lies inside the
    block that line 4 opens. *)
Lemma theme_tags_witness :
  themeOfLines []
    ([":root {"; "  --bg: #ffffff;"; "}"] ++
     "@media (prefers-color-scheme: dark) {" ::
     ["  :root {"] ++ "    --bg: #000000;" :: ["  }"; "}"])
    !! (length [":root {"; "  --bg: #ffffff;"; "}"] + 1 + length ["  :root {"])%nat
  = Some Dark.
Proof.
  apply (proj1 (proj2 (proj2 theme_tags_split_entries))
           [":root {"; "  --bg: #ffffff;"; "}"]
           "@media (prefers-color-scheme: dark) {" ["  :root {"]
           "    --bg: #000000;" ["  }"; "}"]).
  - vm_compute. reflexivity.
  - vm_compute. lia.
  - vm_compute. reflexivity.
Defined.

(** C8: the loop of [computeThemeByLine] tags a line before it reads the
    line's braces, and on each line pushes for every opening brace before it
    pops for any closing one, wherever the braces stand in the line.  So in
    [reopenedSheet], whose trigger line first closes the rule before it, the
    tag that the trigger pushes is popped on the same line, and in
    [oneLineSheet] the whole dark block lies on the trigger line.  In both
    the trigger is detected, yet every line is tagged base: the definition
    of [--bg] inside the dark block carries the base tag and the key of the
    top-level definition, and the de-duplication keeps one entry for the
    two. *)
Theorem dark_block_tagged_base :
  detectThemeTrigger
    (stripSameLineComments "} @media (prefers-color-scheme: dark) {") = Some Dark
  /\ detectThemeTrigger
       (stripSameLineComments
          "@media (prefers-color-scheme: dark) { :root { --bg: #ffffff; } }") = Some Dark
  /\ computeThemeByLine reopenedSheet = [Base; Base; Base; Base; Base; Base]
  /\ computeThemeByLine oneLineSheet = [Base; Base]
  /\ (forall usagesOf,
        map (fun h => (hitName h, hitValue h, line (hitRange h), hitTheme h))
            (scanTextForColorsAndUsages reopenedSheet
               (buildLineStartIndex reopenedSheet) "theme.css" usagesOf)
        = [(Some "--bg", "#ffffff", 1, Some Base);
           (Some "--bg", "#ffffff", 5, Some Base)])
  /\ (forall usagesOf,
        map (fun h => (hitName h, hitValue h, line (hitRange h), hitTheme h))
            (dedupe (scanTextForColorsAndUsages reopenedSheet
                       (buildLineStartIndex reopenedSheet) "theme.css" usagesOf))
        = [(Some "--bg", "#ffffff", 1, Some Base)])
  /\ (forall usagesOf,
        map (fun h => (hitName h, hitValue h, line (hitRange h), hitTheme h))
            (dedupe (scanTextForColorsAndUsages oneLineSheet
                       (buildLineStartIndex oneLineSheet) "theme.css" usagesOf))
        = [(Some "--bg", "#ffffff", 1, Some Base)]).
Proof.
  repeat split; try (intros usagesOf); vm_compute; reflexivity.
Qed.

End ThemeFacts.

(** ** C6: exclusion spans *)

Module ExclusionFacts.
Import Js RegExp LineIndex Imports Colors Rev3 RegExpFacts LineIndexFacts.

Lemma prefix_length (p s : string) :
  String.prefix p s = true -> (String.length p <= String.length s)%nat.
Proof.
  revert s. induction p as [|c p IH]; intros s Hp; simpl; [lia|].
  destruct s as [|d s]; simpl in *; [discriminate|].
  destruct (ascii_dec c d); [|discriminate].
  specialize (IH s Hp). lia.
Qed.

(** [whole.indexOf(value)] leaves room for [value] in [whole]. *)
Lemma indexOf_bound (value whole : string) (i : nat) :
  indexOf value whole = Some i ->
  (i + String.length value <= String.length whole)%nat.
Proof.
  revert i. induction whole as [|c tl IH]; intros i.
  - change (indexOf value "")
      with (if String.prefix value "" then Some O else None).
    destruct (String.prefix value "") eqn:Hp; [|discriminate].
    intros [= <-]. apply prefix_length in Hp. simpl in *. lia.
  - change (indexOf value (String c tl))
      with (if String.prefix value (String c tl) then Some O
            else S <$> indexOf value tl).
    destruct (String.prefix value (String c tl)) eqn:Hp.
    + intros [= <-]. apply prefix_length in Hp. simpl in *. lia.
    + destruct (indexOf value tl) as [j|]; [|discriminate].
      intros [= <-]. specialize (IH j eq_refl). simpl. lia.
Qed.

(** The span loop 1 records of a match lies inside the match and is not
    empty. *)
Lemma varDefHit_span (m : Match) (h : string * string * Z * Z) :
  varDefHit m = Some h ->
  Z.of_nat (m_index m) <= h.1.2 /\ h.1.2 < h.2 /\ h.2 <= Z.of_nat (m_end m).
Proof.
  unfold varDefHit.
  destruct (decide (extractFirstColorToken (trim (groupText m 2)) = "")) as [|Hne];
    [discriminate|].
  destruct (indexOf _ (m_text m)) as [inner|] eqn:Hi; [|discriminate].
  intros [= <-]. simpl. apply indexOf_bound in Hi.
  assert (1 <= String.length (extractFirstColorToken (trim (groupText m 2))))%nat.
  { destruct (extractFirstColorToken (trim (groupText m 2))); [congruence | simpl; lia]. }
  unfold m_end. lia.
Qed.

Lemma sorted_omap {A B : Type} (R : A -> A -> Prop) (R' : B -> B -> Prop)
    (f : A -> option B) (l : list A) :
  (forall a b a' b', R a b -> f a = Some a' -> f b = Some b' -> R' a' b') ->
  StronglySorted R l -> StronglySorted R' (omap f l).
Proof.
  intros Hrel. induction 1 as [|a l Hs IH Hall]; simpl; [constructor|].
  destruct (f a) as [a'|] eqn:Ha; [|exact IH].
  constructor; [exact IH|].
  apply Forall_forall. intros b' Hb'.
  apply list_elem_of_omap in Hb' as (b & Hb & Hfb).
  rewrite Forall_forall in Hall. eapply Hrel; [apply Hall, Hb | exact Ha | exact Hfb].
Qed.

Lemma map_omap {A B C : Type} (g : B -> C) (f : A -> option B) (l : list A) :
  map g (omap f l) = omap (fun x => g <$> f x) l.
Proof.
  induction l as [|a l IH]; simpl; [reflexivity|].
  destruct (f a); simpl; [f_equal; exact IH | exact IH].
Qed.

(** The spans are in order, apart from each other and not empty. *)
Lemma defSpans_sorted (text : string) :
  StronglySorted (fun a b => spanEnd a <= spanStart b) (defSpans text) /\
  Forall (fun a => spanStart a < spanEnd a) (defSpans text).
Proof.
  unfold defSpans, varDefHits. rewrite map_omap.
  destruct (matchAll_spec cssVarDefRegex text) as [_ Hsorted].
  split.
  - eapply sorted_omap; [|exact Hsorted]. simpl.
    intros a b a' b' Hab Ha Hb.
    destruct (varDefHit a) as [ha|] eqn:Hha; [|discriminate].
    destruct (varDefHit b) as [hb|] eqn:Hhb; [|discriminate].
    injection Ha as <-. injection Hb as <-. simpl.
    apply varDefHit_span in Hha, Hhb. lia.
  - apply Forall_forall. intros sp Hsp.
    apply list_elem_of_omap in Hsp as (m & _ & Hm).
    destruct (varDefHit m) as [h|] eqn:Hh; [|discriminate].
    injection Hm as <-. simpl. apply varDefHit_span in Hh. lia.
Qed.

Lemma insertSpan_last (s : Span) (acc : list Span) :
  Forall (fun h => spanStart h <= spanStart s) acc ->
  insertSpan s acc = acc ++ [s].
Proof.
  induction 1 as [|h acc Hh _ IH]; simpl; [reflexivity|].
  destruct (Z.ltb_spec (spanStart s) (spanStart h)); [lia|].
  rewrite IH. reflexivity.
Qed.

Lemma sorted_app_head (l1 : list Span) (s : Span) (l2 : list Span) :
  StronglySorted (fun a b => spanStart a <= spanStart b) (l1 ++ s :: l2) ->
  Forall (fun h => spanStart h <= spanStart s) l1.
Proof.
  induction l1 as [|h l1 IH]; simpl; intros Hs; [constructor|].
  apply StronglySorted_inv in Hs as [Hs Hall].
  constructor; [|apply IH, Hs].
  rewrite Forall_forall in Hall. apply Hall. apply elem_of_app. right. left.
Qed.

Lemma foldl_insertSpan_sorted (l acc : list Span) :
  StronglySorted (fun a b => spanStart a <= spanStart b) (acc ++ l) ->
  foldl (fun a s => insertSpan s a) acc l = acc ++ l.
Proof.
  revert acc. induction l as [|s l IH]; intros acc Hs; simpl.
  - rewrite app_nil_r. reflexivity.
  - rewrite (insertSpan_last s acc (sorted_app_head acc s l Hs)).
    rewrite IH; rewrite <- app_assoc; [reflexivity | exact Hs].
Qed.

(** The sort leaves the spans as loop 1 recorded them. *)
Lemma excludeSpansOf_defSpans (text : string) : excludeSpansOf text = defSpans text.
Proof.
  unfold excludeSpansOf, sortSpans. fold spanOfHit. fold (defSpans text).
  apply (foldl_insertSpan_sorted (defSpans text) []). simpl.
  destruct (defSpans_sorted text) as [Hsorted Hne].
  induction Hsorted as [|a l Hs IH Hall]; [constructor|].
  apply Forall_cons in Hne as [Ha Hne].
  constructor; [apply IH, Hne|].
  rewrite Forall_forall in *. intros b Hb.
  specialize (Hall b Hb). lia.
Qed.

Lemma sorted_nth_rel {A : Type} (R : A -> A -> Prop) (d : A) (l : list A) :
  StronglySorted R l ->
  forall i j, (i < j)%nat -> (j < length l)%nat -> R (nth i l d) (nth j l d).
Proof.
  induction 1 as [|a l Hs IH Hall]; intros i j Hij Hj; simpl in Hj; [lia|].
  destruct j as [|j]; [lia|].
  destruct i as [|i]; simpl.
  - rewrite Forall_forall in Hall. apply Hall, list_elem_of_In, nth_In. lia.
  - apply IH; lia.
Qed.

(** Over spans in order and apart, [isExcluded] answers true for every
    non-empty range that lies inside one of them. *)
Lemma isExcluded_contained (spans : list Span) (x y : Z) (sp : Span) :
  StronglySorted (fun a b => spanEnd a <= spanStart b) spans ->
  Forall (fun a => spanStart a < spanEnd a) spans ->
  sp ∈ spans -> spanStart sp <= x -> y <= spanEnd sp -> x < y ->
  isExcluded spans x y = true.
Proof.
  intros Hsorted Hne Hsp Hx Hy Hxy.
  set (d := MkSpan 0 0).
  set (n := Z.of_nat (length spans)).
  set (f := fun i : Z => spanStart (nth (Z.to_nat i) spans d)).
  assert (Hnth : forall i, 0 <= i < n -> lookupZ spans i = Some (nth (Z.to_nat i) spans d)).
  { intros i Hi. apply lookupZ_Some. split; [lia|].
    destruct (spans !! Z.to_nat i) as [a|] eqn:Hl.
    - rewrite (nth_lookup_Some spans (Z.to_nat i) d a Hl). reflexivity.
    - apply lookup_ge_None in Hl. lia. }
  assert (Hkey : forall i, 0 <= i < n ->
                   spanStart <$> lookupZ spans i = Some (f i)).
  { intros i Hi. rewrite (Hnth i Hi). reflexivity. }
  assert (Hstrict : forall i j, 0 <= i -> i < j -> j < n ->
                      spanEnd (nth (Z.to_nat i) spans d)
                      <= spanStart (nth (Z.to_nat j) spans d)).
  { intros i j Hi Hij Hj.
    apply (sorted_nth_rel _ d spans Hsorted (Z.to_nat i) (Z.to_nat j)); lia. }
  assert (Hpos : forall i, 0 <= i < n ->
                   spanStart (nth (Z.to_nat i) spans d) < spanEnd (nth (Z.to_nat i) spans d)).
  { intros i Hi. rewrite Forall_forall in Hne. apply Hne, list_elem_of_In, nth_In. lia. }
  assert (Hmono : forall i j, 0 <= i -> i <= j -> j < n -> f i <= f j).
  { intros i j Hi Hij Hj. unfold f.
    destruct (Z.eq_dec i j) as [->|Hne']; [lia|].
    pose proof (Hstrict i j Hi ltac:(lia) Hj). pose proof (Hpos i ltac:(lia)). lia. }
  apply list_elem_of_In, (In_nth _ _ d) in Hsp as (j & Hj & Hjsp).
  pose proof (bsearchLast_spec _ f n x Hkey Hmono 0 (n - 1) (-1) ltac:(lia) ltac:(lia))
    as Hspec.
  unfold isExcluded. fold n.
  set (idx := bsearchLast (fun mid => spanStart <$> lookupZ spans mid) x 0 (n - 1) (-1)) in *.
  assert (Hfj : f (Z.of_nat j) <= x).
  { unfold f. rewrite Nat2Z.id, Hjsp. exact Hx. }
  destruct Hspec as [[_ Hall] | (Hidx & Hfidx & Hall)].
  { specialize (Hall (Z.of_nat j) ltac:(lia)). lia. }
  assert (Hje : idx = Z.of_nat j).
  { destruct (Z.lt_trichotomy idx (Z.of_nat j)) as [Hlt | [Heq | Hgt]].
    - specialize (Hall (Z.of_nat j) ltac:(lia)). lia.
    - exact Heq.
    - pose proof (Hstrict (Z.of_nat j) idx ltac:(lia) Hgt ltac:(lia)) as Hend.
      rewrite Nat2Z.id, Hjsp in Hend. unfold f in Hfidx. lia. }
  destruct (Z.ltb_spec idx 0); [lia|].
  rewrite (Hnth idx ltac:(lia)), Hje, Nat2Z.id, Hjsp.
  apply andb_true_iff. split; apply Z.ltb_lt; lia.
Qed.

Lemma literal_match_nonempty (re : regex) (text : string) (m : Match) :
  re ∈ literalGrammars -> m ∈ matchAll re text ->
  (1 <= String.length (m_text m))%nat.
Proof.
  intros Hre Hm.
  destruct (matchAll_spec re text) as [Hall _].
  rewrite Forall_forall in Hall. destruct (Hall m Hm) as [_ Hmin].
  assert (Hlen : (1 <= minLen re)%nat).
  { unfold literalGrammars in Hre.
    repeat (apply elem_of_cons in Hre as [->|Hre]; [vm_compute; lia|]).
    inversion Hre. }
  lia.
Qed.

Section Scanner.
Context (findCssContext : string -> list Z -> Z -> option string * option string)
        (findJsxScopeAround : string -> list Z -> Z -> option string)
        (findJsPropertyKeyBeforeCol : string -> Z -> option string).

#[local] Abbreviation scan :=
  (scanTextForColorOccurrences findCssContext findJsxScopeAround
     findJsPropertyKeyBeforeCol).
#[local] Abbreviation literalOcc :=
  (literalOccurrence findCssContext findJsxScopeAround findJsPropertyKeyBeforeCol).

(** C6: a literal match inside the span recorded for the value of a
    variable definition is excluded by the binary search and is not kept by
    the literal loops; every literal occurrence of the scanner comes from a
    match that lies in no such span; and in [borderSheet] the value of the
    definition gives a variable occurrence only. *)
Theorem literal_in_definition_skipped (text : string) (lineStarts : list Z)
    (file : string) (table : gmap string string) :
  (forall (re : regex) (m : Match) (h : string * string * Z * Z),
     re ∈ literalGrammars -> m ∈ matchAll re text -> h ∈ varDefHits text ->
     h.1.2 <= Z.of_nat (m_index m) -> Z.of_nat (m_end m) <= h.2 ->
     MkSpan h.1.2 h.2 ∈ excludeSpansOf text /\
     isExcluded (excludeSpansOf text) (Z.of_nat (m_index m))
       (Z.of_nat (m_index m) + Z.of_nat (String.length (m_text m))) = true /\
     m ∉ literalMatches text re)
  /\ (forall o : ColorOccur,
        o ∈ scan text lineStarts file table -> isVar o = false ->
        exists re m,
          re ∈ literalGrammars /\ m ∈ matchAll re text /\
          o = literalOcc text lineStarts file m /\
          forall h, h ∈ varDefHits text ->
                    ~ (h.1.2 <= Z.of_nat (m_index m) /\ Z.of_nat (m_end m) <= h.2))
  /\ map (fun o => (isVar o, occValue o, line (occRange o), startCol (occRange o)))
         (scan borderSheet (buildLineStartIndex borderSheet) file table)
     = [(true, "#aabbcc", 1, 18); (false, "#aabbcc", 2, 15)].
Proof.
  assert (Hskip : forall (re : regex) (m : Match) (h : string * string * Z * Z),
     re ∈ literalGrammars -> m ∈ matchAll re text -> h ∈ varDefHits text ->
     h.1.2 <= Z.of_nat (m_index m) -> Z.of_nat (m_end m) <= h.2 ->
     MkSpan h.1.2 h.2 ∈ excludeSpansOf text /\
     isExcluded (excludeSpansOf text) (Z.of_nat (m_index m))
       (Z.of_nat (m_index m) + Z.of_nat (String.length (m_text m))) = true).
  { intros re m h Hre Hm Hh Hstart Hend.
    pose proof (literal_match_nonempty re text m Hre Hm) as Hlen.
    destruct (defSpans_sorted text) as [Hsorted Hne].
    assert (Hsp : spanOfHit h ∈ defSpans text).
    { unfold defSpans. apply list_elem_of_fmap. exists h. split; [reflexivity | exact Hh]. }
    rewrite excludeSpansOf_defSpans. split; [exact Hsp|].
    apply (isExcluded_contained _ _ _ (spanOfHit h) Hsorted Hne Hsp); simpl;
      unfold m_end in *; lia. }
  split; [|split].
  - intros re m h Hre Hm Hh Hstart Hend.
    destruct (Hskip re m h Hre Hm Hh Hstart Hend) as [Hin Hex].
    split; [exact Hin|]. split; [exact Hex|].
    unfold literalMatches. intros Hkept.
    apply list_elem_of_filter in Hkept as [Hfalse _]. congruence.
  - intros o Ho Hlit. unfold scanTextForColorOccurrences in Ho.
    rewrite !elem_of_app in Ho.
    assert (Hfrom : forall re, re ∈ literalGrammars ->
              o ∈ literalOccurrences findCssContext findJsxScopeAround
                    findJsPropertyKeyBeforeCol text lineStarts file re ->
              exists re m,
                re ∈ literalGrammars /\ m ∈ matchAll re text /\
                o = literalOcc text lineStarts file m /\
                forall h, h ∈ varDefHits text ->
                  ~ (h.1.2 <= Z.of_nat (m_index m) /\ Z.of_nat (m_end m) <= h.2)).
    { intros re Hre Hin. unfold literalOccurrences in Hin.
      apply list_elem_of_fmap in Hin as (m & -> & Hm).
      unfold literalMatches in Hm. apply list_elem_of_filter in Hm as [Hfalse Hm].
      exists re, m. split; [exact Hre|]. split; [exact Hm|]. split; [reflexivity|].
      intros h Hh [Hstart Hend].
      destruct (Hskip re m h Hre Hm Hh Hstart Hend) as [_ Htrue]. congruence. }
    destruct Ho as [Hd | [Hr | [Hl | [Hl | Hl]]]].
    + unfold varDefOccurrences in Hd.
      apply list_elem_of_fmap in Hd as (h & -> & _). discriminate.
    + unfold varRefOccurrences in Hr.
      apply list_elem_of_omap in Hr as (m & _ & Hm). unfold varRefOccurrence in Hm.
      destruct (table !! groupText m 1) as [v|]; [|discriminate].
      destruct (decide (v = "")); [discriminate|].
      injection Hm as <-. discriminate.
    + apply (Hfrom hexRegex); [left | exact Hl].
    + apply (Hfrom rgbRegex); [right; left | exact Hl].
    + apply (Hfrom hslRegex); [right; right; left | exact Hl].
  - vm_compute. reflexivity.
Qed.

End Scanner.

(** The first part at [borderSheet]: the match of [hexRegex] at offset 18
    lies in the span of the definition of [--border]. *)
Lemma literal_in_definition_witness :
  MkSpan 18 25 ∈ excludeSpansOf borderSheet /\
  isExcluded (excludeSpansOf borderSheet) 18 (18 + 7) = true /\
  MkMatch 18 "#aabbcc" [] ∉ literalMatches borderSheet hexRegex.
Proof.
  apply (proj1 (literal_in_definition_skipped
                  (fun _ _ _ => (None, None)) (fun _ _ _ => None) (fun _ _ => None)
                  borderSheet (buildLineStartIndex borderSheet) "a.css" ∅)
           hexRegex (MkMatch 18 "#aabbcc" []) ("--border", "#aabbcc", 18, 25)).
  - left.
  - vm_compute. left.
  - vm_compute. left.
  - simpl. lia.
  - vm_compute. discriminate.
Defined.

End ExclusionFacts.

(** ** Lines, columns and line texts *)

Module LineTextFacts.
Import Js RegExp LineIndex LineText LineIndexFacts RegExpFacts NormalizeFacts.

Lemma code_LF (c : ascii) : (code c =? 10)%N = true <-> c = LF.
Proof.
  rewrite N.eqb_eq. split; [|intros ->; reflexivity].
  intros Hc. rewrite <- (ascii_N_embedding c). unfold code in Hc. rewrite Hc. reflexivity.
Qed.

(** The search returns [ans] or an index it probed. *)
Lemma bsearchLast_range (key : Z -> option Z) (x lo hi ans : Z) :
  bsearchLast key x lo hi ans = ans \/ lo <= bsearchLast key x lo hi ans <= hi.
Proof.
  funelim (bsearchLast key x lo hi ans); [|left; reflexivity].
  clear Heqcall Heq. pose proof (shiftr1_bounds lo hi l) as Hmid.
  destruct (leDefined (key (Z.shiftr (lo + hi) 1)) x).
  - destruct H as [-> | ?]; right; lia.
  - destruct H0 as [-> | ?]; [left; reflexivity | right; lia].
Qed.

Lemma lineStartsFrom_le (text : string) (i : Z) :
  Forall (fun s => s <= i + Z.of_nat (String.length text)) (lineStartsFrom i text).
Proof.
  revert i. induction text as [|c tl IH]; intros i; simpl; [constructor|].
  assert (Htl : Forall (fun s => s <= i + Z.pos (Pos.of_succ_nat (String.length tl)))
                  (lineStartsFrom (i + 1) tl)).
  { eapply Forall_impl; [apply IH|]. simpl. intros. lia. }
  destruct (code c =? 10)%N; [constructor; [lia | exact Htl] | exact Htl].
Qed.

Lemma lineStartsFrom_length (text : string) (i : Z) :
  length (lineStartsFrom i text) = countLF text.
Proof.
  revert i. induction text as [|c tl IH]; intros i; simpl; [reflexivity|].
  destruct (code c =? 10)%N; simpl; rewrite IH; reflexivity.
Qed.

Lemma lineStartsFrom_elem (text : string) (i k : Z) :
  k ∈ lineStartsFrom i text <->
  i < k /\ String.get (Z.to_nat (k - i - 1)) text = Some LF.
Proof.
  revert i. induction text as [|c tl IH]; intros i; simpl.
  - split; [intros Hk; inversion Hk | intros [_ Hk]; discriminate].
  - assert (Hrec : k ∈ lineStartsFrom (i + 1) tl <->
                   i + 1 < k /\ String.get (Z.to_nat (k - i - 1)) (String c tl) = Some LF).
    { rewrite IH. split; intros [Hlt Hget]; (split; [exact Hlt|]).
      - replace (Z.to_nat (k - i - 1)) with (S (Z.to_nat (k - (i + 1) - 1))) by lia.
        exact Hget.
      - replace (Z.to_nat (k - i - 1)) with (S (Z.to_nat (k - (i + 1) - 1))) in Hget by lia.
        exact Hget. }
    destruct (code c =? 10)%N eqn:Hc.
    + apply code_LF in Hc. subst c. rewrite elem_of_cons, Hrec. split.
      * intros [-> | [Hlt Hget]]; [|split; [lia | exact Hget]].
        split; [lia|]. replace (i + 1 - i - 1) with 0 by lia. reflexivity.
      * intros [Hlt Hget]. destruct (Z.eq_dec k (i + 1)) as [->|Hne]; [left; reflexivity|].
        right. split; [lia | exact Hget].
    + rewrite Hrec. split; [intros [Hlt Hget]; split; [lia | exact Hget]|].
      intros [Hlt Hget]. destruct (Z.eq_dec k (i + 1)) as [->|Hne]; [|split; [lia | exact Hget]].
      replace (i + 1 - i - 1) with 0 in Hget by lia. simpl in Hget.
      injection Hget as ->. discriminate Hc.
Qed.

Lemma sorted_nth_lt (l : list Z) :
  StronglySorted Z.lt l ->
  forall i j, (i < j)%nat -> (j < length l)%nat -> nth i l 0 < nth j l 0.
Proof.
  induction 1 as [|a l Hs IH Hall]; intros i j Hij Hj; simpl in Hj; [lia|].
  destruct j as [|j]; [lia|].
  destruct i as [|i]; simpl.
  - rewrite Forall_forall in Hall. apply Hall, list_elem_of_In, nth_In. lia.
  - apply IH; lia.
Qed.

(** What the search of [offsetToLine0] finds in the index built from a
    text. *)
Lemma offsetToLine0_built (text : string) (n : Z) :
  0 <= n ->
  0 <= offsetToLine0 (buildLineStartIndex text) n
    < Z.of_nat (length (buildLineStartIndex text)) /\
  nth (Z.to_nat (offsetToLine0 (buildLineStartIndex text) n))
      (buildLineStartIndex text) 0 <= n /\
  forall i, offsetToLine0 (buildLineStartIndex text) n < i
              < Z.of_nat (length (buildLineStartIndex text)) ->
            n < nth (Z.to_nat i) (buildLineStartIndex text) 0.
Proof.
  intros Hn.
  set (ls := buildLineStartIndex text).
  pose proof (buildLineStartIndex_sorted text) as Hsorted. fold ls in Hsorted.
  assert (Hlen : (1 <= length ls)%nat) by (unfold ls; simpl; lia).
  set (f := fun i : Z => nth (Z.to_nat i) ls 0).
  assert (Hkey : forall i, 0 <= i < Z.of_nat (length ls) -> lookupZ ls i = Some (f i)).
  { intros i Hi. apply lookupZ_nth. exact Hi. }
  assert (Hmono : forall i j, 0 <= i -> i <= j -> j < Z.of_nat (length ls) -> f i <= f j).
  { intros i j Hi Hij Hj. apply sorted_nth_le; [exact Hsorted | lia | lia]. }
  pose proof (bsearchLast_spec (lookupZ ls) f (Z.of_nat (length ls)) n Hkey Hmono
                0 (Z.of_nat (length ls) - 1) 0 ltac:(lia) ltac:(lia)) as Hspec.
  fold (offsetToLine0 ls n) in Hspec.
  assert (Hf0 : f 0 = 0) by reflexivity.
  destruct Hspec as [[_ Hall] | (Hr & Hfr & Hall)].
  - specialize (Hall 0 ltac:(lia)). lia.
  - split; [lia|]. split; [exact Hfr|]. intros i Hi. apply Hall. lia.
Qed.

(** X1: the line index of a text has one entry per line feed besides the
    first, is strictly increasing, and holds 0 and the positions that follow
    a line feed, and nothing else. *)
Theorem buildLineStartIndex_entries (text : string) :
  length (buildLineStartIndex text) = S (countLF text)
  /\ StronglySorted Z.lt (buildLineStartIndex text)
  /\ forall k : Z,
       k ∈ buildLineStartIndex text <->
       k = 0 \/ (0 < k /\ String.get (Z.to_nat (k - 1)) text = Some LF).
Proof.
  split; [|split].
  - unfold buildLineStartIndex. simpl. rewrite lineStartsFrom_length. reflexivity.
  - apply buildLineStartIndex_sorted.
  - intros k. unfold buildLineStartIndex. rewrite elem_of_cons, lineStartsFrom_elem.
    replace (k - 0 - 1) with (k - 1) by lia. reflexivity.
Qed.

(** X2: for every array and every offset, also a negative one or one past
    the text, [offsetToLine0] returns an index that is not negative and, when
    the array is not empty, an index of the array; [offsetToCol] is never
    negative.  On an empty array the line is 0 and the column the offset. *)
Theorem offsetToLine0_within_index (lineStarts : list Z) (offset : Z) :
  0 <= offsetToLine0 lineStarts offset
  /\ (lineStarts <> [] ->
      is_Some (lookupZ lineStarts (offsetToLine0 lineStarts offset)))
  /\ 0 <= offsetToCol lineStarts offset
  /\ (lineStarts = [] ->
      offsetToLine0 lineStarts offset = 0 /\
      offsetToCol lineStarts offset = Z.max 0 offset).
Proof.
  assert (Hr : offsetToLine0 lineStarts offset = 0 \/
               0 <= offsetToLine0 lineStarts offset <= Z.of_nat (length lineStarts) - 1)
    by apply bsearchLast_range.
  split; [lia|]. split; [|split; [unfold offsetToCol; lia|]].
  - intros Hne. destruct lineStarts as [|a l]; [contradiction|].
    assert (Hi : 0 <= offsetToLine0 (a :: l) offset < Z.of_nat (length (a :: l))).
    { simpl length in *. lia. }
    destruct (lookup_lt_is_Some_2 (a :: l) (Z.to_nat (offsetToLine0 (a :: l) offset)))
      as [s Hs]; [lia|].
    exists s. apply lookupZ_Some. split; [lia | exact Hs].
  - intros ->. simpl in Hr. assert (H0 : offsetToLine0 [] offset = 0) by lia.
    split; [exact H0|]. unfold offsetToCol. rewrite H0.
    change (lookupZ (@nil Z) 0) with (@None Z). simpl. rewrite Z.sub_0_r. reflexivity.
Qed.

(** X3: over the index built from a text, an offset below 0 lies on line 0
    at column 0, and an offset at or past the end of the text lies on the
    last line. *)
Theorem offset_out_of_range_clamped (text : string) (offset : Z) :
  (offset < 0 ->
   offsetToLine0 (buildLineStartIndex text) offset = 0 /\
   offsetToCol (buildLineStartIndex text) offset = 0)
  /\ (Z.of_nat (String.length text) <= offset ->
      offsetToLine0 (buildLineStartIndex text) offset
        = Z.of_nat (length (buildLineStartIndex text)) - 1).
Proof.
  set (ls := buildLineStartIndex text).
  pose proof (buildLineStartIndex_sorted text) as Hsorted. fold ls in Hsorted.
  assert (Hlen : (1 <= length ls)%nat) by (unfold ls; simpl; lia).
  set (f := fun i : Z => nth (Z.to_nat i) ls 0).
  assert (Hkey : forall i, 0 <= i < Z.of_nat (length ls) -> lookupZ ls i = Some (f i)).
  { intros i Hi. apply lookupZ_nth. exact Hi. }
  assert (Hmono : forall i j, 0 <= i -> i <= j -> j < Z.of_nat (length ls) -> f i <= f j).
  { intros i j Hi Hij Hj. apply sorted_nth_le; [exact Hsorted | lia | lia]. }
  pose proof (bsearchLast_spec (lookupZ ls) f (Z.of_nat (length ls)) offset Hkey Hmono
                0 (Z.of_nat (length ls) - 1) 0 ltac:(lia) ltac:(lia)) as Hspec.
  fold (offsetToLine0 ls offset) in Hspec.
  assert (Hf0 : f 0 = 0) by reflexivity.
  split.
  - intros Hneg.
    assert (H0 : offsetToLine0 ls offset = 0).
    { destruct Hspec as [[H0 _] | (Hr & Hfr & _)]; [exact H0|].
      pose proof (Hmono 0 (offsetToLine0 ls offset) ltac:(lia) ltac:(lia) ltac:(lia)). lia. }
    split; [exact H0|]. unfold offsetToCol. rewrite H0. unfold ls. simpl. lia.
  - intros Hpast.
    assert (Hle : forall i, 0 <= i < Z.of_nat (length ls) -> f i <= offset).
    { intros i Hi. unfold f.
      assert (Hin : nth (Z.to_nat i) ls 0 ∈ ls) by (apply list_elem_of_In, nth_In; lia).
      revert Hin. generalize (nth (Z.to_nat i) ls 0). intros x Hin.
      unfold ls, buildLineStartIndex in Hin. apply elem_of_cons in Hin as [Hin|Hin].
      - lia.
      - pose proof (lineStartsFrom_le text 0) as Hall. rewrite Forall_forall in Hall.
        specialize (Hall _ Hin). lia. }
    destruct Hspec as [[_ Hall] | (Hr & Hfr & Hall)].
    + specialize (Hall 0 ltac:(lia)). specialize (Hle 0 ltac:(lia)). lia.
    + destruct (Z.eq_dec (offsetToLine0 ls offset) (Z.of_nat (length ls) - 1)) as [He|Hne];
        [exact He|].
      specialize (Hall (Z.of_nat (length ls) - 1) ltac:(lia)).
      specialize (Hle (Z.of_nat (length ls) - 1) ltac:(lia)). lia.
Qed.

(** X4: line and column determine the offset and back: the offset at column
    [c] of line [i], before the start of the next line if there is one, is
    mapped to line [i] and column [c]. *)
Theorem line_col_round_trip (text : string) (i c start : Z) :
  lookupZ (buildLineStartIndex text) i = Some start ->
  0 <= c ->
  (forall next, lookupZ (buildLineStartIndex text) (i + 1) = Some next ->
                start + c < next) ->
  offsetToLine0 (buildLineStartIndex text) (start + c) = i /\
  offsetToCol (buildLineStartIndex text) (start + c) = c.
Proof.
  intros Hi Hc Hnext.
  set (ls := buildLineStartIndex text) in *.
  pose proof (buildLineStartIndex_sorted text) as Hsorted. fold ls in Hsorted.
  assert (Hir : 0 <= i < Z.of_nat (length ls)).
  { apply lookupZ_Some in Hi as [Hi0 Hi]. apply lookup_lt_Some in Hi. lia. }
  assert (Hsi : nth (Z.to_nat i) ls 0 = start).
  { pose proof (lookupZ_nth ls i Hir) as Hn. rewrite Hi in Hn. injection Hn as ->. reflexivity. }
  assert (Hstart : 0 <= start).
  { pose proof (sorted_nth_le ls Hsorted 0 (Z.to_nat i) ltac:(lia) ltac:(lia)) as Hle.
    change (nth 0 ls 0) with 0 in Hle. rewrite Hsi in Hle. exact Hle. }
  destruct (offsetToLine0_built text (start + c) ltac:(lia)) as (Hr & Hfr & Hall).
  fold ls in Hr, Hfr, Hall.
  assert (Heq : offsetToLine0 ls (start + c) = i).
  { destruct (Z.lt_trichotomy (offsetToLine0 ls (start + c)) i) as [Hlt|[Heq|Hgt]];
      [|exact Heq|].
    - specialize (Hall i ltac:(lia)). lia.
    - assert (Hi1 : 0 <= i + 1 < Z.of_nat (length ls)) by lia.
      specialize (Hnext _ (lookupZ_nth ls (i + 1) Hi1)).
      pose proof (sorted_nth_le ls Hsorted (Z.to_nat (i + 1))
                    (Z.to_nat (offsetToLine0 ls (start + c))) ltac:(lia) ltac:(lia)).
      lia. }
  split; [exact Heq|]. unfold offsetToCol. rewrite Heq, Hi. simpl. lia.
Qed.

(** The statement at line 1, column 1 of a text of three lines. *)
Lemma line_col_round_trip_witness :
  offsetToLine0 (buildLineStartIndex ("ab" +:+ String "010" "cd" +:+ String "010" "e")) (3 + 1) = 1 /\
  offsetToCol (buildLineStartIndex ("ab" +:+ String "010" "cd" +:+ String "010" "e")) (3 + 1) = 1.
Proof.
  apply (line_col_round_trip ("ab" +:+ String "010" "cd" +:+ String "010" "e") 1 1 3).
  - reflexivity.
  - lia.
  - intros next Hn. vm_compute in Hn. injection Hn as <-. lia.
Defined.

Lemma execAt_lineEnd (pos : nat) (prev : option ascii) (rest : string) :
  execAt Rev3.lineEndRe pos prev rest =
  if decide (rest = String CR (String LF EmptyString) \/ rest = String LF EmptyString)
  then Some (MkMatch pos rest []) else None.
Proof.
  unfold execAt, Rev3.lineEndRe. cbn [seqs opt chr rmatch m_rest m_pos m_caps m_prev]. unfold isChar.
  destruct (decide _) as [[->| ->]|Hd].
  - unfold CR, LF, mkMatch. simpl.
    replace (S (S pos) - pos)%nat with 2%nat by lia. reflexivity.
  - unfold CR, LF, mkMatch. simpl.
    replace (S pos - pos)%nat with 1%nat by lia. reflexivity.
  - destruct rest as [|a rest]; [reflexivity|].
    destruct (Ascii.eqb_spec "013" a) as [<-|Ha].
    + destruct rest as [|b rest]; [reflexivity|].
      destruct (Ascii.eqb_spec "010" b) as [<-|Hb]; [|reflexivity].
      destruct rest as [|c rest]; [|reflexivity].
      exfalso. apply Hd. left. reflexivity.
    + destruct (Ascii.eqb_spec "010" a) as [<-|Ha']; [|reflexivity].
      destruct rest as [|b rest]; [|reflexivity].
      exfalso. apply Hd. right. reflexivity.
Qed.

Lemma searchFrom_index (r : regex) (rest : string) :
  forall pos prev m, searchFrom r pos prev rest = Some m -> (pos <= m_index m)%nat.
Proof.
  induction rest as [|c tl IH]; intros pos prev m; simpl;
    destruct (execAt r pos prev _) as [m'|] eqn:Hm.
  - intros [= <-]. destruct (execAt_spec _ _ _ _ _ Hm) as (-> & _). lia.
  - discriminate.
  - intros [= <-]. destruct (execAt_spec _ _ _ _ _ Hm) as (-> & _). lia.
  - intros Hs. apply IH in Hs. lia.
Qed.

Lemma searchFrom_lineEnd (rest : string) :
  forall pos prev,
    match searchFrom Rev3.lineEndRe pos prev rest with
    | Some m => splice [m] pos rest ""
    | None => rest
    end = chompEnd rest.
Proof.
  induction rest as [|c tl IH]; intros pos prev.
  - reflexivity.
  - cbn [searchFrom chompEnd]. rewrite execAt_lineEnd.
    destruct (decide _) as [Hd|Hd].
    + cbn [splice]. unfold m_end. cbn [m_index m_text].
      rewrite Nat.sub_diag.
      replace (pos + String.length (String c tl) - pos)%nat
        with (String.length (String c tl)) by lia.
      destruct Hd as [[= -> ->]|[= -> ->]]; reflexivity.
    + specialize (IH (S pos) (Some c)).
      destruct (searchFrom Rev3.lineEndRe (S pos) (Some c) tl) as [m|] eqn:Hs.
      * rewrite splice_cons; [f_equal; exact IH|].
        constructor; [|constructor]. eapply searchFrom_index. exact Hs.
      * f_equal. exact IH.
Qed.

Lemma replaceFirst_lineEnd (s : string) :
  replaceFirst Rev3.lineEndRe s "" = chompEnd s.
Proof.
  unfold replaceFirst, search. exact (searchFrom_lineEnd s O None).
Qed.

Lemma get_sliceFrom (a k : nat) (s : string) :
  String.get k (sliceFrom a s) = String.get (a + k) s.
Proof.
  revert s. induction a as [|a IH]; intros s; [reflexivity|].
  destruct s as [|c tl]; simpl; [destruct k; reflexivity | apply IH].
Qed.

Lemma get_sliceTo (n k : nat) (s : string) :
  (k < n)%nat -> String.get k (sliceTo n s) = String.get k s.
Proof.
  revert k s. induction n as [|n IH]; intros k s Hk; [lia|].
  destruct s as [|c tl]; [reflexivity|]. simpl.
  destruct k as [|k]; [reflexivity|]. apply IH. lia.
Qed.

Lemma get_sliceTo_Some (n k : nat) (s : string) (c : ascii) :
  String.get k (sliceTo n s) = Some c -> (k < n)%nat /\ String.get k s = Some c.
Proof.
  revert k s. induction n as [|n IH]; intros k s; [destruct s; simpl; destruct k; discriminate|].
  destruct s as [|d tl]; simpl; [destruct k; discriminate|].
  destruct k as [|k]; [intros H; split; [lia | exact H]|].
  intros H. apply IH in H as [H1 H2]. split; [lia | exact H2].
Qed.

(** [chompEnd] keeps a prefix, and drops no character other than a carriage
    return and a line feed. *)
Lemma chompEnd_get (s : string) (k : nat) (c : ascii) :
  String.get k (chompEnd s) = Some c ->
  String.get k s = Some c /\ (c = LF -> (S k < String.length s)%nat).
Proof.
  revert k. induction s as [|d tl IH]; intros k; [destruct k; discriminate|].
  cbn [chompEnd]. destruct (decide _) as [Hd|Hd]; [destruct k; discriminate|].
  destruct k as [|k]; simpl.
  - intros [= ->]. split; [reflexivity|]. intros ->.
    destruct tl as [|e tl]; [|simpl; lia].
    exfalso. apply Hd. right. reflexivity.
  - intros Hg. apply IH in Hg as [Hg Hlen]. split; [exact Hg|].
    intros Hc. specialize (Hlen Hc). lia.
Qed.

Lemma chompEnd_keep (s : string) (k : nat) (c : ascii) :
  String.get k s = Some c -> c <> LF -> c <> CR ->
  String.get k (chompEnd s) = Some c.
Proof.
  revert k. induction s as [|d tl IH]; intros k; [destruct k; discriminate|].
  intros Hg Hlf Hcr. cbn [chompEnd]. destruct (decide _) as [Hd|Hd].
  - exfalso. destruct Hd as [[= -> ->]|[= -> ->]].
    + destruct k as [|[|k]]; simpl in Hg; try discriminate; injection Hg as <-; congruence.
    + destruct k as [|k]; simpl in Hg; try discriminate. injection Hg as <-; congruence.
  - destruct k as [|k]; simpl in *; [exact Hg|]. apply IH; assumption.
Qed.

Lemma get_Some_lt (k : nat) (s : string) (c : ascii) :
  String.get k s = Some c -> (k < String.length s)%nat.
Proof.
  revert k. induction s as [|d tl IH]; intros k; [destruct k; discriminate|].
  destruct k as [|k]; simpl; [lia|]. intros Hg. apply IH in Hg. lia.
Qed.

Lemma sliceTo_length_le (n : nat) (s : string) :
  (String.length (sliceTo n s) <= n)%nat.
Proof.
  revert s. induction n as [|n IH]; intros s; [destruct s; simpl; lia|].
  destruct s as [|c tl]; simpl; [lia|]. specialize (IH tl). lia.
Qed.

(** The text [getLineText] cuts out for a line of the index built from the
    text. *)
Lemma getLineText_built (text : string) (i : Z) :
  0 <= i < Z.of_nat (length (buildLineStartIndex text)) ->
  exists a b : nat,
    Rev3.getLineText text (buildLineStartIndex text) i
      = chompEnd (sliceTo (b - a) (sliceFrom a text)) /\
    Z.of_nat a = nth (Z.to_nat i) (buildLineStartIndex text) 0 /\
    (i + 1 < Z.of_nat (length (buildLineStartIndex text)) ->
     Z.of_nat b = nth (Z.to_nat (i + 1)) (buildLineStartIndex text) 0) /\
    (Z.of_nat (length (buildLineStartIndex text)) <= i + 1 ->
     b = String.length text).
Proof.
  intros Hi. set (ls := buildLineStartIndex text) in *.
  pose proof (buildLineStartIndex_sorted text) as Hsorted. fold ls in Hsorted.
  assert (H0 : 0 <= nth (Z.to_nat i) ls 0).
  { pose proof (sorted_nth_le ls Hsorted 0 (Z.to_nat i) ltac:(lia) ltac:(lia)) as Hle.
    change (nth 0 ls 0) with 0 in Hle. exact Hle. }
  unfold Rev3.getLineText. rewrite replaceFirst_lineEnd.
  rewrite (lookupZ_nth ls i Hi). cbn [default].
  destruct (Z.ltb_spec (i + 1) (Z.of_nat (length ls))) as [Hlt|Hge].
  - rewrite (lookupZ_nth ls (i + 1)) by lia. cbn [default].
    pose proof (sorted_nth_le ls Hsorted 0 (Z.to_nat (i + 1)) ltac:(lia) ltac:(lia)) as Hle.
    change (nth 0 ls 0) with 0 in Hle.
    eexists _, _. split; [reflexivity|]. unfold id. split; [lia|]. split; [lia|]. lia.
  - eexists _, _. split; [reflexivity|]. unfold id. split; [lia|]. split; [lia|].
    intros _. apply Nat2Z.id.
Qed.

(** X5: the character at an offset of the text that is neither a line feed
    nor a carriage return stands at the offset's column in the text of the
    offset's line. *)
Theorem getLineText_column_char (text : string) (n : Z) (c : ascii) :
  0 <= n -> String.get (Z.to_nat n) text = Some c -> c <> LF -> c <> CR ->
  String.get (Z.to_nat (offsetToCol (buildLineStartIndex text) n))
    (Rev3.getLineText text (buildLineStartIndex text)
       (offsetToLine0 (buildLineStartIndex text) n)) = Some c.
Proof.
  intros Hn Hget Hlf Hcr.
  destruct (offsetToLine0_built text n Hn) as (Hr & Hfr & Hall).
  set (ls := buildLineStartIndex text) in *.
  set (r := offsetToLine0 ls n) in *.
  destruct (getLineText_built text r Hr) as (a & b & Heq & Ha & Hb & Hlast).
  fold ls in Heq, Ha, Hb, Hlast. rewrite Heq. clear Heq.
  assert (Hcol : offsetToCol ls n = n - Z.of_nat a).
  { unfold offsetToCol. fold r. rewrite (lookupZ_nth ls r Hr). cbn [default]. unfold id. lia. }
  rewrite Hcol. apply get_Some_lt in Hget as Hlen.
  assert (Hnb : (Z.to_nat n < b)%nat).
  { destruct (Z_lt_le_dec (r + 1) (Z.of_nat (length ls))) as [Hlt|Hge].
    - specialize (Hb Hlt). specialize (Hall (r + 1) ltac:(lia)). lia.
    - specialize (Hlast Hge). lia. }
  apply chompEnd_keep; [|exact Hlf | exact Hcr].
  rewrite get_sliceTo by lia. rewrite get_sliceFrom.
  replace (a + Z.to_nat (n - Z.of_nat a))%nat with (Z.to_nat n) by lia. exact Hget.
Qed.

(** The statement at the [d] of a text of three lines. *)
Lemma getLineText_column_char_witness :
  String.get
    (Z.to_nat (offsetToCol (buildLineStartIndex ("ab" +:+ String "010" "cd" +:+ String "010" "e")) 4))
    (Rev3.getLineText ("ab" +:+ String "010" "cd" +:+ String "010" "e")
       (buildLineStartIndex ("ab" +:+ String "010" "cd" +:+ String "010" "e"))
       (offsetToLine0 (buildLineStartIndex ("ab" +:+ String "010" "cd" +:+ String "010" "e")) 4))
  = Some "d"%char.
Proof.
  apply (getLineText_column_char ("ab" +:+ String "010" "cd" +:+ String "010" "e") 4 "d").
  - lia.
  - reflexivity.
  - discriminate.
  - discriminate.
Defined.

(** X6: the text of a line of the index holds no line feed. *)
Theorem getLineText_no_line_feed (text : string) (i : Z) (k : nat) :
  0 <= i < Z.of_nat (length (buildLineStartIndex text)) ->
  String.get k (Rev3.getLineText text (buildLineStartIndex text) i) <> Some LF.
Proof.
  intros Hi Hget.
  destruct (getLineText_built text i Hi) as (a & b & Heq & Ha & Hb & Hlast).
  rewrite Heq in Hget. clear Heq.
  set (ls := buildLineStartIndex text) in *.
  pose proof (buildLineStartIndex_sorted text) as Hsorted. fold ls in Hsorted.
  apply chompEnd_get in Hget as [Hget Hlen]. specialize (Hlen eq_refl).
  pose proof (sliceTo_length_le (b - a) (sliceFrom a text)) as Hle.
  apply get_sliceTo_Some in Hget as [Hk Hget]. rewrite get_sliceFrom in Hget.
  assert (Hin : Z.of_nat (a + k) + 1 ∈ ls).
  { unfold ls, buildLineStartIndex. right. apply lineStartsFrom_elem. split; [lia|].
    replace (Z.to_nat (Z.of_nat (a + k) + 1 - 0 - 1)) with (a + k)%nat by lia. exact Hget. }
  apply list_elem_of_In, (In_nth _ _ 0) in Hin as (j & Hj & Hnth).
  destruct (Nat.le_gt_cases j (Z.to_nat i)) as [Hji|Hji].
  - pose proof (sorted_nth_le ls Hsorted j (Z.to_nat i) Hji ltac:(lia)). lia.
  - assert (Hi1 : i + 1 < Z.of_nat (length ls)) by lia.
    specialize (Hb Hi1).
    pose proof (sorted_nth_le ls Hsorted (Z.to_nat (i + 1)) j ltac:(lia) Hj). lia.
Qed.

(** The statement at the first line of a text with a carriage return before
    the line feed. *)
Lemma getLineText_no_line_feed_witness :
  String.get 2 (Rev3.getLineText ("ab" +:+ String "013" (String "010" "cd"))
                  (buildLineStartIndex ("ab" +:+ String "013" (String "010" "cd"))) 0)
  <> Some LF.
Proof.
  apply (getLineText_no_line_feed ("ab" +:+ String "013" (String "010" "cd")) 0 2).
  simpl. lia.
Defined.

End LineTextFacts.

(** ** The theme classifier and the line index *)

Module ThemeLineFacts.
Import Js RegExp LineIndex LineText Rev2 LineIndexFacts RegExpFacts LineTextFacts ThemeFacts.

(** An attempt of [/\r?\n/] at a position: a match of two characters at a
    carriage return with a line feed, of one at a line feed, none
    elsewhere. *)
Lemma execAt_lineBreak (pos : nat) (prev : option ascii) (rest : string) :
  (exists tl m, rest = String CR (String LF tl) /\
                execAt lineBreak pos prev rest = Some m /\
                String.length (m_text m) = 2%nat)
  \/ (exists tl m, rest = String LF tl /\
                   execAt lineBreak pos prev rest = Some m /\
                   String.length (m_text m) = 1%nat)
  \/ (execAt lineBreak pos prev rest = None /\
      match rest with String a _ => a <> LF | EmptyString => True end).
Proof.
  unfold execAt, lineBreak. cbn [opt chr rmatch m_rest m_pos m_caps m_prev]. unfold isChar.
  destruct rest as [|a rest]; [right; right; split; [reflexivity | exact I]|].
  unfold CR, LF.
  destruct (Ascii.eqb_spec "013" a) as [<-|Ha].
  - destruct rest as [|b rest]; [right; right; split; [reflexivity | discriminate]|].
    destruct (Ascii.eqb_spec "010" b) as [<-|Hb]; simpl.
    + left. eexists _, _. split; [reflexivity|]. split; [reflexivity|]. simpl.
      replace (S (S pos) - pos)%nat with 2%nat by lia. reflexivity.
    + right; right. split; [reflexivity | discriminate].
  - destruct (Ascii.eqb_spec "010" a) as [<-|Ha']; simpl.
    + right; left. eexists _, _. split; [reflexivity|]. split; [reflexivity|]. simpl.
      replace (S pos - pos)%nat with 1%nat by lia. destruct rest; reflexivity.
    + right; right. split; [reflexivity | congruence].
Qed.

Lemma countLF_cons_other (c : ascii) (tl : string) :
  c <> LF -> countLF (String c tl) = countLF tl.
Proof.
  intros Hc. simpl. destruct (code c =? 10)%N eqn:He; [|reflexivity].
  apply code_LF in He. contradiction.
Qed.

(** [/\r?\n/] has one match for each line feed. *)
Lemma matchAllFrom_lineBreak (rest : string) :
  forall skip pos prev,
    (skip = O \/ (skip = 1%nat /\ exists tl, rest = String LF tl)) ->
    length (matchAllFrom lineBreak skip pos prev rest) = countLF (sliceFrom skip rest).
Proof.
  induction rest as [|c tl IH]; intros skip pos prev Hskip.
  - destruct Hskip as [->|[-> [tl' [=]]]]. reflexivity.
  - destruct Hskip as [->|[-> [tl' [= -> ->]]]].
    + change (sliceFrom 0 (String c tl)) with (String c tl).
      change (matchAllFrom lineBreak 0 pos prev (String c tl))
        with (match execAt lineBreak pos prev (String c tl) with
              | Some m =>
                  m :: matchAllFrom lineBreak
                         (Nat.pred (String.length (m_text m))) (S pos) (Some c) tl
              | None => matchAllFrom lineBreak 0 (S pos) (Some c) tl
              end).
      destruct (execAt_lineBreak pos prev (String c tl))
        as [(tl' & m & [= -> ->] & -> & Hlen)|[(tl' & m & [= -> ->] & -> & Hlen)|[-> Hc]]].
      * rewrite Hlen. cbn [Nat.pred length].
        rewrite IH by (right; split; [reflexivity | eauto]).
        reflexivity.
      * rewrite Hlen. cbn [Nat.pred length]. rewrite IH by (left; reflexivity).
        reflexivity.
      * rewrite IH by (left; reflexivity). rewrite countLF_cons_other by exact Hc.
        reflexivity.
    + change (matchAllFrom lineBreak 1 pos prev (String LF tl'))
        with (matchAllFrom lineBreak 0 (S pos) (Some LF) tl').
      rewrite IH by (left; reflexivity). reflexivity.
Qed.

Lemma pieces_length (ms : list Match) :
  forall pos s, length (pieces ms pos s) = S (length ms).
Proof. induction ms as [|m ms IH]; intros pos s; simpl; [reflexivity | rewrite IH; reflexivity]. Qed.

Lemma split_lineBreak_length (text : string) :
  length (split lineBreak text) = S (countLF text).
Proof.
  unfold split, matchAll. rewrite pieces_length.
  rewrite (matchAllFrom_lineBreak text O O None) by (left; reflexivity). reflexivity.
Qed.

(** X7: the theme classifier has one tag for each line of the line index,
    so the tag of the line of an offset is always defined. *)
Theorem themeByLine_covers_index (text : string) (offset : Z) :
  length (computeThemeByLine text) = length (buildLineStartIndex text)
  /\ is_Some (lookupZ (computeThemeByLine text)
                (offsetToLine0 (buildLineStartIndex text) offset)).
Proof.
  assert (Hlen : length (computeThemeByLine text) = length (buildLineStartIndex text)).
  { unfold computeThemeByLine. rewrite themeOfLines_length, split_lineBreak_length.
    unfold buildLineStartIndex. simpl. rewrite lineStartsFrom_length. reflexivity. }
  split; [exact Hlen|].
  assert (Hr : offsetToLine0 (buildLineStartIndex text) offset = 0 \/
               0 <= offsetToLine0 (buildLineStartIndex text) offset
                 <= Z.of_nat (length (buildLineStartIndex text)) - 1)
    by apply bsearchLast_range.
  assert (H1 : (1 <= length (buildLineStartIndex text))%nat) by (simpl; lia).
  destruct (lookup_lt_is_Some_2 (computeThemeByLine text)
              (Z.to_nat (offsetToLine0 (buildLineStartIndex text) offset)))
    as [t Ht]; [lia|].
  exists t. apply lookupZ_Some. split; [lia | exact Ht].
Qed.

Lemma lineStep_no_tag (stack : list (option ThemeTag)) (raw : string) :
  detectThemeTrigger (stripSameLineComments raw) = None ->
  Forall (fun m => m = None) stack ->
  Forall (fun m => m = None) (lineStep stack raw).
Proof.
  intros Htrig Hstack. unfold lineStep, popCloses, pushOpens. rewrite Htrig.
  apply Forall_drop. destruct (opensOf _) as [|n]; [exact Hstack|].
  apply Forall_app. split; [apply Forall_replicate; reflexivity|].
  constructor; [reflexivity | exact Hstack].
Qed.

Lemma themeOfLines_no_tag (lines : list string) (stack : list (option ThemeTag)) :
  (forall l, l ∈ lines -> detectThemeTrigger (stripSameLineComments l) = None) ->
  Forall (fun m => m = None) stack ->
  Forall (fun t => t = Base) (themeOfLines stack lines).
Proof.
  revert stack. induction lines as [|raw lines IH]; intros stack Hl Hstack; simpl;
    [constructor|].
  constructor; [apply currentTheme_no_tag; exact Hstack|].
  apply IH.
  - intros l Hin. apply Hl. right. exact Hin.
  - apply lineStep_no_tag; [apply Hl; left | exact Hstack].
Qed.

(** X8: in a text none of whose lines holds a trigger, every line is tagged
    base, whatever its braces. *)
Theorem no_trigger_all_base (text : string) :
  Forall (fun l => detectThemeTrigger (stripSameLineComments l) = None)
         (split lineBreak text) ->
  Forall (fun t => t = Base) (computeThemeByLine text).
Proof.
  intros Hl. apply themeOfLines_no_tag; [|constructor].
  apply Forall_forall. exact Hl.
Qed.

(** The statement at a text of three lines with unbalanced braces. *)
Lemma no_trigger_all_base_witness :
  Forall (fun t => t = Base)
    (computeThemeByLine
       (".a {" +:+ String "010" "  --x: #fff; }}" +:+ String "010" "--y: #000;")).
Proof.
  apply (no_trigger_all_base
           (".a {" +:+ String "010" "  --x: #fff; }}" +:+ String "010" "--y: #000;")).
  vm_compute. repeat constructor.
Defined.

End ThemeLineFacts.

(** ** The traversal: edge cases, provenance, truncation *)

Module TraversalOrderFacts.
Import Js RegExp Imports MemHost TraversalFacts.


Section Traversal.
Context (H : Host) (wsRoot : Uri) (isFollowable : string -> ImportKind -> bool).

#[local] Abbreviation step := (loopStep H wsRoot isFollowable).
#[local] Abbreviation loop := (collectLoop H wsRoot isFollowable).
#[local] Abbreviation pushed := (pushedBy H wsRoot isFollowable).
#[local] Abbreviation importEdge := (Imports.importEdge H wsRoot isFollowable).
#[local] Abbreviation inClosure := (Imports.inClosure H wsRoot isFollowable).
#[local] Abbreviation Inv := (Imports.Inv H wsRoot isFollowable).
#[local] Abbreviation graph := (collectImportGraph H wsRoot isFollowable).
#[local] Abbreviation provenance := (Provenance.provenance H wsRoot isFollowable).

(** What an import edge is made of. *)
Lemma importEdge_inv (u v : Uri) :
  importEdge u v ->
  exists text imp,
    readFile H u = Some text /\ imp ∈ findImports text /\
    isFollowable (spec imp) (kind imp) = true /\
    List.find (stat H) (resolveImportCandidates H wsRoot u (spec imp) (kind imp)) = Some v.
Proof.
  unfold Imports.importEdge, pushedBy. destruct (readFile H u) as [text|]; [|intros Hv; inversion Hv].
  unfold enqueued. intros Hv. apply list_elem_of_In, in_flat_map in Hv as (imp & Himp & Hv).
  exists text, imp. split; [reflexivity|]. split; [apply list_elem_of_In; exact Himp|].
  destruct (isFollowable (spec imp) (kind imp)); [|inversion Hv].
  split; [reflexivity|].
  destruct (List.find _ _) as [c|]; [|inversion Hv].
  destruct Hv as [->|[]]. reflexivity.
Qed.

(** The loop only appends to [out]. *)
Lemma collectLoop_extends (maxFiles : nat) (st : LoopState) :
  exists ext, out (loop maxFiles st) = out st ++ ext.
Proof.
  apply (collectLoop_invariant H wsRoot isFollowable maxFiles
           (fun st' => exists ext, out st' = out st ++ ext)).
  - intros st1 st2 [ext Hext]. unfold loopStep.
    destruct (queue st1) as [|uri rest]; [discriminate|].
    destruct (length (out st1) <? maxFiles)%nat; [|discriminate].
    destruct (decide (uri ∈ visited st1)); intros [= <-]; simpl.
    + exists ext. exact Hext.
    + exists (ext ++ [uri]). rewrite Hext, app_assoc. reflexivity.
  - exists []. rewrite app_nil_r. reflexivity.
Qed.

(** A cap of 0 gives the empty list: not even the root is visited. *)
Lemma collectImportGraph_cap_zero (root : Uri) :
  graph root 0 = [].
Proof.
  unfold collectImportGraph. rewrite collectLoop_unfold. reflexivity.
Qed.

Lemma graph_of_silent_root (root : Uri) (maxFiles : nat) :
  (1 <= maxFiles)%nat -> pushed root = [] -> graph root maxFiles = [root].
Proof.
  intros Hcap Hpush. unfold collectImportGraph, initialState.
  rewrite collectLoop_unfold. unfold loopStep. simpl.
  destruct (Nat.ltb_spec 0 maxFiles); [|lia].
  destruct (decide (root ∈ (∅ : gset string))) as [Hin|_]; [by apply not_elem_of_empty in Hin|].
  rewrite Hpush. simpl. rewrite collectLoop_unfold. reflexivity.
Qed.

(** X9: a root that pushes nothing (it cannot be read, or it has no
    followable import that resolves to a file) is the whole result. *)
Theorem collectImportGraph_root_alone (root : Uri) (maxFiles : nat) :
  (1 <= maxFiles)%nat -> pushed root = [] -> graph root maxFiles = [root].
Proof. apply graph_of_silent_root. Qed.

Lemma provenance_step (root : Uri) (maxFiles : nat) (st st' : LoopState) :
  Inv root maxFiles st /\ provenance root st ->
  step maxFiles st = Some st' ->
  Inv root maxFiles st' /\ provenance root st'.
Proof.
  intros [HInv [Hout Hq]] Hstep.
  split; [eapply Inv_step; eassumption|].
  destruct HInv as [_ Hvis _ Hroot _ _ _].
  unfold loopStep in Hstep. destruct st as [vis q o sh]; simpl in *.
  destruct q as [|uri rest]; [discriminate|].
  destruct (length o <? maxFiles)%nat; [|discriminate].
  destruct (decide (uri ∈ vis)) as [Hin|Hnin]; injection Hstep as <-; split; simpl.
  - exact Hout.
  - intros v Hv. apply Hq. right. exact Hv.
  - intros j v Hj. apply lookup_app_Some in Hj as [Hj|[Hlen Hj]].
    { destruct (Hout j v Hj) as [Hr|(i & u & Hi & Hu & He)]; [left; exact Hr|].
      right. exists i, u. split; [exact Hi|].
      split; [apply lookup_app_l_Some; exact Hu | exact He]. }
    apply list_lookup_singleton_Some in Hj as [Hj0 <-].
    destruct (Hq uri ltac:(left)) as [[-> ->]|(u & Hu & He)].
    + left. split; [simpl in *; lia | reflexivity].
    + right. apply list_elem_of_lookup in Hu as [i Hi].
      exists i, u. split; [apply lookup_lt_Some in Hi; lia|].
      split; [apply lookup_app_l_Some; exact Hi | exact He].
  - intros v Hv. right. apply elem_of_app in Hv as [Hv|Hv].
    + destruct (Hq v ltac:(right; exact Hv)) as [[-> _]|(u & Hu & He)].
      * destruct Hroot as [[_ Hqr]|[o' [=]]]. injection Hqr as _ ->. inversion Hv.
      * exists u. split; [apply elem_of_app; left; exact Hu | exact He].
    + exists uri. split; [apply elem_of_app; right; left | exact Hv].
Qed.

(** X10: every file of the result other than the root was pushed by a file
    that stands before it in the result: it is the first existing candidate
    of a followable import of that file. *)
Theorem visited_files_imported (root : Uri) (maxFiles : nat) (j : nat) (v : Uri) :
  graph root maxFiles !! j = Some v ->
  (j = O /\ v = root) \/
  exists i u text imp,
    (i < j)%nat /\ graph root maxFiles !! i = Some u /\
    readFile H u = Some text /\ imp ∈ findImports text /\
    isFollowable (spec imp) (kind imp) = true /\
    List.find (stat H) (resolveImportCandidates H wsRoot u (spec imp) (kind imp)) = Some v /\
    stat H v = true.
Proof.
  unfold collectImportGraph.
  destruct (collectLoop_invariant H wsRoot isFollowable maxFiles
              (fun st => Inv root maxFiles st /\ provenance root st)
              (provenance_step root maxFiles) (initialState root)) as [[_ [Hout _]] _].
  { split; [apply Inv_initial|]. split; simpl.
    - intros j' v' Hj. rewrite lookup_nil in Hj. discriminate.
    - intros v' Hv. left. split; [reflexivity|].
      apply list_elem_of_singleton in Hv. exact Hv. }
  intros Hj. destruct (Hout j v Hj) as [Hroot|(i & u & Hi & Hu & He)]; [left; exact Hroot|].
  right. destruct (importEdge_inv u v He) as (text & imp & Hr & Himp & Hf & Hfind).
  exists i, u, text, imp. repeat (split; [assumption|]).
  apply find_some in Hfind as [_ Hstat]. exact Hstat.
Qed.

(** X11: when the result is shorter than the cap, nothing was cut off: the
    result holds exactly the files reachable from the root along import
    edges. *)
Theorem collectImportGraph_untruncated (root : Uri) (maxFiles : nat) (u : Uri) :
  (length (graph root maxFiles) < maxFiles)%nat ->
  (u ∈ graph root maxFiles <-> inClosure root u).
Proof.
  intros Hlt. split.
  - intros Hu. unfold collectImportGraph in Hu.
    apply (inv_reach _ _ _ _ _ _ (proj1 (Inv_final H wsRoot isFollowable root maxFiles))).
    left. exact Hu.
  - apply closure_visited. exact Hlt.
Qed.

(** X12: the cap only truncates: the result under a cap is the start of the
    result under any larger cap. *)
Theorem collectImportGraph_cap_prefix (root : Uri) (n m : nat) :
  (n <= m)%nat -> graph root n = take n (graph root m).
Proof.
  intros Hnm. unfold collectImportGraph.
  assert (Hgen : forall st, (length (out st) <= n)%nat ->
                            out (loop n st) = take n (out (loop m st))).
  { intros st.
    induction st as [st IH] using
      (well_founded_induction
         (wf_inverse_image _ _ _ (loopMeasure m)
            (Subterm.wf_lexprod nat nat lt lt lt_wf lt_wf))).
    intros Hlen.
    rewrite (collectLoop_unfold H wsRoot isFollowable m st).
    rewrite (collectLoop_unfold H wsRoot isFollowable n st).
    destruct (step m st) as [st'|] eqn:Hm.
    - pose proof (loopStep_decreases H wsRoot isFollowable m st st' Hm) as Hdec.
      unfold loopStep in Hm |- *.
      destruct (queue st) as [|uri rest] eqn:Hq; [discriminate|].
      destruct (Nat.ltb_spec (length (out st)) m) as [Hltm|]; [|discriminate].
      destruct (Nat.ltb_spec (length (out st)) n) as [Hltn|Hgen].
      + rewrite Hm. apply IH; [exact Hdec|].
        destruct (decide (uri ∈ visited st)); injection Hm as <-; simpl; [lia|].
        rewrite length_app. simpl. lia.
      + destruct (collectLoop_extends m st') as [ext Hext].
        assert (Hpre : exists ext', out (loop m st') = out st ++ ext').
        { rewrite Hext.
          destruct (decide (uri ∈ visited st)); injection Hm as <-; simpl;
            [exists ext; reflexivity | exists ([uri] ++ ext); rewrite app_assoc; reflexivity]. }
        destruct Hpre as [ext' ->].
        rewrite take_app_le by lia. rewrite take_ge by lia. reflexivity.
    - assert (Hn : step n st = None).
      { unfold loopStep in Hm |- *. destruct (queue st) as [|uri rest]; [reflexivity|].
        destruct (Nat.ltb_spec (length (out st)) m) as [Hltm|Hgem].
        - destruct (decide (uri ∈ visited st)); discriminate.
        - destruct (Nat.ltb_spec (length (out st)) n); [lia | reflexivity]. }
      rewrite Hn. rewrite take_ge by lia. reflexivity. }
  apply Hgen. simpl. lia.
Qed.

End Traversal.

(** The statement at a root that cannot be read. *)
Lemma collectImportGraph_root_alone_witness :
  collectImportGraph (memHost []) "/w" Imports.isFollowable "/w/a.css" 120 = ["/w/a.css"].
Proof.
  apply (collectImportGraph_root_alone (memHost []) "/w" Imports.isFollowable "/w/a.css" 120).
  - lia.
  - reflexivity.
Defined.

(** The statement at the second file of the two-file cycle. *)
Lemma visited_files_imported_witness :
  (1%nat = O /\ "/w/b.css" = "/w/a.css") \/
  exists i u text imp,
    (i < 1)%nat /\
    collectImportGraph cycleHost "/w" Imports.isFollowable "/w/a.css" 120 !! i = Some u /\
    readFile cycleHost u = Some text /\ imp ∈ findImports text /\
    Imports.isFollowable (spec imp) (kind imp) = true /\
    List.find (stat cycleHost)
      (resolveImportCandidates cycleHost "/w" u (spec imp) (kind imp)) = Some "/w/b.css" /\
    stat cycleHost "/w/b.css" = true.
Proof.
  apply (visited_files_imported cycleHost "/w" Imports.isFollowable "/w/a.css" 120 1 "/w/b.css").
  vm_compute. reflexivity.
Defined.

(** The statement at the fan of four files, under the cap of 120. *)
Lemma collectImportGraph_untruncated_witness :
  "/w/d.css" ∈ collectImportGraph fanHost "/w" Imports.isFollowable "/w/a.css" 120 <->
  inClosure fanHost "/w" Imports.isFollowable "/w/a.css" "/w/d.css".
Proof.
  apply (collectImportGraph_untruncated fanHost "/w" Imports.isFollowable "/w/a.css" 120 "/w/d.css").
  vm_compute. lia.
Defined.

(** The statement at the fan of four files, for the caps 2 and 120. *)
Lemma collectImportGraph_cap_prefix_witness :
  collectImportGraph fanHost "/w" Imports.isFollowable "/w/a.css" 2 =
  take 2 (collectImportGraph fanHost "/w" Imports.isFollowable "/w/a.css" 120).
Proof.
  apply (collectImportGraph_cap_prefix fanHost "/w" Imports.isFollowable "/w/a.css" 2 120).
  lia.
Defined.

End TraversalOrderFacts.

(** ** HTML escaping *)

Module HtmlFacts.
Import Js RegExp Html RegExpFacts.

Lemma spliceWith_cons (ms : list Match) (pos : nat) (c : ascii) (tl : string)
    (fn : string -> string) :
  Forall (fun m => (S pos <= m_index m)%nat) ms ->
  spliceWith ms pos (String c tl) fn = String c (spliceWith ms (S pos) tl fn).
Proof.
  destruct ms as [|m ms]; intros Hall; simpl; [reflexivity|].
  apply Forall_cons in Hall as [Hm _]. unfold m_end.
  replace (m_index m - pos)%nat with (S (m_index m - S pos)) by lia.
  replace (m_index m + String.length (m_text m) - pos)%nat
    with (S (m_index m + String.length (m_text m) - S pos)) by lia.
  reflexivity.
Qed.

Lemma execAt_chr (p : ascii -> bool) (pos : nat) (prev : option ascii)
    (c : ascii) (tl : string) :
  execAt (Chr p) pos prev (String c tl) =
  if p c then Some (MkMatch pos (String c EmptyString) []) else None.
Proof.
  unfold execAt. simpl. destruct (p c); [|reflexivity].
  unfold mkMatch. simpl. replace (S pos - pos)%nat with 1%nat by lia. reflexivity.
Qed.

(** The escaping works character by character. *)
Lemma spliceWith_special (rest : string) :
  forall pos prev,
    spliceWith (matchAllFrom specialRe 0 pos prev rest) pos rest entityOf =
    match rest with
    | EmptyString => EmptyString
    | String c tl =>
        (if isSpecial c then entityOf (String c EmptyString) else String c EmptyString)
        +:+ spliceWith (matchAllFrom specialRe 0 (S pos) (Some c) tl) (S pos) tl entityOf
    end.
Proof.
  destruct rest as [|c tl]; intros pos prev; [reflexivity|].
  change (matchAllFrom specialRe 0 pos prev (String c tl))
    with (match execAt specialRe pos prev (String c tl) with
          | Some m =>
              m :: matchAllFrom specialRe
                     (Nat.pred (String.length (m_text m))) (S pos) (Some c) tl
          | None => matchAllFrom specialRe 0 (S pos) (Some c) tl
          end).
  unfold specialRe. rewrite execAt_chr.
  destruct (isSpecial c) eqn:Hc.
  - cbn [spliceWith m_index m_text String.length Nat.pred]. unfold m_end.
    cbn [m_index m_text String.length]. rewrite Nat.sub_diag.
    replace (pos + 1 - pos)%nat with 1%nat by lia.
    replace (pos + 1)%nat with (S pos) by lia.
    reflexivity.
  - rewrite spliceWith_cons; [reflexivity|].
    destruct (matchAllFrom_spec (Chr isSpecial) tl O (S pos) (Some c)) as [Hall _].
    eapply Forall_impl; [exact Hall|]. simpl. intros m (H1 & _). lia.
Qed.

Lemma spliceWith_special_pos (rest : string) :
  forall pos prev pos' prev',
    spliceWith (matchAllFrom specialRe 0 pos prev rest) pos rest entityOf =
    spliceWith (matchAllFrom specialRe 0 pos' prev' rest) pos' rest entityOf.
Proof.
  induction rest as [|c tl IH]; intros pos prev pos' prev'; [reflexivity|].
  rewrite (spliceWith_special (String c tl) pos prev).
  rewrite (spliceWith_special (String c tl) pos' prev').
  f_equal. apply IH.
Qed.

Lemma escapeHtml_cons (c : ascii) (tl : string) :
  escapeHtml (String c tl) =
  (if isSpecial c then entityOf (String c EmptyString) else String c EmptyString)
  +:+ escapeHtml tl.
Proof.
  unfold escapeHtml, replaceAllWith, matchAll.
  rewrite (spliceWith_special (String c tl) O None). f_equal.
  apply spliceWith_special_pos.
Qed.

Lemma escapeHtml_nil : escapeHtml "" = "".
Proof. reflexivity. Qed.

(** The head of an escaped text, by the first character of the text. *)
Lemma escapeHtml_head (c : ascii) (tl : string) :
  (c = "&"%char /\ escapeHtml (String c tl) = "&amp;" +:+ escapeHtml tl)
  \/ (c = "<"%char /\ escapeHtml (String c tl) = "&lt;" +:+ escapeHtml tl)
  \/ (c = ">"%char /\ escapeHtml (String c tl) = "&gt;" +:+ escapeHtml tl)
  \/ (c = dquote /\ escapeHtml (String c tl) = "&quot;" +:+ escapeHtml tl)
  \/ (c = "'"%char /\ escapeHtml (String c tl) = "&#39;" +:+ escapeHtml tl)
  \/ (isSpecial c = false /\ escapeHtml (String c tl) = String c (escapeHtml tl)).
Proof.
  rewrite escapeHtml_cons. unfold isSpecial, isChar.
  destruct (Ascii.eqb_spec "&" c) as [<-|H1]; [left; split; reflexivity|].
  destruct (Ascii.eqb_spec "<" c) as [<-|H2]; [right; left; split; reflexivity|].
  destruct (Ascii.eqb_spec ">" c) as [<-|H3]; [right; right; left; split; reflexivity|].
  destruct (Ascii.eqb_spec dquote c) as [<-|H4];
    [right; right; right; left; split; reflexivity|].
  destruct (Ascii.eqb_spec "'" c) as [<-|H5];
    [right; right; right; right; left; split; reflexivity|].
  right; right; right; right; right. split; reflexivity.
Qed.

Lemma isSpecial_false (c : ascii) :
  isSpecial c = false ->
  c <> "&"%char /\ c <> "<"%char /\ c <> ">"%char /\ c <> dquote /\ c <> "'"%char.
Proof.
  intros Hc. repeat split; intros ->; discriminate Hc.
Qed.

Lemma escapeHtml_inj_aux (s1 : string) :
  forall s2, escapeHtml s1 = escapeHtml s2 -> s1 = s2.
Proof.
  induction s1 as [|c1 tl1 IH]; intros [|c2 tl2].
  - reflexivity.
  - rewrite escapeHtml_nil.
    destruct (escapeHtml_head c2 tl2) as [[_ ->]|[[_ ->]|[[_ ->]|[[_ ->]|[[_ ->]|[_ ->]]]]]];
      discriminate.
  - rewrite escapeHtml_nil.
    destruct (escapeHtml_head c1 tl1) as [[_ ->]|[[_ ->]|[[_ ->]|[[_ ->]|[[_ ->]|[_ ->]]]]]];
      discriminate.
  - destruct (escapeHtml_head c1 tl1)
      as [[-> ->]|[[-> ->]|[[-> ->]|[[-> ->]|[[-> ->]|[Hc1 ->]]]]]];
    destruct (escapeHtml_head c2 tl2)
      as [[-> ->]|[[-> ->]|[[-> ->]|[[-> ->]|[[-> ->]|[Hc2 ->]]]]]];
    simpl; intros Heq;
    try discriminate Heq;
    try (injection Heq as Heq; f_equal; apply IH; exact Heq);
    try (injection Heq as <- _; discriminate Hc2);
    try (injection Heq as -> _; discriminate Hc1).
    injection Heq as -> Heq. f_equal. apply IH. exact Heq.
Qed.

Lemma escapeHtml_app_aux (a b : string) :
  escapeHtml (a +:+ b) = escapeHtml a +:+ escapeHtml b.
Proof.
  induction a as [|c a IH]; [reflexivity|].
  change (String c a +:+ b) with (String c (a +:+ b)).
  rewrite !escapeHtml_cons, IH, append_assoc. reflexivity.
Qed.

Lemma prefix_append (e x : string) : String.prefix e (e +:+ x) = true.
Proof.
  induction e as [|c e IH]; simpl; [destruct x; reflexivity|].
  destruct (ascii_dec c c); [exact IH | contradiction].
Qed.

Lemma entity_listed (e : string) : In e entities -> e ∈ entities.
Proof. apply list_elem_of_In. Qed.

(** X13: an escaped text holds no [<], [>], double quote or apostrophe, and
    every [&] in it starts one of the five entities. *)
Theorem escapeHtml_safe (s : string) (k : nat) (c : ascii) :
  String.get k (escapeHtml s) = Some c ->
  c <> "<"%char /\ c <> ">"%char /\ c <> dquote /\ c <> "'"%char /\
  (c = "&"%char ->
   exists e, e ∈ entities /\ String.prefix e (sliceFrom k (escapeHtml s)) = true).
Proof.
  revert k. induction s as [|d tl IH]; intros k; [destruct k; discriminate|].
  destruct (escapeHtml_head d tl)
    as [[-> ->]|[[-> ->]|[[-> ->]|[[-> ->]|[[-> ->]|[Hd ->]]]]]].
  - destruct k as [|[|[|[|[|k]]]]]; simpl; try apply IH;
      intros [= <-]; (repeat split; try discriminate).
    intros _. exists "&amp;". split; [apply entity_listed; simpl; auto 10|].
    exact (prefix_append "&amp;" (escapeHtml tl)).
  - destruct k as [|[|[|[|k]]]]; simpl; try apply IH;
      intros [= <-]; (repeat split; try discriminate).
    intros _. exists "&lt;". split; [apply entity_listed; simpl; auto 10|].
    exact (prefix_append "&lt;" (escapeHtml tl)).
  - destruct k as [|[|[|[|k]]]]; simpl; try apply IH;
      intros [= <-]; (repeat split; try discriminate).
    intros _. exists "&gt;". split; [apply entity_listed; simpl; auto 10|].
    exact (prefix_append "&gt;" (escapeHtml tl)).
  - destruct k as [|[|[|[|[|[|k]]]]]]; simpl; try apply IH;
      intros [= <-]; (repeat split; try discriminate).
    intros _. exists "&quot;". split; [apply entity_listed; simpl; auto 10|].
    exact (prefix_append "&quot;" (escapeHtml tl)).
  - destruct k as [|[|[|[|[|k]]]]]; simpl; try apply IH;
      intros [= <-]; (repeat split; try discriminate).
    intros _. exists "&#39;". split; [apply entity_listed; simpl; auto 10|].
    exact (prefix_append "&#39;" (escapeHtml tl)).
  - destruct k as [|k]; simpl; [|apply IH].
    intros [= <-]. destruct (isSpecial_false d Hd) as (H1 & H2 & H3 & H4 & H5).
    repeat split; try assumption. intros ->. contradiction.
Qed.

(** The statement at the second [&] of [a&lt;b&amp;c]. *)
Lemma escapeHtml_safe_witness :
  "&"%char <> "<"%char /\ "&"%char <> ">"%char /\ "&"%char <> dquote /\
  "&"%char <> "'"%char /\
  ("&"%char = "&"%char ->
   exists e, e ∈ entities /\ String.prefix e (sliceFrom 6 (escapeHtml "a<b&c")) = true).
Proof.
  apply (escapeHtml_safe "a<b&c" 6 "&"). reflexivity.
Defined.

(** X14: escaping loses nothing: two texts with the same escaped text are
    the same text. *)
Theorem escapeHtml_injective (s1 s2 : string) :
  escapeHtml s1 = escapeHtml s2 -> s1 = s2.
Proof. apply escapeHtml_inj_aux. Qed.

Lemma escapeHtml_injective_witness : "a<b" +:+ "&c" = "a<" +:+ "b&c".
Proof.
  apply (escapeHtml_injective ("a<b" +:+ "&c") ("a<" +:+ "b&c")). reflexivity.
Defined.

(** X15: escaping goes through concatenation, leaves a text without special
    characters as it is, and changes a text again when it is applied twice:
    escaping an escaped text gives the same text only if the first escaping
    changed nothing. *)
Theorem escapeHtml_composes :
  (forall a b, escapeHtml (a +:+ b) = escapeHtml a +:+ escapeHtml b)
  /\ (forall s, forallb (fun c => negb (isSpecial c)) (list_ascii_of_string s) = true ->
                escapeHtml s = s)
  /\ (forall s, escapeHtml (escapeHtml s) = escapeHtml s <-> escapeHtml s = s)
  /\ (forall s, escapeHtmlAttr s = escapeHtml s).
Proof.
  split; [exact escapeHtml_app_aux|]. split; [|split].
  - induction s as [|c tl IH]; [reflexivity|]. simpl.
    intros Hall. apply andb_true_iff in Hall as [Hc Hall].
    rewrite escapeHtml_cons. apply negb_true_iff in Hc. rewrite Hc.
    simpl. rewrite IH by exact Hall. reflexivity.
  - intros s. split.
    + intros Heq. apply escapeHtml_inj_aux. exact Heq.
    + intros Heq. rewrite !Heq. reflexivity.
  - reflexivity.
Qed.

End HtmlFacts.

(** ** The de-duplication loop of revision 2 *)

Module DedupFacts.
Import Js Colors Rev2 DedupNotions.

(** The state of the loop after the hits [l]. *)
Lemma dedup_state (l : list ColorHit) :
  sublist (merged (foldl dedupStep (MkDedup ∅ ∅ []) l)) l
  /\ NoDup (map dedupClass (merged (foldl dedupStep (MkDedup ∅ ∅ []) l)))
  /\ (forall k, k ∈ varSeen (foldl dedupStep (MkDedup ∅ ∅ []) l) <->
                (true, k) ∈ map dedupClass (merged (foldl dedupStep (MkDedup ∅ ∅ []) l)))
  /\ (forall k, k ∈ litSeen (foldl dedupStep (MkDedup ∅ ∅ []) l) <->
                (false, k) ∈ map dedupClass (merged (foldl dedupStep (MkDedup ∅ ∅ []) l)))
  /\ (forall h, h ∈ l ->
                dedupClass h ∈ map dedupClass (merged (foldl dedupStep (MkDedup ∅ ∅ []) l)))
  /\ (forall i h, l !! i = Some h ->
        (forall j h', (j < i)%nat -> l !! j = Some h' -> dedupClass h' <> dedupClass h) ->
        h ∈ merged (foldl dedupStep (MkDedup ∅ ∅ []) l)).
Proof.
  induction l as [|h l IH] using rev_ind.
  - simpl. split; [constructor|]. split; [constructor|].
    split; [intros k; set_solver|]. split; [intros k; set_solver|].
    split; [intros h Hh; inversion Hh|]. intros i h Hi. rewrite lookup_nil in Hi. discriminate.
  - rewrite foldl_snoc.
    destruct IH as (Hsub & Hnd & Hvar & Hlit & Hcov & Hfirst).
    set (d := foldl dedupStep (MkDedup ∅ ∅ []) l) in *.
    assert (Hseen : dedupClass h ∈ map dedupClass (merged d) ->
                    dedupStep d h = d).
    { intros Hin. unfold dedupStep. destruct h as [n v f r us t | v f r us].
      - destruct (decide _) as [|Hn]; [reflexivity|]. exfalso. apply Hn, Hvar. exact Hin.
      - destruct (decide _) as [|Hn]; [reflexivity|]. exfalso. apply Hn, Hlit. exact Hin. }
    assert (Hnew : dedupClass h ∉ map dedupClass (merged d) ->
                   merged (dedupStep d h) = merged d ++ [h] /\
                   (forall k, k ∈ varSeen (dedupStep d h) <->
                              k ∈ varSeen d \/ (true, k) = dedupClass h) /\
                   (forall k, k ∈ litSeen (dedupStep d h) <->
                              k ∈ litSeen d \/ (false, k) = dedupClass h)).
    { intros Hnin. unfold dedupStep. destruct h as [n v f r us t | v f r us].
      - destruct (decide _) as [Hin|_]; [exfalso; apply Hnin, Hvar; exact Hin|].
        simpl. split; [reflexivity|]. split; intros k.
        + rewrite elem_of_union, elem_of_singleton. unfold dedupClass. simpl.
          split; [intros [->|?]; auto | intros [?|[= ->]]; auto].
        + unfold dedupClass. simpl. split; [auto | intros [?|[=]]; auto].
      - destruct (decide _) as [Hin|_]; [exfalso; apply Hnin, Hlit; exact Hin|].
        simpl. split; [reflexivity|]. split; intros k.
        + unfold dedupClass. simpl. split; [auto | intros [?|[=]]; auto].
        + rewrite elem_of_union, elem_of_singleton. unfold dedupClass. simpl.
          split; [intros [->|?]; auto | intros [?|[= ->]]; auto]. }
    destruct (decide (dedupClass h ∈ map dedupClass (merged d))) as [Hin|Hnin].
    + rewrite (Hseen Hin). split; [apply sublist_inserts_r; exact Hsub|].
      split; [exact Hnd|]. split; [exact Hvar|]. split; [exact Hlit|]. split.
      * intros h' Hh'. apply elem_of_app in Hh' as [Hh'|Hh']; [apply Hcov, Hh'|].
        apply list_elem_of_singleton in Hh' as ->. exact Hin.
      * intros i h' Hi Hnone. apply lookup_app_Some in Hi as [Hi|[Hlen Hi]].
        -- apply (Hfirst i h' Hi). intros j h'' Hj Hl. apply (Hnone j h'' Hj).
           apply lookup_app_l_Some. exact Hl.
        -- apply list_lookup_singleton_Some in Hi as [_ <-]. exfalso.
           apply list_elem_of_fmap in Hin as (m & Hm & Hmin).
           pose proof (sublist_submseteq _ _ Hsub) as Hs.
           assert (Hml : m ∈ l) by (eapply elem_of_submseteq; eassumption).
           apply list_elem_of_lookup in Hml as [j Hj].
           apply (Hnone j m).
           ++ apply lookup_lt_Some in Hj. lia.
           ++ apply lookup_app_l_Some. exact Hj.
           ++ symmetry. exact Hm.
    + destruct (Hnew Hnin) as (Hm & Hv' & Hl'). rewrite Hm.
      split; [apply sublist_app; [exact Hsub | reflexivity]|].
      split.
      { rewrite map_app. apply NoDup_app. split; [exact Hnd|]. split.
        - intros x Hx Hx'. simpl in Hx'. apply list_elem_of_singleton in Hx' as ->.
          contradiction.
        - apply NoDup_singleton. }
      split.
      { intros k. rewrite Hv', map_app, elem_of_app, (Hvar k). simpl.
        rewrite list_elem_of_singleton. reflexivity. }
      split.
      { intros k. rewrite Hl', map_app, elem_of_app, (Hlit k). simpl.
        rewrite list_elem_of_singleton. reflexivity. }
      split.
      * intros h' Hh'. rewrite map_app, elem_of_app.
        apply elem_of_app in Hh' as [Hh'|Hh']; [left; apply Hcov, Hh'|].
        apply list_elem_of_singleton in Hh' as ->. right. left.
      * intros i h' Hi Hnone. apply elem_of_app.
        apply lookup_app_Some in Hi as [Hi|[Hlen Hi]].
        -- left. apply (Hfirst i h' Hi). intros j h'' Hj Hl. apply (Hnone j h'' Hj).
           apply lookup_app_l_Some. exact Hl.
        -- apply list_lookup_singleton_Some in Hi as [_ <-]. right. left.
Qed.

(** Over hits of pairwise different classes, none of them seen, the loop
    keeps every hit. *)
Lemma foldl_dedupStep_fresh (l : list ColorHit) :
  forall d,
    NoDup (map dedupClass l) ->
    (forall h, h ∈ l -> isVarHit h = true -> dedupKey h ∉ varSeen d) ->
    (forall h, h ∈ l -> isVarHit h = false -> dedupKey h ∉ litSeen d) ->
    merged (foldl dedupStep d l) = merged d ++ l.
Proof.
  induction l as [|h l IH]; intros d Hnd Hv Hl; simpl; [rewrite app_nil_r; reflexivity|].
  apply NoDup_cons in Hnd as [Hh Hnd].
  assert (Hstep : merged (dedupStep d h) = merged d ++ [h] /\
                  (forall k, k ∈ varSeen (dedupStep d h) ->
                             k ∈ varSeen d \/ (true, k) = dedupClass h) /\
                  (forall k, k ∈ litSeen (dedupStep d h) ->
                             k ∈ litSeen d \/ (false, k) = dedupClass h)).
  { unfold dedupStep. destruct h as [n v f r us t | v f r us].
    - destruct (decide _) as [Hin|_]; [exfalso; apply (Hv _ ltac:(left) eq_refl Hin)|].
      simpl. split; [reflexivity|]. split; intros k.
      + rewrite elem_of_union, elem_of_singleton. intros [->|?]; auto.
      + auto.
    - destruct (decide _) as [Hin|_]; [exfalso; apply (Hl _ ltac:(left) eq_refl Hin)|].
      simpl. split; [reflexivity|]. split; intros k.
      + auto.
      + rewrite elem_of_union, elem_of_singleton. intros [->|?]; auto. }
  destruct Hstep as (Hm & Hv' & Hl').
  rewrite IH; [rewrite Hm, <- app_assoc; reflexivity | exact Hnd | |].
  - intros h' Hh' Hk Hin. apply Hv' in Hin as [Hin|Heq].
    + apply (Hv h' ltac:(right; exact Hh') Hk Hin).
    + apply Hh. rewrite <- Heq. apply list_elem_of_fmap. exists h'.
      split; [unfold dedupClass; rewrite Hk; reflexivity | exact Hh'].
  - intros h' Hh' Hk Hin. apply Hl' in Hin as [Hin|Heq].
    + apply (Hl h' ltac:(right; exact Hh') Hk Hin).
    + apply Hh. rewrite <- Heq. apply list_elem_of_fmap. exists h'.
      split; [unfold dedupClass; rewrite Hk; reflexivity | exact Hh'].
Qed.

(** X16: the de-duplication keeps, in their order, the first hit of every
    kind and key and nothing else: the result is a sublist of the hits in
    which no kind and key occurs twice, every hit has its kind and key in
    the result, and a hit with no hit of its kind and key before it is
    kept. *)
Theorem dedupe_keeps_first_of_each_key (allHits : list ColorHit) :
  sublist (dedupe allHits) allHits
  /\ NoDup (map dedupClass (dedupe allHits))
  /\ (forall h, h ∈ allHits -> dedupClass h ∈ map dedupClass (dedupe allHits))
  /\ (forall i h, allHits !! i = Some h ->
        (forall j h', (j < i)%nat -> allHits !! j = Some h' ->
                      dedupClass h' <> dedupClass h) ->
        h ∈ dedupe allHits).
Proof.
  destruct (dedup_state allHits) as (Hsub & Hnd & _ & _ & Hcov & Hfirst).
  unfold dedupe. auto.
Qed.

(** X17: de-duplicating twice changes nothing. *)
Theorem dedupe_idempotent (allHits : list ColorHit) :
  dedupe (dedupe allHits) = dedupe allHits.
Proof.
  destruct (dedup_state allHits) as (_ & Hnd & _ & _ & _ & _).
  unfold dedupe at 1.
  rewrite (foldl_dedupStep_fresh (dedupe allHits) (MkDedup ∅ ∅ []));
    [reflexivity | exact Hnd | |]; intros h _ _; simpl; apply not_elem_of_empty.
Qed.

End DedupFacts.

(** ** The binary search on any array *)

Module SearchFacts.
Import LineIndex LineIndexFacts.

(** The search returns [ans] or an index whose key passed the test. *)
Lemma bsearchLast_hit (key : Z -> option Z) (x lo hi ans : Z) :
  bsearchLast key x lo hi ans = ans \/
  (lo <= bsearchLast key x lo hi ans <= hi /\
   leDefined (key (bsearchLast key x lo hi ans)) x = true).
Proof.
  funelim (bsearchLast key x lo hi ans); [|left; reflexivity].
  clear Heqcall. pose proof (shiftr1_bounds lo hi l) as Hmid.
  destruct (leDefined (key (Z.shiftr (lo + hi) 1)) x) eqn:Hle.
  - destruct H as [-> | [? ?]]; right; (split; [lia | assumption]).
  - destruct H0 as [-> | [? ?]]; [left; reflexivity | right; split; [lia | assumption]].
Qed.

End SearchFacts.

(** ** The exclusion test on any list of spans *)

Module ExcludedFacts.
Import Js RegExp LineIndex Rev3 LineIndexFacts SearchFacts ExclusionFacts.

Lemma isExcluded_inv (spans : list Span) (a b : Z) :
  isExcluded spans a b = true ->
  exists s, s ∈ spans /\ spanStart s <= a < spanEnd s /\ spanStart s < b.
Proof.
  unfold isExcluded.
  destruct (bsearchLast_hit (fun mid => spanStart <$> lookupZ spans mid) a 0
              (Z.of_nat (length spans) - 1) (-1)) as [-> | [Hr Hle]]; [discriminate|].
  set (idx := bsearchLast _ a 0 _ (-1)) in *.
  destruct (Z.ltb_spec idx 0); [discriminate|].
  destruct (lookupZ spans idx) as [s|] eqn:Hs; [|discriminate].
  intros Hov. apply andb_true_iff in Hov as [H1 H2].
  apply Z.ltb_lt in H1, H2. simpl in Hle. apply Z.leb_le in Hle.
  exists s. split; [|lia].
  apply lookupZ_Some in Hs as [_ Hs]. eapply list_elem_of_lookup_2. exact Hs.
Qed.

(** X18: a range is excluded only if it starts inside a recorded span, for
    every list of spans; a range that starts before every span is not
    excluded even when it runs into one.  Over spans in order and apart the
    converse holds too. *)
Theorem isExcluded_iff_start_inside (spans : list Span) (a b : Z) :
  (isExcluded spans a b = true ->
   exists s, s ∈ spans /\ spanStart s <= a < spanEnd s /\ spanStart s < b)
  /\ ((forall s, s ∈ spans -> a < spanStart s) -> isExcluded spans a b = false)
  /\ (StronglySorted (fun s t => spanEnd s <= spanStart t) spans ->
      Forall (fun s => spanStart s < spanEnd s) spans ->
      (exists s, s ∈ spans /\ spanStart s <= a < spanEnd s /\ spanStart s < b) ->
      isExcluded spans a b = true).
Proof.
  split; [apply isExcluded_inv|]. split.
  - intros Hall. destruct (isExcluded spans a b) eqn:He; [|reflexivity].
    apply isExcluded_inv in He as (s & Hs & Ha & _). specialize (Hall s Hs). lia.
  - intros Hsorted Hne (sp & Hsp & Hx & Hy).
    set (d := MkSpan 0 0).
    set (n := Z.of_nat (length spans)).
    set (f := fun i : Z => spanStart (nth (Z.to_nat i) spans d)).
    assert (Hnth : forall i, 0 <= i < n -> lookupZ spans i = Some (nth (Z.to_nat i) spans d)).
    { intros i Hi. apply lookupZ_Some. split; [lia|].
      destruct (spans !! Z.to_nat i) as [s|] eqn:Hl.
      - rewrite (nth_lookup_Some spans (Z.to_nat i) d s Hl). reflexivity.
      - apply lookup_ge_None in Hl. lia. }
    assert (Hkey : forall i, 0 <= i < n ->
                     spanStart <$> lookupZ spans i = Some (f i)).
    { intros i Hi. rewrite (Hnth i Hi). reflexivity. }
    assert (Hstrict : forall i j, 0 <= i -> i < j -> j < n ->
                        spanEnd (nth (Z.to_nat i) spans d)
                        <= spanStart (nth (Z.to_nat j) spans d)).
    { intros i j Hi Hij Hj.
      apply (sorted_nth_rel _ d spans Hsorted (Z.to_nat i) (Z.to_nat j)); lia. }
    assert (Hpos : forall i, 0 <= i < n ->
                     spanStart (nth (Z.to_nat i) spans d)
                     < spanEnd (nth (Z.to_nat i) spans d)).
    { intros i Hi. rewrite Forall_forall in Hne. apply Hne, list_elem_of_In, nth_In. lia. }
    assert (Hmono : forall i j, 0 <= i -> i <= j -> j < n -> f i <= f j).
    { intros i j Hi Hij Hj. unfold f.
      destruct (Z.eq_dec i j) as [->|Hne']; [lia|].
      pose proof (Hstrict i j Hi ltac:(lia) Hj). pose proof (Hpos i ltac:(lia)). lia. }
    apply list_elem_of_In, (In_nth _ _ d) in Hsp as (j & Hj & Hjsp).
    pose proof (bsearchLast_spec _ f n a Hkey Hmono 0 (n - 1) (-1) ltac:(lia) ltac:(lia))
      as Hspec.
    unfold isExcluded. fold n.
    set (idx := bsearchLast (fun mid => spanStart <$> lookupZ spans mid) a 0 (n - 1) (-1)) in *.
    assert (Hfj : f (Z.of_nat j) <= a).
    { unfold f. rewrite Nat2Z.id, Hjsp. lia. }
    destruct Hspec as [[_ Hall] | (Hidx & Hfidx & Hall)].
    { specialize (Hall (Z.of_nat j) ltac:(lia)). lia. }
    assert (Hje : idx = Z.of_nat j).
    { destruct (Z.lt_trichotomy idx (Z.of_nat j)) as [Hlt | [Heq | Hgt]].
      - specialize (Hall (Z.of_nat j) ltac:(lia)). lia.
      - exact Heq.
      - pose proof (Hstrict (Z.of_nat j) idx ltac:(lia) Hgt ltac:(lia)) as Hend.
        rewrite Nat2Z.id, Hjsp in Hend. unfold f in Hfidx. lia. }
    destruct (Z.ltb_spec idx 0); [lia|].
    rewrite (Hnth idx ltac:(lia)), Hje, Nat2Z.id, Hjsp.
    apply andb_true_iff. split; apply Z.ltb_lt; lia.
Qed.

End ExcludedFacts.

(** ** Entries and counts of revision 3 *)

Module SummaryFacts.
Import Js Colors Rev3 Summary AggregateFacts.

Lemma makeColorKey_kind (o o' : ColorOccur) :
  makeColorKey o = makeColorKey o' -> isVar o = isVar o'.
Proof.
  destruct o, o'; simpl; intros Heq; try reflexivity; discriminate Heq.
Qed.

(** X19: an entry carries its key, and the kind, name and value of the
    first occurrence of that key, as that occurrence spells them; all its
    occurrences have the entry's key and kind, so a variable and a literal
    never share an entry. *)
Theorem entry_shows_first_occurrence (occByFile : list (list ColorOccur))
    (k : string) (e : ColorEntry) :
  aggregate occByFile !! k = Some e ->
  key e = k /\
  exists o1 rest,
    occurrences e = o1 :: rest /\
    entryIsVar e = isVar o1 /\ entryName e = occName o1 /\
    entryValue e = occValue o1 /\
    Forall (fun o => makeColorKey o = k /\ isVar o = entryIsVar e) (o1 :: rest).
Proof.
  rewrite aggregate_lookup.
  destruct (withKey k (concat occByFile)) as [|o1 rest] eqn:Hw; [discriminate|].
  intros [= <-]. simpl. split; [reflexivity|].
  exists o1, rest. repeat (split; [reflexivity|]).
  assert (Hall : Forall (fun o => makeColorKey o = k) (o1 :: rest)).
  { rewrite <- Hw. apply Forall_forall. intros o Ho.
    unfold withKey in Ho. apply list_elem_of_filter in Ho as [Ho _]. exact Ho. }
  apply Forall_cons in Hall as Hall'. destruct Hall' as [Hk1 _].
  eapply Forall_impl; [exact Hall|]. simpl. intros o Ho. split; [exact Ho|].
  apply makeColorKey_kind. congruence.
Qed.

(** The statement at [#FFF] and [#fff]: the entry shows [#FFF]. *)
Lemma entry_shows_first_occurrence_witness :
  key (MkEntry "lit:#fff" false None "#FFF"
         [OccLiteral "#FFF" "a.css" (MkRange 3 9 13) (MkUsage false None None 3);
          OccLiteral "#fff" "a.css" (MkRange 9 9 13) (MkUsage false None None 9)])
    = "lit:#fff" /\
  exists o1 rest,
    occurrences (MkEntry "lit:#fff" false None "#FFF"
         [OccLiteral "#FFF" "a.css" (MkRange 3 9 13) (MkUsage false None None 3);
          OccLiteral "#fff" "a.css" (MkRange 9 9 13) (MkUsage false None None 9)])
      = o1 :: rest /\
    false = isVar o1 /\ None = occName o1 /\ "#FFF" = occValue o1 /\
    Forall (fun o => makeColorKey o = "lit:#fff" /\ isVar o = false) (o1 :: rest).
Proof.
  apply (entry_shows_first_occurrence
           [[OccLiteral "#FFF" "a.css" (MkRange 3 9 13) (MkUsage false None None 3);
             OccLiteral "#fff" "a.css" (MkRange 9 9 13) (MkUsage false None None 9)]]
           "lit:#fff").
  rewrite aggregate_lookup. vm_compute. reflexivity.
Defined.

Lemma addFileKey_lookup (u : gmap string (gset string)) (e : ColorEntry)
    (o : ColorOccur) (f k : string) :
  k ∈ default ∅ (addFileKey u e o !! f) <->
  k ∈ default ∅ (u !! f) \/ (occFile o = f /\ key e = k).
Proof.
  unfold addFileKey. destruct (decide (occFile o = f)) as [<-|Hne].
  - rewrite lookup_insert_eq. simpl. rewrite elem_of_union, elem_of_singleton.
    split; [intros [->|?]; auto | intros [?|[_ <-]]; auto].
  - rewrite lookup_insert_ne by exact Hne. split; [auto | intros [?|[? _]]; [auto | contradiction]].
Qed.

Lemma foldl_addFileKey_lookup (e : ColorEntry) (occs : list ColorOccur) :
  forall (u : gmap string (gset string)) (f k : string),
    k ∈ default ∅ (foldl (fun u o => addFileKey u e o) u occs !! f) <->
    k ∈ default ∅ (u !! f) \/ (key e = k /\ exists o, o ∈ occs /\ occFile o = f).
Proof.
  induction occs as [|o occs IH]; intros u f k; simpl.
  - split; [auto | intros [?|[_ (o & Ho & _)]]; [auto | inversion Ho]].
  - rewrite IH, addFileKey_lookup. split.
    + intros [[?|[Hf Hk]]|[Hk (o' & Ho' & Hf)]]; [auto| |].
      * right. split; [exact Hk|]. exists o. split; [left | exact Hf].
      * right. split; [exact Hk|]. exists o'. split; [right; exact Ho' | exact Hf].
    + intros [?|[Hk (o' & Ho' & Hf)]]; [auto|].
      apply elem_of_cons in Ho' as [->|Ho']; [left; right; auto|].
      right. split; [exact Hk|]. exists o'. auto.
Qed.

Lemma foldl_entries_lookup (es : list ColorEntry) :
  forall (u : gmap string (gset string)) (f k : string),
    k ∈ default ∅
          (foldl (fun u e => foldl (fun u o => addFileKey u e o) u (occurrences e))
                 u es !! f) <->
    k ∈ default ∅ (u !! f) \/
    exists e, e ∈ es /\ key e = k /\ exists o, o ∈ occurrences e /\ occFile o = f.
Proof.
  induction es as [|e es IH]; intros u f k; simpl.
  - split; [auto | intros [?|(e & He & _)]; [auto | inversion He]].
  - rewrite IH, foldl_addFileKey_lookup. split.
    + intros [[?|[Hk Ho]]|(e' & He' & Hk & Ho)]; [auto| |].
      * right. exists e. split; [left | auto].
      * right. exists e'. split; [right; exact He' | auto].
    + intros [?|(e' & He' & Hk & Ho)]; [auto|].
      apply elem_of_cons in He' as [->|He']; [left; right; auto|].
      right. exists e'. auto.
Qed.

Lemma valuesOf_elem (es : list ColorEntry) (m : gmap string ColorEntry) (e : ColorEntry) :
  valuesOf es m -> (e ∈ es <-> exists k, m !! k = Some e).
Proof.
  unfold valuesOf. intros Hp. rewrite Hp, list_elem_of_fmap. split.
  - intros ([k e'] & -> & Hin). exists k. apply elem_of_map_to_list in Hin. exact Hin.
  - intros (k & Hk). exists (k, e). split; [reflexivity|].
    apply elem_of_map_to_list. exact Hk.
Qed.

Lemma aggregate_is_Some (occByFile : list (list ColorOccur)) (k : string) :
  is_Some (aggregate occByFile !! k) <->
  exists o, o ∈ concat occByFile /\ makeColorKey o = k.
Proof.
  rewrite aggregate_lookup.
  destruct (withKey k (concat occByFile)) as [|o1 rest] eqn:Hw; split.
  - intros [x Hx]. discriminate.
  - intros (o & Ho & Hk).
    assert (Hin : o ∈ withKey k (concat occByFile))
      by (apply list_elem_of_filter; split; assumption).
    rewrite Hw in Hin. inversion Hin.
  - intros _. exists o1.
    assert (Hin : o1 ∈ withKey k (concat occByFile)) by (rewrite Hw; left).
    apply list_elem_of_filter in Hin as [Hk Hin]. split; assumption.
  - intros _. eexists. reflexivity.
Qed.

Lemma aggregate_entry (occByFile : list (list ColorOccur)) (k : string)
    (e : ColorEntry) :
  aggregate occByFile !! k = Some e ->
  key e = k /\ occurrences e = withKey k (concat occByFile).
Proof.
  rewrite aggregate_lookup.
  destruct (withKey k (concat occByFile)); [discriminate|].
  intros [= <-]. split; reflexivity.
Qed.

(** X20: the number of colours is the number of different keys among the
    occurrences of all files, and the count shown for a file is the number
    of different keys among the occurrences of that file (0 for a file
    without occurrences). *)
Theorem counts_are_distinct_keys (occByFile : list (list ColorOccur))
    (allEntries : list ColorEntry) (f : string) :
  valuesOf allEntries (aggregate occByFile) ->
  totalColors allEntries
    = size (list_to_set (makeColorKey <$> concat occByFile) : gset string)
  /\ importCount (uniqueKeysPerFile allEntries) f
     = size (keysInFile f (concat occByFile)).
Proof.
  intros Hvals. split.
  - unfold totalColors. unfold valuesOf in Hvals. rewrite Hvals, length_fmap.
    rewrite length_map_to_list, <- (size_dom (D := gset string)). f_equal.
    apply set_eq. intros k. rewrite elem_of_dom, aggregate_is_Some, elem_of_list_to_set,
      list_elem_of_fmap.
    split; intros (o & H1 & H2); exists o; auto.
  - assert (Hset : default ∅ (uniqueKeysPerFile allEntries !! f)
                   = keysInFile f (concat occByFile)).
    { apply set_eq. intros k. unfold uniqueKeysPerFile, keysInFile.
      rewrite foldl_entries_lookup, lookup_empty, elem_of_list_to_set, list_elem_of_fmap.
      simpl. split.
      - intros [Hk|(e & He & Hk & o & Ho & Hf)]; [by apply not_elem_of_empty in Hk|].
        apply (valuesOf_elem _ _ _ Hvals) in He as [k' He].
        destruct (aggregate_entry _ _ _ He) as [Hke Hocc].
        rewrite Hke in Hk. subst k'.
        rewrite Hocc in Ho. unfold withKey in Ho.
        apply list_elem_of_filter in Ho as [Hok Ho].
        exists o. split; [symmetry; exact Hok|].
        apply list_elem_of_filter. split; assumption.
      - intros (o & Hk & Ho). apply list_elem_of_filter in Ho as [Hf Ho]. right.
        destruct (proj2 (aggregate_is_Some occByFile k)) as [e He];
          [exists o; split; [exact Ho | symmetry; exact Hk]|].
        exists e. split; [apply (valuesOf_elem _ _ _ Hvals); eauto|].
        destruct (aggregate_entry _ _ _ He) as [Hke Hocc].
        split; [exact Hke|].
        exists o. split; [|exact Hf]. rewrite Hocc.
        apply list_elem_of_filter. split; [symmetry; exact Hk | exact Ho]. }
    unfold importCount.
    destruct (uniqueKeysPerFile allEntries !! f) as [s|]; simpl in Hset; rewrite <- Hset;
      [reflexivity|].
    symmetry. apply size_empty.
Qed.

(** The statement at two spellings of white in one file and black in
    another. *)
Lemma counts_are_distinct_keys_witness :
  totalColors
    (map_to_list
       (aggregate [[OccLiteral "#FFF" "a.css" (MkRange 3 9 13) (MkUsage false None None 3);
                    OccLiteral "#fff" "a.css" (MkRange 9 9 13) (MkUsage false None None 9)];
                   [OccLiteral "#000" "b.css" (MkRange 1 9 13) (MkUsage false None None 1)]])).*2
    = size (list_to_set
              (makeColorKey <$>
               concat [[OccLiteral "#FFF" "a.css" (MkRange 3 9 13) (MkUsage false None None 3);
                        OccLiteral "#fff" "a.css" (MkRange 9 9 13) (MkUsage false None None 9)];
                       [OccLiteral "#000" "b.css" (MkRange 1 9 13) (MkUsage false None None 1)]])
            : gset string)
  /\ importCount
       (uniqueKeysPerFile
          (map_to_list
             (aggregate [[OccLiteral "#FFF" "a.css" (MkRange 3 9 13) (MkUsage false None None 3);
                          OccLiteral "#fff" "a.css" (MkRange 9 9 13) (MkUsage false None None 9)];
                         [OccLiteral "#000" "b.css" (MkRange 1 9 13) (MkUsage false None None 1)]])).*2)
       "a.css"
     = size (keysInFile "a.css"
               (concat [[OccLiteral "#FFF" "a.css" (MkRange 3 9 13) (MkUsage false None None 3);
                         OccLiteral "#fff" "a.css" (MkRange 9 9 13) (MkUsage false None None 9)];
                        [OccLiteral "#000" "b.css" (MkRange 1 9 13) (MkUsage false None None 1)]])).
Proof.
  apply (counts_are_distinct_keys
           [[OccLiteral "#FFF" "a.css" (MkRange 3 9 13) (MkUsage false None None 3);
             OccLiteral "#fff" "a.css" (MkRange 9 9 13) (MkUsage false None None 9)];
            [OccLiteral "#000" "b.css" (MkRange 1 9 13) (MkUsage false None None 1)]]).
  unfold valuesOf. reflexivity.
Defined.

End SummaryFacts.

(** ** The key normalisation: what it ignores *)

Module KeyFacts.
Import Js RegExp Colors NormalizeFacts.

Lemma isSpace_toLowerChar (c : ascii) : isSpace (toLowerChar c) = isSpace c.
Proof. destruct c as [[] [] [] [] [] [] [] []]; reflexivity. Qed.

Lemma toLowerChar_idem (c : ascii) : toLowerChar (toLowerChar c) = toLowerChar c.
Proof. destruct c as [[] [] [] [] [] [] [] []]; reflexivity. Qed.

Lemma toLowerCase_idem (s : string) : toLowerCase (toLowerCase s) = toLowerCase s.
Proof.
  induction s as [|c tl IH]; simpl; [reflexivity|].
  rewrite toLowerChar_idem, IH. reflexivity.
Qed.

Lemma toLowerCase_trimStart (s : string) :
  toLowerCase (trimStart s) = trimStart (toLowerCase s).
Proof.
  induction s as [|c tl IH]; simpl; [reflexivity|].
  rewrite isSpace_toLowerChar. destruct (isSpace c); [exact IH | reflexivity].
Qed.

Lemma toLowerCase_trimEnd (s : string) :
  toLowerCase (trimEnd s) = trimEnd (toLowerCase s).
Proof.
  induction s as [|c tl IH]; [reflexivity|].
  cbn [trimEnd toLowerCase]. rewrite <- IH, isSpace_toLowerChar.
  destruct (trimEnd tl) as [|d t]; [destruct (isSpace c)|]; reflexivity.
Qed.

Lemma toLowerCase_trim (s : string) : toLowerCase (trim s) = trim (toLowerCase s).
Proof. unfold trim. rewrite toLowerCase_trimEnd, toLowerCase_trimStart. reflexivity. Qed.

(** A text in lower case stays in lower case when its whitespace is
    removed. *)
Lemma removeSpaces_lowered (w : string) :
  toLowerCase w = w -> toLowerCase (removeSpaces w) = removeSpaces w.
Proof.
  induction w as [|c tl IH]; [reflexivity|]. simpl.
  intros [= Hc Htl]. destruct (isSpace c); [exact (IH Htl)|].
  simpl. rewrite Hc, (IH Htl). reflexivity.
Qed.

Lemma removeSpaces_no_space (s : string) (k : nat) (c : ascii) :
  String.get k (removeSpaces s) = Some c -> isSpace c = false.
Proof.
  revert k. induction s as [|a tl IH]; intros k; simpl; [destruct k; discriminate|].
  destruct (isSpace a) eqn:Ha; [apply IH|].
  destruct k as [|k]; simpl; [intros [= <-]; exact Ha | apply IH].
Qed.

Lemma removeSpaces_idem (s : string) : removeSpaces (removeSpaces s) = removeSpaces s.
Proof.
  induction s as [|c tl IH]; simpl; [reflexivity|].
  destruct (isSpace c) eqn:Hc; simpl; [exact IH | rewrite Hc, IH; reflexivity].
Qed.

Lemma removeSpaces_trimStart (s : string) : removeSpaces (trimStart s) = removeSpaces s.
Proof.
  induction s as [|c tl IH]; simpl; [reflexivity|].
  destruct (isSpace c) eqn:Hc; [exact IH|]. simpl. rewrite Hc. reflexivity.
Qed.

Lemma removeSpaces_trimEnd (s : string) : removeSpaces (trimEnd s) = removeSpaces s.
Proof.
  induction s as [|c tl IH]; [reflexivity|].
  cbn [trimEnd]. destruct (trimEnd tl) as [|d t] eqn:Ht.
  - simpl in IH. cbn [removeSpaces]. destruct (isSpace c) eqn:Hc.
    + simpl. exact IH.
    + simpl. rewrite Hc, <- IH. reflexivity.
  - cbn [removeSpaces] in *. rewrite IH. reflexivity.
Qed.

Lemma removeSpaces_trim (s : string) : removeSpaces (trim s) = removeSpaces s.
Proof. unfold trim. rewrite removeSpaces_trimEnd, removeSpaces_trimStart. reflexivity. Qed.

Lemma normalizeColorKey_plain (value : string) :
  normalizeColorKey value = removeSpaces (toLowerCase value).
Proof.
  rewrite normalizeColorKey_spec, toLowerCase_trim, removeSpaces_trim.
  reflexivity.
Qed.

(** X21: the trimming of [normalizeColorKey] has no effect of its own: the
    key is the lowercased value without its whitespace; the key of a key is
    the key itself; the key ignores the case of the value; and the key is in
    lower case and holds no whitespace. *)
Theorem normalizeColorKey_idempotent :
  (forall value, normalizeColorKey value = removeSpaces (toLowerCase value))
  /\ (forall value, normalizeColorKey (normalizeColorKey value) = normalizeColorKey value)
  /\ (forall value, normalizeColorKey (toLowerCase value) = normalizeColorKey value)
  /\ (forall value,
        toLowerCase (normalizeColorKey value) = normalizeColorKey value /\
        forall k c, String.get k (normalizeColorKey value) = Some c -> isSpace c = false).
Proof.
  split; [exact normalizeColorKey_plain|]. split; [|split].
  - intros value. rewrite !normalizeColorKey_plain.
    rewrite (removeSpaces_lowered _ (toLowerCase_idem value)).
    apply removeSpaces_idem.
  - intros value. rewrite !normalizeColorKey_plain, toLowerCase_idem. reflexivity.
  - intros value. rewrite normalizeColorKey_plain. split.
    + apply removeSpaces_lowered, toLowerCase_idem.
    + intros k c. apply removeSpaces_no_space.
Qed.

End KeyFacts.

(** ** Candidates of followable specifiers *)

Module CandidateFacts.
Import Js RegExp Imports SpecifierNotions JsFacts.

Lemma prefix_trimEnd (p : string) :
  forall s, noSpace p = true -> String.prefix p s = true ->
            String.prefix p (trimEnd s) = true.
Proof.
  induction p as [|a p IH]; intros s Hp Hs; [destruct (trimEnd s); reflexivity|].
  destruct s as [|b s]; [discriminate|]. simpl in Hs, Hp.
  apply andb_true_iff in Hp as [Ha Hp]. apply negb_true_iff in Ha.
  destruct (ascii_dec a b) as [<-|]; [|discriminate].
  specialize (IH s Hp Hs). cbn [trimEnd].
  destruct (trimEnd s) as [|d t].
  - rewrite Ha. simpl. destruct (ascii_dec a a); [|contradiction].
    destruct p; [reflexivity | discriminate].
  - simpl. destruct (ascii_dec a a); [exact IH | contradiction].
Qed.

Lemma prefix_trim (p s : string) :
  p <> "" -> noSpace p = true -> startsWith s p = true -> startsWith (trim s) p = true.
Proof.
  unfold startsWith, trim. intros Hne Hp Hs.
  apply prefix_trimEnd; [exact Hp|].
  destruct p as [|a p]; [contradiction|]. destruct s as [|b s]; [discriminate|].
  simpl in Hs, Hp. apply andb_true_iff in Hp as [Ha _]. apply negb_true_iff in Ha.
  destruct (ascii_dec a b) as [<-|] eqn:Hd; [|discriminate].
  cbn [trimStart]. rewrite Ha. simpl. rewrite Hd. exact Hs.
Qed.

Lemma resolveWithExtensions_length (H : Host) (raw : Uri) (sp : string) :
  length (resolveWithExtensions H raw sp) = if test hasExtRe sp then 1%nat else 24%nat.
Proof.
  unfold resolveWithExtensions. destruct (test hasExtRe sp); [reflexivity|].
  rewrite length_app, !length_map. reflexivity.
Qed.

(** The branches of [resolveImportCandidates]. *)
Lemma resolveImportCandidates_cases (H : Host) (wsRoot base : Uri) (sp : string)
    (k : ImportKind) :
  (resolveImportCandidates H wsRoot base sp k = [] /\
   isCssKind k = false /\ startsWith (trim sp) "/" = false /\
   startsWith (trim sp) "@/" = false /\ startsWith (trim sp) "~/" = false /\
   startsWith (trim sp) "./" = false /\ startsWith (trim sp) "../" = false)
  \/ (exists raw,
        resolveImportCandidates H wsRoot base sp k
          = resolveWithExtensions H raw (trim sp) /\
        (isCssKind k = true \/ startsWith (trim sp) "/" = true \/
         startsWith (trim sp) "@/" = true \/ startsWith (trim sp) "~/" = true \/
         startsWith (trim sp) "./" = true \/ startsWith (trim sp) "../" = true)).
Proof.
  unfold resolveImportCandidates.
  destruct (startsWith (trim sp) "/") eqn:H1; [right; eexists; split; [reflexivity | auto]|].
  destruct (startsWith (trim sp) "@/") eqn:H2; [right; eexists; split; [reflexivity | auto]|].
  destruct (startsWith (trim sp) "~/") eqn:H3;
    [right; eexists; split; [reflexivity | auto 10]|].
  destruct (startsWith (trim sp) "./") eqn:H4;
    [right; eexists; split; [reflexivity | auto 10]|].
  destruct (startsWith (trim sp) "../") eqn:H5;
    [right; eexists; split; [reflexivity | auto 10]|].
  destruct (isCssKind k) eqn:H6; [right; eexists; split; [reflexivity | auto]|].
  left. simpl. auto 10.
Qed.

Lemma resolveWithExtensions_nonempty (H : Host) (raw : Uri) (sp : string) :
  resolveWithExtensions H raw sp <> [].
Proof.
  intros He. apply (f_equal length) in He. rewrite resolveWithExtensions_length in He.
  destruct (test hasExtRe sp); discriminate.
Qed.

(** X22: a specifier that [isFollowable] accepts, in any revision, has
    candidates: one if the specifier ends in an extension, 24 otherwise.
    [resolveImportCandidates] gives no candidate exactly for a script import
    whose trimmed specifier has none of the five prefixes. *)
Theorem followable_has_candidates (H : Host) (wsRoot base : Uri) (sp : string)
    (k : ImportKind) :
  (Imports.isFollowable sp k = true \/ Rev3.isFollowable sp k = true ->
   length (resolveImportCandidates H wsRoot base sp k)
     = if test hasExtRe (trim sp) then 1%nat else 24%nat)
  /\ (resolveImportCandidates H wsRoot base sp k = [] <->
      isCssKind k = false /\ startsWith (trim sp) "/" = false /\
      startsWith (trim sp) "@/" = false /\ startsWith (trim sp) "~/" = false /\
      startsWith (trim sp) "./" = false /\ startsWith (trim sp) "../" = false).
Proof.
  destruct (resolveImportCandidates_cases H wsRoot base sp k)
    as [(He & Hk & H1 & H2 & H3 & H4 & H5) | (raw & He & Hsome)].
  - split; [|split; [intros _; auto 10 | intros _; exact He]].
    intros Hf. exfalso.
    assert (Hp : forall p, p <> "" -> noSpace p = true -> startsWith sp p = true ->
                           startsWith (trim sp) p = true) by (intros p; apply prefix_trim).
    assert (Hany : startsWith sp "./" = true \/ startsWith sp "../" = true \/
                   startsWith sp "/" = true \/ startsWith sp "@/" = true \/
                   startsWith sp "~/" = true).
    { destruct Hf as [Hf|Hf]; [unfold Imports.isFollowable in Hf | unfold Rev3.isFollowable in Hf];
        rewrite Hk in Hf; simpl in Hf;
        destruct (startsWith sp "./"); auto;
        destruct (startsWith sp "../"); auto;
        destruct (startsWith sp "/"); auto;
        destruct (startsWith sp "@/"); auto;
        destruct (startsWith sp "~/"); auto 10; discriminate. }
    destruct Hany as [Ha|[Ha|[Ha|[Ha|Ha]]]];
      apply Hp in Ha; try reflexivity; try discriminate; congruence.
  - split; [intros _; rewrite He; apply resolveWithExtensions_length|].
    split.
    + intros Hnil. rewrite He in Hnil.
      exfalso. exact (resolveWithExtensions_nonempty _ _ _ Hnil).
    + intros (Hk & H1 & H2 & H3 & H4 & H5). exfalso.
      destruct Hsome as [Hs|[Hs|[Hs|[Hs|[Hs|Hs]]]]]; congruence.
Qed.

End CandidateFacts.

(** ** What every occurrence of the scanner satisfies *)

Module OccurrenceFacts.
Import Js RegExp LineIndex Imports Colors Rev3 LineIndexFacts LineTextFacts ExclusionFacts.

Section Scanner.
Context (findCssContext : string -> list Z -> Z -> option string * option string)
        (findJsxScopeAround : string -> list Z -> Z -> option string)
        (findJsPropertyKeyBeforeCol : string -> Z -> option string).

#[local] Abbreviation scan :=
  (scanTextForColorOccurrences findCssContext findJsxScopeAround
     findJsPropertyKeyBeforeCol).

Lemma offsetToLine0_bounds (text : string) (offset : Z) :
  0 <= offsetToLine0 (buildLineStartIndex text) offset
    <= Z.of_nat (length (buildLineStartIndex text)) - 1.
Proof.
  assert (Hr : offsetToLine0 (buildLineStartIndex text) offset = 0 \/
               0 <= offsetToLine0 (buildLineStartIndex text) offset
                 <= Z.of_nat (length (buildLineStartIndex text)) - 1)
    by apply bsearchLast_range.
  assert (H1 : (1 <= length (buildLineStartIndex text))%nat) by (simpl; lia).
  lia.
Qed.

(** X23: every occurrence the scanner emits for a text and its line index
    names the scanned file, has a value that is not empty, a line between 1
    and the number of lines, the same line in its range and in its usage,
    and columns that are not negative; only variable occurrences are
    definitions. *)
Theorem occurrences_well_formed (text file : string) (table : gmap string string)
    (o : ColorOccur) :
  o ∈ scan text (buildLineStartIndex text) file table ->
  occFile o = file
  /\ occValue o <> ""
  /\ 1 <= line (occRange o) <= Z.of_nat (length (buildLineStartIndex text))
  /\ usageLine (occUsage o) = line (occRange o)
  /\ 0 <= startCol (occRange o)
  /\ 0 <= endCol (occRange o)
  /\ (isDefinition (occUsage o) = true -> isVar o = true).
Proof.
  assert (Hshape : forall a b isDef,
            1 <= line (rangeAt (buildLineStartIndex text) a b)
              <= Z.of_nat (length (buildLineStartIndex text))
            /\ usageLine (usageAt findCssContext findJsxScopeAround
                            findJsPropertyKeyBeforeCol text (buildLineStartIndex text)
                            file isDef a)
               = line (rangeAt (buildLineStartIndex text) a b)
            /\ 0 <= startCol (rangeAt (buildLineStartIndex text) a b)
            /\ 0 <= endCol (rangeAt (buildLineStartIndex text) a b)).
  { intros a b isDef. pose proof (offsetToLine0_bounds text a).
    unfold rangeAt, usageAt. cbv zeta. cbn [line startCol endCol usageLine].
    unfold offsetToCol. repeat split; lia. }
  assert (Hlit : forall re, re ∈ literalGrammars ->
            o ∈ literalOccurrences findCssContext findJsxScopeAround
                  findJsPropertyKeyBeforeCol text (buildLineStartIndex text) file re ->
            occFile o = file
            /\ occValue o <> ""
            /\ 1 <= line (occRange o) <= Z.of_nat (length (buildLineStartIndex text))
            /\ usageLine (occUsage o) = line (occRange o)
            /\ 0 <= startCol (occRange o)
            /\ 0 <= endCol (occRange o)
            /\ (isDefinition (occUsage o) = true -> isVar o = true)).
  { intros re Hre Ho. unfold literalOccurrences in Ho.
    apply list_elem_of_fmap in Ho as (m & -> & Hm).
    unfold literalMatches in Hm. apply list_elem_of_filter in Hm as [_ Hm].
    pose proof (literal_match_nonempty re text m Hre Hm) as Hlen.
    unfold literalOccurrence. simpl.
    split; [reflexivity|]. split; [intros He; rewrite He in Hlen; simpl in Hlen; lia|].
    destruct (Hshape (Z.of_nat (m_index m))
                (Z.of_nat (m_index m) + Z.of_nat (String.length (m_text m))) false)
      as (H1 & H2 & H3 & H4).
    repeat (split; [assumption|]). discriminate. }
  unfold scanTextForColorOccurrences. rewrite !elem_of_app.
  intros [Hd | [Hr | [Hl | [Hl | Hl]]]].
  - unfold varDefOccurrences in Hd. apply list_elem_of_fmap in Hd as (h & -> & Hh).
    unfold varDefHits in Hh. apply list_elem_of_omap in Hh as (m & _ & Hm).
    unfold varDefHit in Hm.
    destruct (decide (extractFirstColorToken (trim (groupText m 2)) = "")) as [|Hne];
      [discriminate|].
    destruct (indexOf _ (m_text m)) as [inner|]; [|discriminate].
    injection Hm as <-. simpl.
    split; [reflexivity|]. split; [exact Hne|].
    destruct (Hshape (Z.of_nat (m_index m) + Z.of_nat inner)
                (Z.of_nat (m_index m) + Z.of_nat inner
                 + Z.of_nat (String.length (extractFirstColorToken (trim (groupText m 2)))))
                true) as (H1 & H2 & H3 & H4).
    repeat (split; [assumption|]). reflexivity.
  - unfold varRefOccurrences in Hr. apply list_elem_of_omap in Hr as (m & _ & Hm).
    unfold varRefOccurrence in Hm.
    destruct (table !! groupText m 1) as [resolved|]; [|discriminate].
    destruct (decide (resolved = "")) as [|Hne]; [discriminate|].
    injection Hm as <-. simpl.
    split; [reflexivity|]. split; [exact Hne|].
    destruct (Hshape (Z.of_nat (m_index m))
                (Z.of_nat (m_index m) + Z.of_nat (String.length (m_text m))) false)
      as (H1 & H2 & H3 & H4).
    repeat (split; [assumption|]). discriminate.
  - apply (Hlit hexRegex); [left | exact Hl].
  - apply (Hlit rgbRegex); [right; left | exact Hl].
  - apply (Hlit hslRegex); [right; right; left | exact Hl].
Qed.

End Scanner.

(** The statement at the literal of [borderSheet]. *)
Lemma occurrences_well_formed_witness :
  occFile (OccLiteral "#aabbcc" "a.css" (MkRange 2 15 22) (MkUsage false None None 2)) = "a.css"
  /\ occValue (OccLiteral "#aabbcc" "a.css" (MkRange 2 15 22) (MkUsage false None None 2)) <> ""
  /\ 1 <= line (occRange (OccLiteral "#aabbcc" "a.css" (MkRange 2 15 22) (MkUsage false None None 2)))
       <= Z.of_nat (length (buildLineStartIndex borderSheet))
  /\ usageLine (occUsage (OccLiteral "#aabbcc" "a.css" (MkRange 2 15 22) (MkUsage false None None 2)))
     = line (occRange (OccLiteral "#aabbcc" "a.css" (MkRange 2 15 22) (MkUsage false None None 2)))
  /\ 0 <= startCol (occRange (OccLiteral "#aabbcc" "a.css" (MkRange 2 15 22) (MkUsage false None None 2)))
  /\ 0 <= endCol (occRange (OccLiteral "#aabbcc" "a.css" (MkRange 2 15 22) (MkUsage false None None 2)))
  /\ (isDefinition (occUsage (OccLiteral "#aabbcc" "a.css" (MkRange 2 15 22) (MkUsage false None None 2))) = true ->
      isVar (OccLiteral "#aabbcc" "a.css" (MkRange 2 15 22) (MkUsage false None None 2)) = true).
Proof.
  apply (occurrences_well_formed (fun _ _ _ => (None, None)) (fun _ _ _ => None)
           (fun _ _ => None) borderSheet "a.css" ∅).
  vm_compute. apply list_elem_of_In. simpl. auto.
Defined.

End OccurrenceFacts.

(** ** Captured groups lie in the match *)

Module GroupFacts.
Import Js RegExp MatchNotions RegExpFacts.

Lemma append_cons (c : ascii) (s t : string) : String c s +:+ t = String c (s +:+ t).
Proof. reflexivity. Qed.

Lemma append_nil_r (s : string) : s +:+ "" = s.
Proof.
  induction s as [|c s IH]; [reflexivity|]. rewrite append_cons. f_equal. exact IH.
Qed.

Lemma substring_refl (s : string) : substring s s.
Proof. exists "", "". simpl. rewrite append_nil_r. reflexivity. Qed.

Lemma substring_trans (a b c : string) : substring a b -> substring b c -> substring a c.
Proof.
  intros (p1 & q1 & ->) (p2 & q2 & ->). exists (p2 +:+ p1), (q1 +:+ q2).
  rewrite !append_assoc. reflexivity.
Qed.

Lemma substring_nil (w : string) : substring "" w.
Proof. exists "", w. reflexivity. Qed.

Lemma trimStart_suffix (s : string) : exists pre, s = pre +:+ trimStart s.
Proof.
  induction s as [|c s IH]; [exists ""; reflexivity|]. simpl.
  destruct (isSpace c); [|exists ""; reflexivity].
  destruct IH as [pre Hpre]. exists (String c pre). rewrite append_cons. f_equal. exact Hpre.
Qed.

Lemma trimEnd_prefix (s : string) : exists post, s = trimEnd s +:+ post.
Proof.
  induction s as [|c s IH]; [exists ""; reflexivity|]. cbn [trimEnd].
  destruct IH as [post Hpost]. destruct (trimEnd s) as [|d t].
  - destruct (isSpace c); [exists (String c s); reflexivity|].
    exists s. reflexivity.
  - exists post. rewrite append_cons. f_equal. exact Hpost.
Qed.

Lemma trim_substring (s : string) : substring (trim s) s.
Proof.
  unfold trim. destruct (trimStart_suffix s) as [pre Hpre].
  destruct (trimEnd_prefix (trimStart s)) as [post Hpost].
  exists pre, post. rewrite <- Hpost. exact Hpre.
Qed.

Lemma prefix_append_l (v post : string) : String.prefix v (v +:+ post) = true.
Proof.
  induction v as [|c v IH]; simpl; [destruct post; reflexivity|].
  destruct (ascii_dec c c); [exact IH | contradiction].
Qed.

Lemma indexOf_unfold (v w : string) :
  indexOf v w =
  if String.prefix v w then Some O
  else match w with
       | String _ tl => S <$> indexOf v tl
       | EmptyString => None
       end.
Proof. destruct w; reflexivity. Qed.

Lemma indexOf_substring (v w : string) : substring v w -> is_Some (indexOf v w).
Proof.
  intros (pre & post & ->). induction pre as [|c pre IH].
  - change ("" +:+ v +:+ post) with (v +:+ post).
    rewrite indexOf_unfold, prefix_append_l. eauto.
  - rewrite append_cons, indexOf_unfold.
    destruct (String.prefix v _); [eauto|]. destruct IH as [i ->]. simpl. eauto.
Qed.

Lemma sliceTo_sliceFrom (n : nat) (s : string) : s = sliceTo n s +:+ sliceFrom n s.
Proof.
  revert s. induction n as [|n IH]; intros s; [destruct s; reflexivity|].
  destruct s as [|c s]; [reflexivity|]. simpl. rewrite append_cons. f_equal. apply IH.
Qed.

Lemma sliceTo_app_le (n : nat) (w r : string) :
  (n <= String.length w)%nat -> sliceTo n (w +:+ r) = sliceTo n w.
Proof.
  revert w. induction n as [|n IH]; intros w Hn; [destruct w, r; reflexivity|].
  destruct w as [|c w]; simpl in *; [lia|]. f_equal. apply IH. lia.
Qed.

Lemma sliceFrom_app_le (n : nat) (w r : string) :
  (n <= String.length w)%nat -> sliceFrom n (w +:+ r) = sliceFrom n w +:+ r.
Proof.
  revert w. induction n as [|n IH]; intros w Hn; [reflexivity|].
  destruct w as [|c w]; simpl in *; [lia|]. apply IH. lia.
Qed.

Lemma sliceFrom_length (n : nat) (s : string) :
  String.length (sliceFrom n s) = (String.length s - n)%nat.
Proof.
  revert s. induction n as [|n IH]; intros s; [simpl; lia|].
  destruct s as [|c s]; [reflexivity|]. simpl. apply IH.
Qed.

Lemma slice_substring (a b : nat) (w r : string) :
  (b <= String.length w)%nat -> substring (slice a b (w +:+ r)) w.
Proof.
  intros Hb. unfold slice. destruct (Nat.le_gt_cases a b) as [Hab|Hab].
  - rewrite sliceFrom_app_le by lia.
    rewrite sliceTo_app_le by (rewrite sliceFrom_length; lia).
    exists (sliceTo a w), (sliceFrom (b - a) (sliceFrom a w)).
    rewrite <- sliceTo_sliceFrom. apply sliceTo_sliceFrom.
  - replace (b - a)%nat with O by lia.
    assert (H0 : forall s, sliceTo 0 s = "") by (intros []; reflexivity).
    rewrite H0. apply substring_nil.
Qed.

Lemma capsIn_advance (lo : nat) (st st' : mstate) :
  m_caps st' = m_caps st -> (m_pos st <= m_pos st')%nat -> capsIn lo st -> capsIn lo st'.
Proof.
  unfold capsIn. intros -> Hpos Hc. eapply Forall_impl; [exact Hc|].
  simpl. intros c (H1 & H2 & H3). repeat split; lia.
Qed.

Lemma starGreedy_caps (p : ascii -> bool) (k : mstate -> option mstate)
    (caps : list (nat * (nat * nat))) (rest : string) :
  forall pos prev res,
    starGreedy p k caps pos prev rest = Some res ->
    exists st', m_caps st' = caps /\ (pos <= m_pos st')%nat /\ k st' = Some res.
Proof.
  induction rest as [|c tl IH]; intros pos prev res; simpl.
  - intros Hk. eexists. split; [|split; [|exact Hk]]; [reflexivity | simpl; lia].
  - destruct (p c).
    + destruct (starGreedy p k caps (S pos) (Some c) tl) as [r|] eqn:Hrec.
      * intros [= <-]. destruct (IH _ _ _ Hrec) as (st' & Hc & Hp & Hk).
        exists st'. split; [exact Hc|]. split; [lia | exact Hk].
      * intros Hk. eexists. split; [|split; [|exact Hk]]; [reflexivity | simpl; lia].
    + intros Hk. eexists. split; [|split; [|exact Hk]]; [reflexivity | simpl; lia].
Qed.

Lemma starLazy_caps (p : ascii -> bool) (k : mstate -> option mstate)
    (caps : list (nat * (nat * nat))) (rest : string) :
  forall pos prev res,
    starLazy p k caps pos prev rest = Some res ->
    exists st', m_caps st' = caps /\ (pos <= m_pos st')%nat /\ k st' = Some res.
Proof.
  induction rest as [|c tl IH]; intros pos prev res; simpl.
  - destruct (k (MState pos prev "" caps)) as [r|] eqn:Hk; [|discriminate].
    intros [= <-]. eexists. split; [|split; [|exact Hk]]; [reflexivity | simpl; lia].
  - destruct (k (MState pos prev (String c tl) caps)) as [r|] eqn:Hk.
    + intros [= <-]. eexists. split; [|split; [|exact Hk]]; [reflexivity | simpl; lia].
    + destruct (p c); [|discriminate]. intros Hrec.
      destruct (IH _ _ _ Hrec) as (st' & Hc & Hp & Hk').
      exists st'. split; [exact Hc|]. split; [lia | exact Hk'].
Qed.

(** A successful match records capture spans between the position it
    started at and the position it reached. *)
Lemma rmatch_caps (r : regex) (lo : nat) :
  forall st k res,
    rmatch r st k = Some res -> capsIn lo st -> (lo <= m_pos st)%nat ->
    exists st', capsIn lo st' /\ (m_pos st <= m_pos st')%nat /\ k st' = Some res.
Proof.
  induction r as [|p|r1 IH1 r2 IH2|r1 IH1 r2 IH2|g p|i r1 IH1| | |];
    intros st k res; simpl.
  - intros Hk Hc Hlo. exists st. auto.
  - destruct st as [pos prev rest caps]. simpl.
    destruct rest as [|c tl]; [discriminate|].
    destruct (p c); [|discriminate]. intros Hk Hc Hlo.
    eexists. split; [|split; [|exact Hk]]; [|simpl; lia].
    eapply capsIn_advance; [| |exact Hc]; simpl; [reflexivity | lia].
  - intros Hm Hc Hlo. destruct (IH1 _ _ _ Hm Hc Hlo) as (st1 & Hc1 & Hp1 & Hm2).
    destruct (IH2 _ _ _ Hm2 Hc1 ltac:(lia)) as (st2 & Hc2 & Hp2 & Hk).
    exists st2. split; [exact Hc2|]. split; [lia | exact Hk].
  - destruct (rmatch r1 st k) as [r|] eqn:H1.
    + intros [= <-]. apply IH1. exact H1.
    + apply IH2.
  - destruct st as [pos prev rest caps]. simpl. intros Hs Hc Hlo.
    assert (Hstar : exists st', m_caps st' = caps /\ (pos <= m_pos st')%nat /\
                                k st' = Some res).
    { destruct g; [eapply starGreedy_caps | eapply starLazy_caps]; exact Hs. }
    destruct Hstar as (st' & Hcaps & Hpos & Hk).
    exists st'. split; [|split; [exact Hpos | exact Hk]].
    eapply capsIn_advance; [| |exact Hc]; simpl; assumption.
  - intros Hm Hc Hlo. destruct (IH1 _ _ _ Hm Hc Hlo) as (st' & Hc' & Hp' & Hk).
    eexists. split; [|split; [|exact Hk]]; [|simpl; exact Hp'].
    unfold capsIn in *. simpl. constructor; [simpl; lia | exact Hc'].
  - destruct (Nat.eqb (m_pos st) 0); [|discriminate]. intros Hk Hc Hlo. exists st. auto.
  - destruct (m_rest st); [|discriminate]. intros Hk Hc Hlo. exists st. auto.
  - destruct (xorb _ _); [|discriminate]. intros Hk Hc Hlo. exists st. auto.
Qed.

(** The groups of a match are parts of its text. *)
Lemma execAt_groups (r : regex) (pos : nat) (prev : option ascii) (rest : string)
    (m : Match) (i : nat) (g : string) :
  execAt r pos prev rest = Some m -> (i, g) ∈ m_groups m -> substring g (m_text m).
Proof.
  unfold execAt. destruct (rmatch r (MState pos prev rest []) Some) as [st|] eqn:Hm;
    [|discriminate].
  intros [= <-] Hg.
  destruct (rmatch_advances r _ _ _ Hm) as (st1 & (w & Hr & Hp & _) & [= ->]).
  destruct (rmatch_caps r pos _ _ _ Hm) as (st2 & Hc & _ & [= ->]);
    [constructor | simpl; lia|].
  simpl in *. subst rest. rewrite Hp.
  replace (pos + String.length w - pos)%nat with (String.length w) by lia.
  rewrite sliceTo_append.
  apply list_elem_of_fmap in Hg as (c & [= -> ->] & Hcin).
  unfold capsIn in Hc. rewrite Forall_forall in Hc. destruct (Hc c Hcin) as (H1 & H2 & H3).
  apply slice_substring. lia.
Qed.

Lemma matchAllFrom_execAt (r : regex) (rest : string) :
  forall skip pos prev m,
    m ∈ matchAllFrom r skip pos prev rest ->
    exists pos' prev' rest', execAt r pos' prev' rest' = Some m.
Proof.
  induction rest as [|c tl IH]; intros skip pos prev m.
  - destruct skip as [|n]; simpl; [|intros Hm; inversion Hm].
    destruct (execAt r pos prev "") as [m'|] eqn:He; [|intros Hm; inversion Hm].
    intros Hm. apply list_elem_of_singleton in Hm as ->. eauto.
  - destruct skip as [|n]; simpl; [|apply IH].
    destruct (execAt r pos prev (String c tl)) as [m'|] eqn:He; [|apply IH].
    intros Hm. apply elem_of_cons in Hm as [->|Hm]; [eauto | eapply IH; exact Hm].
Qed.

Lemma searchFrom_substring (r : regex) (rest : string) :
  forall pos prev m, searchFrom r pos prev rest = Some m -> substring (m_text m) rest.
Proof.
  induction rest as [|c tl IH]; intros pos prev m; simpl;
    destruct (execAt r pos prev _) as [m'|] eqn:Hm.
  - intros [= <-]. destruct (execAt_spec _ _ _ _ _ Hm) as (_ & _ & rest' & Hrest).
    exists "", rest'. exact Hrest.
  - discriminate.
  - intros [= <-]. destruct (execAt_spec _ _ _ _ _ Hm) as (_ & _ & rest' & Hrest).
    exists "", rest'. exact Hrest.
  - intros Hs. destruct (IH _ _ _ Hs) as (pre & post & ->).
    exists (String c pre), post. reflexivity.
Qed.

Lemma groupText_substring (r : regex) (text : string) (m : Match) (i : nat) :
  m ∈ matchAll r text -> substring (Rev3.groupText m i) (m_text m).
Proof.
  intros Hm. apply matchAllFrom_execAt in Hm as (pos & prev & rest & He).
  unfold Rev3.groupText, group.
  assert (Hlook : forall gs, (forall j g, (j, g) ∈ gs -> substring g (m_text m)) ->
                             substring (default "" (lookupGroup i gs)) (m_text m)).
  { induction gs as [|[j g] gs IH]; intros Hall; simpl; [apply substring_nil|].
    destruct (Nat.eqb i j).
    - simpl. apply (Hall j g). left.
    - apply IH. intros j' g' Hin. apply (Hall j' g'). right. exact Hin. }
  apply Hlook. intros j g Hin. eapply execAt_groups; eassumption.
Qed.

End GroupFacts.

(** ** The definitions of pass 1 and of the occurrence scanner *)

Module DefinitionFacts.
Import Js RegExp LineIndex Colors Rev3 MatchNotions RegExpFacts GroupFacts ExclusionFacts.

Lemma truthyMatch_substring (r : regex) (s v : string) :
  truthyMatch (search r s) = Some v -> substring v s.
Proof.
  unfold truthyMatch, search.
  destruct (searchFrom r 0 None s) as [x|] eqn:Hs; [|discriminate].
  destruct (decide (m_text x = "")); [discriminate|].
  intros [= <-]. eapply searchFrom_substring. exact Hs.
Qed.

Lemma extractFirstColorToken_substring (rhs : string) :
  substring (extractFirstColorToken rhs) rhs.
Proof.
  unfold extractFirstColorToken.
  assert (Hs : forall v, substring v (trim rhs) -> substring (trim v) rhs).
  { intros v Hv. eapply substring_trans; [apply trim_substring|].
    eapply substring_trans; [exact Hv | apply trim_substring]. }
  destruct (truthyMatch (search hexAnchored (trim rhs))) as [hex|] eqn:Hhex.
  { apply Hs. eapply truthyMatch_substring. exact Hhex. }
  destruct (truthyMatch (search rgbAnchored (trim rhs))) as [rgb|] eqn:Hrgb.
  { apply Hs. eapply truthyMatch_substring. exact Hrgb. }
  destruct (truthyMatch (search hslAnchored (trim rhs))) as [hsl|] eqn:Hhsl.
  { apply Hs. eapply truthyMatch_substring. exact Hhsl. }
  apply substring_nil.
Qed.

(** The value of a definition occurs in the text of its match, so the
    search for it there succeeds. *)
Lemma varDefHit_found (text : string) (m : Match) :
  m ∈ matchAll cssVarDefRegex text ->
  is_Some (indexOf (extractFirstColorToken (trim (groupText m 2))) (m_text m)).
Proof.
  intros Hm. apply indexOf_substring.
  eapply substring_trans; [apply extractFirstColorToken_substring|].
  eapply substring_trans; [apply trim_substring|].
  eapply groupText_substring. exact Hm.
Qed.

Lemma omap_ext_in {A B : Type} (f g : A -> option B) (l : list A) :
  (forall x, x ∈ l -> f x = g x) -> omap f l = omap g l.
Proof.
  induction l as [|a l IH]; intros Hfg; [reflexivity|].
  change (omap f (a :: l))
    with (match f a with Some y => y :: omap f l | None => omap f l end).
  change (omap g (a :: l))
    with (match g a with Some y => y :: omap g l | None => omap g l end).
  rewrite (Hfg a) by left. rewrite IH; [reflexivity|].
  intros x Hx. apply Hfg. right. exact Hx.
Qed.

Section Scanner.
Context (findCssContext : string -> list Z -> Z -> option string * option string)
        (findJsxScopeAround : string -> list Z -> Z -> option string)
        (findJsPropertyKeyBeforeCol : string -> Z -> option string).

(** X24: the definitions that pass 1 enters into the variable table and the
    definitions that the occurrence scanner reports are the same, in the
    same order and with the same names and values: the guard of the scanner
    for a value that is not found in its match never fires, and each of
    these occurrences is a variable occurrence marked as a definition. *)
Theorem definitions_agree (text : string) (lineStarts : list Z) (file : string) :
  map (fun o => (occName o, occValue o, isVar o, isDefinition (occUsage o)))
      (varDefOccurrences findCssContext findJsxScopeAround findJsPropertyKeyBeforeCol
         text lineStarts file)
  = map (fun d => (Some (defName d), defValue d, true, true)) (scanVarDefinitions text).
Proof.
  unfold varDefOccurrences, scanVarDefinitions, varDefHits.
  rewrite map_map, !map_omap. apply omap_ext_in. intros m Hm.
  unfold varDefHit.
  destruct (decide (extractFirstColorToken (trim (groupText m 2)) = "")); [reflexivity|].
  destruct (varDefHit_found text m Hm) as [inner ->]. reflexivity.
Qed.

End Scanner.

End DefinitionFacts.

(** ** What [findImports] finds *)

Module FindImportsFacts.
Import Js RegExp Imports MatchNotions RegExpFacts GroupFacts TraversalOrderFacts.

(** A literal matches only where the text starts with it. *)
Lemma rmatch_lit (s : string) :
  forall st k res,
    rmatch (lit s) st k = Some res -> exists rest', m_rest st = s +:+ rest'.
Proof.
  induction s as [|c s IH]; intros st k res; [intros _; exists (m_rest st); reflexivity|].
  assert (Hchr : forall k', rmatch (chr c) st k' = Some res ->
                   exists tl, m_rest st = String c tl /\
                              k' (MState (S (m_pos st)) (Some c) tl (m_caps st)) = Some res).
  { intros k'. simpl. destruct (m_rest st) as [|d tl]; [discriminate|].
    unfold isChar. destruct (Ascii.eqb_spec c d) as [<-|]; [|discriminate].
    intros Hk. exists tl. split; [reflexivity | exact Hk]. }
  destruct s as [|d s].
  - intros Hm. apply Hchr in Hm as (tl & -> & _). exists tl. reflexivity.
  - change (lit (String c (String d s))) with (Seq (chr c) (lit (String d s))).
    cbn [rmatch]. intros Hm. apply Hchr in Hm as (tl & Hrest & Hk).
    apply IH in Hk as [rest' Hk]. simpl in Hk. exists rest'.
    rewrite Hrest, Hk. reflexivity.
Qed.

Lemma indexOf_None_prefix (v w : string) :
  indexOf v w = None -> forall n, String.prefix v (sliceFrom n w) = false.
Proof.
  revert v. induction w as [|c w IH]; intros v Hv n.
  - rewrite indexOf_unfold in Hv.
    destruct (String.prefix v "") eqn:Hp; [discriminate|].
    destruct n; exact Hp.
  - rewrite indexOf_unfold in Hv.
    destruct (String.prefix v (String c w)) eqn:Hp; [discriminate|].
    destruct (indexOf v w) eqn:Hi; [discriminate|].
    destruct n as [|n]; [exact Hp|]. simpl. apply IH. exact Hi.
Qed.

Lemma matchAllFrom_none (r : regex) (rest : string) :
  (forall n pos prev, execAt r pos prev (sliceFrom n rest) = None) ->
  forall skip pos prev, matchAllFrom r skip pos prev rest = [].
Proof.
  induction rest as [|c tl IH]; intros Hnone skip pos prev.
  - destruct skip; simpl; [|reflexivity].
    pose proof (Hnone O pos prev) as H0. simpl in H0. rewrite H0. reflexivity.
  - assert (Htl : forall n pos prev, execAt r pos prev (sliceFrom n tl) = None)
      by (intros n pos' prev'; exact (Hnone (S n) pos' prev')).
    destruct skip as [|n]; simpl; [|apply IH, Htl].
    pose proof (Hnone O pos prev) as H0. simpl in H0. rewrite H0. apply IH, Htl.
Qed.

Lemma sliceFrom_sliceFrom (j n : nat) (s : string) :
  sliceFrom j (sliceFrom n s) = sliceFrom (n + j) s.
Proof.
  revert s. induction n as [|n IH]; intros s; [reflexivity|].
  destruct s as [|c s]; simpl; [destruct j; reflexivity | apply IH].
Qed.

(** An expression whose matches hold a literal has no match in a text
    without the literal. *)
Lemma matchAll_without_literal (r : regex) (v text : string) :
  (forall pos prev rest m, execAt r pos prev rest = Some m ->
                           exists j rest', sliceFrom j rest = v +:+ rest') ->
  indexOf v text = None -> matchAll r text = [].
Proof.
  intros Hr Hv. apply matchAllFrom_none. intros n pos prev.
  destruct (execAt r pos prev (sliceFrom n text)) as [m|] eqn:He; [|reflexivity].
  destruct (Hr _ _ _ _ He) as (j & rest' & Hrest).
  pose proof (indexOf_None_prefix v text Hv (n + j)) as Hp.
  rewrite <- sliceFrom_sliceFrom, Hrest, prefix_append_l in Hp. discriminate.
Qed.

Lemma execAt_wordB_lit (v : string) (r : regex) (pos : nat) (prev : option ascii)
    (rest : string) (m : Match) :
  execAt (Seq WordB (Seq (lit v) r)) pos prev rest = Some m ->
  exists rest', rest = v +:+ rest'.
Proof.
  unfold execAt. cbn [rmatch m_prev m_rest].
  destruct (xorb _ _); [|discriminate].
  destruct (rmatch (lit v) _ _) as [st|] eqn:Hm; [|discriminate].
  intros _. apply rmatch_lit in Hm. exact Hm.
Qed.

Lemma execAt_lit (v : string) (r : regex) (pos : nat) (prev : option ascii)
    (rest : string) (m : Match) :
  execAt (Seq (lit v) r) pos prev rest = Some m ->
  exists rest', rest = v +:+ rest'.
Proof.
  unfold execAt. cbn [rmatch].
  destruct (rmatch (lit v) _ _) as [st|] eqn:Hm; [|discriminate].
  intros _. apply rmatch_lit in Hm. exact Hm.
Qed.

Lemma findImports_nil (text : string) :
  indexOf "import" text = None -> indexOf "require(" text = None ->
  findImports text = [].
Proof.
  intros Himp Hreq. unfold findImports, addAll.
  rewrite (matchAll_without_literal importFrom "import" text); [|
    intros pos prev rest m He; exists O; apply execAt_wordB_lit in He; exact He | exact Himp].
  rewrite (matchAll_without_literal importBare "import" text); [|
    intros pos prev rest m He; exists O; apply execAt_wordB_lit in He; exact He | exact Himp].
  rewrite (matchAll_without_literal requireRe "require(" text); [|
    intros pos prev rest m He; exists O; apply execAt_wordB_lit in He; exact He | exact Hreq].
  rewrite (matchAll_without_literal cssImport "import" text); [reflexivity | | exact Himp].
  intros pos prev rest m He. exists 1%nat. apply execAt_lit in He as [rest' ->].
  exists rest'. reflexivity.
Qed.

(** X25: a text in which neither [import] nor [require(] occurs has no
    imports, and a root with such a text is the whole result of the
    traversal. *)
Theorem text_without_imports (text : string) :
  indexOf "import" text = None -> indexOf "require(" text = None ->
  findImports text = []
  /\ forall (H : Host) (wsRoot : Uri) (isFollowable : string -> ImportKind -> bool)
            (root : Uri) (maxFiles : nat),
       readFile H root = Some text -> (1 <= maxFiles)%nat ->
       collectImportGraph H wsRoot isFollowable root maxFiles = [root].
Proof.
  intros Himp Hreq. pose proof (findImports_nil text Himp Hreq) as Hnil.
  split; [exact Hnil|].
  intros H wsRoot isF root maxFiles Hread Hcap.
  apply graph_of_silent_root; [exact Hcap|].
  unfold pushedBy. rewrite Hread. unfold enqueued. rewrite Hnil. reflexivity.
Qed.

(** The statement at a style sheet of one rule. *)
Lemma text_without_imports_witness :
  findImports ".a { color: #fff; }" = []
  /\ forall (H : Host) (wsRoot : Uri) (isFollowable : string -> ImportKind -> bool)
            (root : Uri) (maxFiles : nat),
       readFile H root = Some ".a { color: #fff; }" -> (1 <= maxFiles)%nat ->
       collectImportGraph H wsRoot isFollowable root maxFiles = [root].
Proof.
  apply (text_without_imports ".a { color: #fff; }"); vm_compute; reflexivity.
Defined.

End FindImportsFacts.

(** ** The matcher is sound: the texts of matches and groups *)

Module LangFacts.
Import Js RegExp MatchNotions Lang RegExpFacts GroupFacts FindImportsFacts.

Lemma starGreedy_lang (p : ascii -> bool) (k : mstate -> option mstate)
    (caps : list (nat * (nat * nat))) (rest : string) :
  forall pos prev res,
    starGreedy p k caps pos prev rest = Some res ->
    exists st' w, rest = w +:+ m_rest st' /\ m_pos st' = (pos + String.length w)%nat /\
                  allOf p w = true /\ m_caps st' = caps /\ k st' = Some res.
Proof.
  induction rest as [|c tl IH]; intros pos prev res; simpl.
  - intros Hk. exists (MState pos prev "" caps), "". simpl.
    repeat split; [lia | exact Hk].
  - assert (Hstop : k (MState pos prev (String c tl) caps) = Some res ->
              exists st' w, String c tl = w +:+ m_rest st' /\
                            m_pos st' = (pos + String.length w)%nat /\
                            allOf p w = true /\ m_caps st' = caps /\ k st' = Some res).
    { intros Hk. exists (MState pos prev (String c tl) caps), "". simpl.
      repeat split; [lia | exact Hk]. }
    destruct (p c) eqn:Hc; [|exact Hstop].
    destruct (starGreedy p k caps (S pos) (Some c) tl) as [r|] eqn:Hrec; [|exact Hstop].
    intros [= <-]. destruct (IH _ _ _ Hrec) as (st' & w & Hr & Hp & Hall & Hcaps & Hk).
    exists st', (String c w). rewrite append_cons, <- Hr. simpl. rewrite Hc, Hall.
    repeat split; [lia | exact Hcaps | exact Hk].
Qed.

Lemma starLazy_lang (p : ascii -> bool) (k : mstate -> option mstate)
    (caps : list (nat * (nat * nat))) (rest : string) :
  forall pos prev res,
    starLazy p k caps pos prev rest = Some res ->
    exists st' w, rest = w +:+ m_rest st' /\ m_pos st' = (pos + String.length w)%nat /\
                  allOf p w = true /\ m_caps st' = caps /\ k st' = Some res.
Proof.
  induction rest as [|c tl IH]; intros pos prev res; simpl.
  - destruct (k (MState pos prev "" caps)) as [r|] eqn:Hk; [|discriminate].
    intros [= <-]. exists (MState pos prev "" caps), "". simpl.
    repeat split; [lia | exact Hk].
  - destruct (k (MState pos prev (String c tl) caps)) as [r|] eqn:Hk.
    + intros [= <-]. exists (MState pos prev (String c tl) caps), "". simpl.
      repeat split; [lia | exact Hk].
    + destruct (p c) eqn:Hc; [|discriminate]. intros Hrec.
      destruct (IH _ _ _ Hrec) as (st' & w & Hr & Hp & Hall & Hcaps & Hk').
      exists st', (String c w). rewrite append_cons, <- Hr. simpl. rewrite Hc, Hall.
      repeat split; [lia | exact Hcaps | exact Hk'].
Qed.

Lemma sliceFrom_append (w r : string) : sliceFrom (String.length w) (w +:+ r) = r.
Proof. induction w as [|c w IH]; [reflexivity | exact IH]. Qed.

(** Consuming [w] keeps a state in step with the text the match started
    in. *)
Lemma okState_advance (pos0 : nat) (rest0 : string) (st st' : mstate) (w : string) :
  okState pos0 rest0 st ->
  m_rest st = w +:+ m_rest st' -> m_pos st' = (m_pos st + String.length w)%nat ->
  okState pos0 rest0 st' /\
  slice (m_pos st - pos0) (m_pos st' - pos0) rest0 = w.
Proof.
  intros [Hlo Hrest] Hr Hp. split; [split; [lia|]|].
  - replace (m_pos st' - pos0)%nat with ((m_pos st - pos0) + String.length w)%nat by lia.
    rewrite <- sliceFrom_sliceFrom, <- Hrest, Hr, sliceFrom_append. reflexivity.
  - unfold slice. rewrite <- Hrest, Hr.
    replace (m_pos st' - pos0 - (m_pos st - pos0))%nat with (String.length w) by lia.
    apply sliceTo_append.
Qed.

(** The matcher is sound: a successful match consumed a text of the
    expression's language, and recorded for its groups texts of their
    languages. *)
Lemma rmatch_sound (R : regex) (pos0 : nat) (rest0 : string) (r : regex) :
  incl (groupsOf r) (groupsOf R) ->
  forall st k res,
    rmatch r st k = Some res ->
    okState pos0 rest0 st -> Forall (capOk R pos0 rest0) (m_caps st) ->
    exists st' w,
      m_rest st = w +:+ m_rest st' /\ m_pos st' = (m_pos st + String.length w)%nat /\
      inLang r w /\ Forall (capOk R pos0 rest0) (m_caps st') /\ k st' = Some res.
Proof.
  induction r as [|p|r1 IH1 r2 IH2|r1 IH1 r2 IH2|g p|i r1 IH1| | |];
    intros Hsub st k res; simpl.
  - intros Hk _ Hc. exists st, "". simpl. repeat split; [lia | exact Hc | exact Hk].
  - destruct st as [pos prev rest caps]. simpl.
    destruct rest as [|c tl]; [discriminate|].
    destruct (p c) eqn:Hp; [|discriminate]. intros Hk _ Hc.
    eexists _, (String c ""). split; [|split; [|split; [|split; [|exact Hk]]]]; simpl.
    + reflexivity.
    + lia.
    + exists c. split; [reflexivity | exact Hp].
    + exact Hc.
  - simpl in Hsub. intros Hm Hok Hc.
    destruct (IH1 (fun x Hx => Hsub x (in_or_app _ _ x (or_introl Hx))) _ _ _ Hm Hok Hc)
      as (st1 & w1 & Hr1 & Hp1 & Hl1 & Hc1 & Hm2).
    destruct (okState_advance _ _ _ _ _ Hok Hr1 Hp1) as [Hok1 _].
    destruct (IH2 (fun x Hx => Hsub x (in_or_app _ _ x (or_intror Hx))) _ _ _ Hm2 Hok1 Hc1)
      as (st2 & w2 & Hr2 & Hp2 & Hl2 & Hc2 & Hk).
    exists st2, (w1 +:+ w2). rewrite append_assoc, <- Hr2, length_append.
    split; [exact Hr1|]. split; [lia|]. split; [|split; [exact Hc2 | exact Hk]].
    exists w1, w2. auto.
  - simpl in Hsub. intros Hm Hok Hc. destruct (rmatch r1 st k) as [r|] eqn:H1.
    + injection Hm as <-.
      destruct (IH1 (fun x Hx => Hsub x (in_or_app _ _ x (or_introl Hx))) _ _ _ H1 Hok Hc)
        as (st' & w & Hr & Hp & Hl & Hc' & Hk).
      exists st', w. auto 10.
    + destruct (IH2 (fun x Hx => Hsub x (in_or_app _ _ x (or_intror Hx))) _ _ _ Hm Hok Hc)
        as (st' & w & Hr & Hp & Hl & Hc' & Hk).
      exists st', w. auto 10.
  - destruct st as [pos prev rest caps]. simpl. intros Hs _ Hc.
    assert (Hstar : exists st' w, rest = w +:+ m_rest st' /\
                      m_pos st' = (pos + String.length w)%nat /\
                      allOf p w = true /\ m_caps st' = caps /\ k st' = Some res).
    { destruct g; [eapply starGreedy_lang | eapply starLazy_lang]; exact Hs. }
    destruct Hstar as (st' & w & Hr & Hp & Hall & Hcaps & Hk).
    exists st', w. rewrite Hcaps. auto 10.
  - simpl in Hsub. intros Hm Hok Hc.
    destruct (IH1 (fun x Hx => Hsub x (in_cons _ x _ Hx)) _ _ _ Hm Hok Hc)
      as (st' & w & Hr & Hp & Hl & Hc' & Hk).
    destruct (okState_advance _ _ _ _ _ Hok Hr Hp) as [_ Hslice].
    eexists _, w. split; [|split; [|split; [|split; [|exact Hk]]]]; simpl.
    + exact Hr.
    + exact Hp.
    + exact Hl.
    + constructor; [|exact Hc'].
      exists r1. simpl. split; [apply Hsub; left; reflexivity|].
      rewrite Hslice. exact Hl.
  - destruct (Nat.eqb (m_pos st) 0); [|discriminate]. intros Hk _ Hc.
    exists st, "". simpl. repeat split; [lia | exact Hc | exact Hk].
  - destruct (m_rest st) eqn:Hrest; [|discriminate]. intros Hk _ Hc.
    exists st, "". simpl. rewrite Hrest. repeat split; [lia | exact Hc | exact Hk].
  - destruct (xorb _ _); [|discriminate]. intros Hk _ Hc.
    exists st, "". simpl. repeat split; [lia | exact Hc | exact Hk].
Qed.

(** The text of a match is in the language of the expression, and the text
    of each of its groups in the language of a group of that number. *)
Lemma execAt_sound (r : regex) (pos : nat) (prev : option ascii) (rest : string)
    (m : Match) :
  execAt r pos prev rest = Some m ->
  inLang r (m_text m) /\
  forall i g, In (i, g) (m_groups m) ->
              exists r1, In (i, r1) (groupsOf r) /\ inLang r1 g.
Proof.
  unfold execAt. destruct (rmatch r (MState pos prev rest []) Some) as [st|] eqn:Hm;
    [|discriminate].
  intros [= <-].
  destruct (rmatch_sound r pos rest r (fun x Hx => Hx) _ _ _ Hm)
    as (st' & w & Hr & Hp & Hl & Hc & [= ->]).
  { split; simpl; [lia|]. rewrite Nat.sub_diag. reflexivity. }
  { constructor. }
  simpl in *. subst rest. rewrite Hp.
  replace (pos + String.length w - pos)%nat with (String.length w) by lia.
  rewrite sliceTo_append. split; [exact Hl|].
  intros i g Hin. apply in_map_iff in Hin as (c & [= <- <-] & Hcin).
  rewrite Forall_forall in Hc. apply list_elem_of_In in Hcin.
  exact (Hc c Hcin).
Qed.

Lemma searchFrom_execAt (r : regex) (rest : string) :
  forall pos prev m,
    searchFrom r pos prev rest = Some m ->
    exists pos' prev' rest', execAt r pos' prev' rest' = Some m.
Proof.
  induction rest as [|c tl IH]; intros pos prev m; simpl;
    destruct (execAt r pos prev _) as [m'|] eqn:Hm.
  - intros [= <-]. eauto.
  - discriminate.
  - intros [= <-]. eauto.
  - apply IH.
Qed.

Lemma lookupGroup_In (i : nat) (gs : list (nat * string)) (g : string) :
  lookupGroup i gs = Some g -> In (i, g) gs.
Proof.
  induction gs as [|[j s] gs IH]; simpl; [discriminate|].
  destruct (Nat.eqb_spec i j) as [->|]; [intros [= ->]; left; reflexivity|].
  intros Hl. right. apply IH. exact Hl.
Qed.


(** A match of an expression that must pass group [i] has recorded a span
    for it; spans recorded before stay. *)
Lemma rmatch_captures (i : nat) (r : regex) :
  forall st k res,
    rmatch r st k = Some res ->
    exists st',
      (forall c, In c (m_caps st) -> In c (m_caps st')) /\
      (mustCapture i r = true -> exists sp, In (i, sp) (m_caps st')) /\
      k st' = Some res.
Proof.
  induction r as [|p|r1 IH1 r2 IH2|r1 IH1 r2 IH2|g p|j r1 IH1| | |];
    intros st k res; simpl.
  - intros Hk. exists st. split; [auto|]. split; [discriminate | exact Hk].
  - destruct st as [pos prev rest caps]. simpl.
    destruct rest as [|c tl]; [discriminate|].
    destruct (p c); [|discriminate]. intros Hk.
    eexists. split; [|split; [|exact Hk]]; simpl; [auto | discriminate].
  - intros Hm. destruct (IH1 _ _ _ Hm) as (st1 & Hk1 & Hc1 & Hm2).
    destruct (IH2 _ _ _ Hm2) as (st2 & Hk2 & Hc2 & Hk).
    exists st2. split; [auto|]. split; [|exact Hk].
    intros Hmust. apply orb_true_iff in Hmust as [H1|H2].
    + destruct (Hc1 H1) as [sp Hsp]. exists sp. auto.
    + exact (Hc2 H2).
  - destruct (rmatch r1 st k) as [r|] eqn:H1.
    + intros [= <-]. destruct (IH1 _ _ _ H1) as (st' & Hk' & Hc' & Hk).
      exists st'. split; [exact Hk'|]. split; [|exact Hk].
      intros Hmust. apply andb_true_iff in Hmust as [Hm1 _]. exact (Hc' Hm1).
    + intros H2. destruct (IH2 _ _ _ H2) as (st' & Hk' & Hc' & Hk).
      exists st'. split; [exact Hk'|]. split; [|exact Hk].
      intros Hmust. apply andb_true_iff in Hmust as [_ Hm2]. exact (Hc' Hm2).
  - destruct st as [pos prev rest caps]. simpl. intros Hs.
    assert (Hstar : exists st' w, rest = w +:+ m_rest st' /\
                      m_pos st' = (pos + String.length w)%nat /\
                      allOf p w = true /\ m_caps st' = caps /\ k st' = Some res).
    { destruct g; [eapply starGreedy_lang | eapply starLazy_lang]; exact Hs. }
    destruct Hstar as (st' & w & _ & _ & _ & Hcaps & Hk).
    exists st'. rewrite Hcaps. split; [auto|]. split; [discriminate | exact Hk].
  - intros Hm. destruct (IH1 _ _ _ Hm) as (st' & Hk' & Hc' & Hk).
    eexists. split; [|split; [|exact Hk]]; simpl.
    + intros c Hc. right. apply Hk'. exact Hc.
    + intros Hmust. destruct (Nat.eqb_spec i j) as [->|Hne].
      * eexists. left. reflexivity.
      * simpl in Hmust. destruct (Hc' Hmust) as [sp Hsp]. exists sp. right. exact Hsp.
  - destruct (Nat.eqb (m_pos st) 0); [|discriminate]. intros Hk.
    exists st. split; [auto|]. split; [discriminate | exact Hk].
  - destruct (m_rest st); [|discriminate]. intros Hk.
    exists st. split; [auto|]. split; [discriminate | exact Hk].
  - destruct (xorb _ _); [|discriminate]. intros Hk.
    exists st. split; [auto|]. split; [discriminate | exact Hk].
Qed.

Lemma lookupGroup_is_Some (i : nat) (gs : list (nat * string)) (g : string) :
  In (i, g) gs -> is_Some (lookupGroup i gs).
Proof.
  induction gs as [|[j s] gs IH]; simpl; [intros []|].
  destruct (Nat.eqb_spec i j) as [->|Hne]; [eauto|].
  intros [[= ? ?]|Hin]; [congruence | apply IH, Hin].
Qed.

(** The group [i] of a match of an expression that must pass it is
    defined, and its text is in the language of a group [i]. *)
Lemma execAt_group (r : regex) (pos : nat) (prev : option ascii) (rest : string)
    (m : Match) (i : nat) :
  execAt r pos prev rest = Some m -> mustCapture i r = true ->
  exists g r1, group m i = Some g /\ In (i, r1) (groupsOf r) /\ inLang r1 g.
Proof.
  intros He Hmust. pose proof (execAt_sound _ _ _ _ _ He) as [_ Hgroups].
  unfold execAt in He.
  destruct (rmatch r (MState pos prev rest []) Some) as [st|] eqn:Hm; [|discriminate].
  injection He as <-.
  destruct (rmatch_captures i r _ _ _ Hm) as (st' & _ & Hcap & [= ->]).
  destruct (Hcap Hmust) as [sp Hsp].
  assert (Hin : In (i, slice (sp.1 - pos) (sp.2 - pos) rest) (m_groups (mkMatch pos rest st))).
  { unfold mkMatch. simpl. apply in_map_iff. exists (i, sp). split; [reflexivity | exact Hsp]. }
  destruct (lookupGroup_is_Some _ _ _ Hin) as [g Hg].
  unfold group. rewrite Hg.
  destruct (Hgroups i g (lookupGroup_In _ _ _ Hg)) as (r1 & Hr1 & Hl).
  exists g, r1. auto.
Qed.


Lemma allOf_app (p : ascii -> bool) (a b : string) :
  allOf p (a +:+ b) = allOf p a && allOf p b.
Proof.
  induction a as [|c a IH]; [reflexivity|].
  rewrite append_cons. simpl. rewrite IH, andb_assoc. reflexivity.
Qed.

Lemma allOf_impl (p q : ascii -> bool) (w : string) :
  (forall c, p c = true -> q c = true) -> allOf p w = true -> allOf q w = true.
Proof.
  intros Hpq. induction w as [|c w IH]; simpl; [reflexivity|].
  intros Hw. apply andb_true_iff in Hw as [Hc Hw].
  rewrite (Hpq c Hc), (IH Hw). reflexivity.
Qed.

Lemma append_single (c : ascii) (w : string) : String c "" +:+ w = String c w.
Proof. reflexivity. Qed.

Lemma inLang_chr (c : ascii) (w : string) : inLang (chr c) w -> w = String c "".
Proof.
  intros (x & -> & Hx). unfold isChar in Hx. apply Ascii.eqb_eq in Hx. subst x. reflexivity.
Qed.

Lemma inLang_lit (s w : string) : inLang (lit s) w -> w = s.
Proof.
  revert w. induction s as [|c s IH]; intros w; [intros ->; reflexivity|].
  destruct s as [|d s]; [apply inLang_chr|].
  change (lit (String c (String d s))) with (Seq (chr c) (lit (String d s))).
  intros (w1 & w2 & -> & H1 & H2). apply inLang_chr in H1 as ->.
  apply IH in H2 as ->. reflexivity.
Qed.

Lemma inLang_litI (s w : string) : inLang (litI s) w -> toLowerCase w = toLowerCase s.
Proof.
  assert (Hchr : forall c w, inLang (chrI c) w ->
                             toLowerCase w = String (toLowerChar c) "").
  { intros c w' (x & -> & Hx). apply Ascii.eqb_eq in Hx. simpl. rewrite Hx. reflexivity. }
  revert w. induction s as [|c s IH]; intros w; [intros ->; reflexivity|].
  destruct s as [|d s]; [apply Hchr|].
  change (litI (String c (String d s))) with (Seq (chrI c) (litI (String d s))).
  intros (w1 & w2 & -> & H1 & H2). apply Hchr in H1. apply IH in H2.
  rewrite ThemeFacts.toLowerCase_app, H1, H2. reflexivity.
Qed.

Lemma inLang_rep (n : nat) (p : ascii -> bool) (w : string) :
  inLang (rep n p) w -> String.length w = n /\ allOf p w = true.
Proof.
  revert w. induction n as [|n IH]; intros w; [intros ->; split; reflexivity|].
  destruct n as [|n].
  - intros (c & -> & Hc). simpl. rewrite Hc. split; reflexivity.
  - change (rep (S (S n)) p) with (Seq (Chr p) (rep (S n) p)).
    intros (w1 & w2 & -> & (c & -> & Hc) & H2). apply IH in H2 as [Hlen Hall].
    rewrite append_single. simpl. rewrite Hc, Hall, Hlen. split; reflexivity.
Qed.

Lemma inLang_upTo (n : nat) (p : ascii -> bool) (w : string) :
  inLang (upTo n p) w -> (String.length w <= n)%nat /\ allOf p w = true.
Proof.
  revert w. induction n as [|n IH]; intros w; [intros ->; split; [simpl; lia | reflexivity]|].
  intros [(w1 & w2 & -> & (c & -> & Hc) & H2) | ->]; [|split; [simpl; lia | reflexivity]].
  apply IH in H2 as [Hlen Hall]. rewrite append_single. simpl. rewrite Hc, Hall.
  split; [lia | reflexivity].
Qed.

Lemma inLang_repRange (lo hi : nat) (p : ascii -> bool) (w : string) :
  inLang (repRange lo hi p) w ->
  (lo <= String.length w <= lo + (hi - lo))%nat /\ allOf p w = true.
Proof.
  intros (w1 & w2 & -> & H1 & H2). apply inLang_rep in H1 as [Hl1 Ha1].
  apply inLang_upTo in H2 as [Hl2 Ha2].
  rewrite length_append, allOf_app, Ha1, Ha2. split; [lia | reflexivity].
Qed.

Lemma inLang_plus (p : ascii -> bool) (w : string) :
  inLang (plus p) w -> w <> "" /\ allOf p w = true.
Proof.
  intros (w1 & w2 & -> & (c & -> & Hc) & H2). simpl in H2.
  rewrite append_single. simpl. rewrite Hc, H2. split; [discriminate | reflexivity].
Qed.

(** A text of an expression all of whose classes lie in [P] consists of
    characters of [P]. *)
Lemma inLang_classes (P : ascii -> bool) (r : regex) :
  classesIn P r -> forall w, inLang r w -> allOf P w = true.
Proof.
  induction r as [|p|r1 IH1 r2 IH2|r1 IH1 r2 IH2|g p|i r1 IH1| | |]; simpl;
    intros Hcl w Hw; try (subst w; reflexivity).
  - destruct Hw as (c & -> & Hc). simpl. rewrite (Hcl c Hc). reflexivity.
  - destruct Hcl as [H1 H2]. destruct Hw as (w1 & w2 & -> & Hw1 & Hw2).
    rewrite allOf_app, (IH1 H1 _ Hw1), (IH2 H2 _ Hw2). reflexivity.
  - destruct Hcl as [H1 H2]. destruct Hw as [Hw|Hw]; [apply (IH1 H1 _ Hw) | apply (IH2 H2 _ Hw)].
  - eapply allOf_impl; [exact Hcl | exact Hw].
  - apply (IH1 Hcl _ Hw).
Qed.

Lemma inLang_hexBody (w : string) :
  inLang Colors.hexBody w ->
  allOf isHexDigit w = true /\
  (String.length w = 3 \/ String.length w = 4 \/
   String.length w = 6 \/ String.length w = 8)%nat.
Proof.
  unfold Colors.hexBody. cbn [alts inLang].
  intros [H|[H|H]].
  - apply inLang_repRange in H as [Hlen Hall]. split; [exact Hall | lia].
  - apply inLang_rep in H as [Hlen Hall]. split; [exact Hall | lia].
  - apply inLang_rep in H as [Hlen Hall]. split; [exact Hall | lia].
Qed.

Lemma inLang_hex (r : regex) (w : string) :
  r = Colors.hexAnchored \/ r = Colors.hexRegex -> inLang r w -> isHexColor w.
Proof.
  intros [-> | ->]; unfold Colors.hexAnchored, Colors.hexRegex; cbn [seqs inLang].
  - intros (w1 & w2 & -> & -> & w3 & w4 & -> & H3 & w5 & w6 & -> & H5 & ->).
    apply inLang_chr in H3 as ->. apply inLang_hexBody in H5 as [Hall Hlen].
    exists w5. rewrite append_nil_r. split; [reflexivity|]. split; assumption.
  - intros (w3 & w4 & -> & H3 & w5 & w6 & -> & H5 & ->).
    apply inLang_chr in H3 as ->. apply inLang_hexBody in H5 as [Hall Hlen].
    exists w5. rewrite append_nil_r. split; [reflexivity|]. split; assumption.
Qed.


Lemma seqs_cons (r : regex) (rs : list regex) :
  rs <> [] -> seqs (r :: rs) = Seq r (seqs rs).
Proof. destruct rs; [contradiction | reflexivity]. Qed.

Lemma inLang_seqs_app (rs1 rs2 : list regex) (w : string) :
  rs1 <> [] -> rs2 <> [] ->
  inLang (seqs (rs1 ++ rs2)) w ->
  exists w1 w2, w = w1 +:+ w2 /\ inLang (seqs rs1) w1 /\ inLang (seqs rs2) w2.
Proof.
  intros H1 H2. revert w. induction rs1 as [|r rs1 IH]; [contradiction|]. intros w.
  destruct rs1 as [|r' rs1].
  - change ([r] ++ rs2) with (r :: rs2). rewrite seqs_cons by exact H2.
    intros (w1 & w2 & -> & Hw1 & Hw2). exists w1, w2. auto.
  - change ((r :: r' :: rs1) ++ rs2) with (r :: ((r' :: rs1) ++ rs2)).
    rewrite seqs_cons by discriminate.
    intros (w1 & w2 & -> & Hw1 & Hw2).
    destruct (IH ltac:(discriminate) _ Hw2) as (w3 & w4 & -> & Hw3 & Hw4).
    exists (w1 +:+ w3), w4. rewrite append_assoc. split; [reflexivity|].
    split; [|exact Hw4]. rewrite seqs_cons by discriminate. exists w1, w3. auto.
Qed.

(** A class that rejects the closing bracket lies in [[^)]]. *)
Lemma class_no_bracket (p : ascii -> bool) :
  p ")"%char = false -> forall c, p c = true -> isNot ")" c = true.
Proof.
  intros Hp c Hc. unfold isNot. apply negb_true_iff.
  destruct (Ascii.eqb_spec ")" c) as [<-|]; [congruence | reflexivity].
Qed.

Lemma toLowerCase_opt (c : ascii) (w : string) :
  inLang (opt (chrI c)) w -> w = "" \/ toLowerCase w = String (toLowerChar c) "".
Proof.
  intros [(x & -> & Hx) | ->]; [right | left; reflexivity].
  apply Ascii.eqb_eq in Hx. simpl. rewrite Hx. reflexivity.
Qed.

(** The texts of the expressions for calls of colour functions. *)
Lemma inLang_call (name : string) (mid : list regex) (w : string) :
  mid <> [] -> classesIn (isNot ")") (seqs mid) ->
  inLang (seqs ([WordB; litI name; opt (chrI "a"); chr "("] ++ mid ++ [chr ")"])) w ->
  isColorCall [toLowerCase name; toLowerCase name +:+ "a"] w.
Proof.
  intros Hmid Hcl Hw.
  apply (inLang_seqs_app [WordB; litI name; opt (chrI "a"); chr "("]) in Hw
    as (w1 & w2 & -> & Hw1 & Hw2); [|discriminate | destruct mid; discriminate].
  apply inLang_seqs_app in Hw2 as (args & w3 & -> & Hargs & Hw3); [|exact Hmid | discriminate].
  cbn [seqs inLang] in Hw1.
  destruct Hw1 as (? & ? & -> & -> & wn & ? & -> & Hn & wa & ? & -> & Ha & Hb).
  apply inLang_chr in Hb as ->. apply inLang_chr in Hw3 as ->.
  apply inLang_litI in Hn. apply toLowerCase_opt in Ha.
  exists (wn +:+ wa), args.
  change ("" +:+ ?x) with x. rewrite !append_assoc.
  split; [reflexivity|]. split; [|apply (inLang_classes _ _ Hcl _ Hargs)].
  rewrite ThemeFacts.toLowerCase_app, Hn.
  destruct Ha as [-> | ->]; [left | right; left; reflexivity].
  change (toLowerCase "") with "". symmetry. apply append_nil_r.
Qed.

Lemma inLang_anchored (lower upper : string) (w : string) :
  toLowerCase upper = toLowerCase lower ->
  inLang (seqs [Bol; Alt (Seq (lit lower) (opt (chr "a"))) (Seq (lit upper) (opt (chr "A")));
                chr "("; star (isNot ")"); chr ")"]) w ->
  isColorCall [toLowerCase lower; toLowerCase lower +:+ "a"] w.
Proof.
  intros Hup. cbn [seqs inLang].
  intros (? & ? & -> & -> & wn & ? & -> & Hn & ? & ? & -> & Hb & args & ? & -> & Hargs & He).
  apply inLang_chr in Hb as ->. apply inLang_chr in He as ->.
  exists wn, args. change ("" +:+ ?x) with x.
  split; [reflexivity|]. split; [|exact Hargs].
  destruct Hn as [(wl & wa & -> & Hl & Ha) | (wl & wa & -> & Hl & Ha)];
    apply inLang_lit in Hl as ->; rewrite ThemeFacts.toLowerCase_app;
    (destruct Ha as [Ha | ->]; [apply inLang_chr in Ha as ->|]).
  - right. left. reflexivity.
  - left. change (toLowerCase "") with "". symmetry. apply append_nil_r.
  - right. left. rewrite Hup. reflexivity.
  - left. rewrite Hup. change (toLowerCase "") with "". symmetry. apply append_nil_r.
Qed.

End LangFacts.

(** ** Names and values are well formed *)

Module TokenFacts.
Import Js RegExp LineIndex Imports Colors Rev3 MatchNotions Lang.
Import RegExpFacts GroupFacts LangFacts KeyFacts VarTableFacts.

Lemma trimEnd_noSpace (v : string) :
  allOf (fun c => negb (isSpace c)) v = true -> trimEnd v = v.
Proof.
  induction v as [|c v IH]; [reflexivity|]. simpl.
  intros Hv. apply andb_true_iff in Hv as [Hc Hv]. apply negb_true_iff in Hc.
  rewrite (IH Hv). destruct v; [rewrite Hc|]; reflexivity.
Qed.

Lemma trimEnd_snoc (u : string) (c : ascii) :
  isSpace c = false -> trimEnd (u +:+ String c "") = u +:+ String c "".
Proof.
  intros Hc. induction u as [|a u IH].
  - change ("" +:+ String c "") with (String c ""). simpl. rewrite Hc. reflexivity.
  - rewrite append_cons. cbn [trimEnd]. rewrite IH.
    destruct u; reflexivity.
Qed.

Lemma isHexDigit_noSpace (c : ascii) : isHexDigit c = true -> negb (isSpace c) = true.
Proof. destruct c as [[] [] [] [] [] [] [] []]; simpl; intros H; try reflexivity; discriminate H. Qed.

Lemma isHexColor_trim (v : string) : isHexColor v -> trim v = v.
Proof.
  intros (ds & -> & Hall & _). unfold trim.
  change (trimStart (String "#" ds)) with (String "#" ds).
  apply trimEnd_noSpace. change (allOf (fun c => negb (isSpace c)) ds = true).
  eapply allOf_impl; [|exact Hall].
  apply isHexDigit_noSpace.
Qed.

Lemma isColorCall_trim (names : list string) (v : string) :
  Forall (fun n => exists c tl, n = String c tl /\ isSpace c = false) names ->
  isColorCall names v -> trim v = v.
Proof.
  intros Hnames (name & args & -> & Hin & _).
  rewrite Forall_forall in Hnames.
  destruct (Hnames _ (proj2 (list_elem_of_In _ _) Hin)) as (c & tl & Hn & Hc).
  destruct name as [|a name]; [discriminate|]. simpl in Hn. injection Hn as Ha _.
  assert (Hsa : isSpace a = false) by (rewrite <- isSpace_toLowerChar, Ha; exact Hc).
  unfold trim. rewrite append_cons. cbn [trimStart]. rewrite Hsa.
  rewrite <- append_cons.
  replace (String a name +:+ "(" +:+ args +:+ ")")
    with ((String a name +:+ "(" +:+ args) +:+ ")") by (rewrite !append_assoc; reflexivity).
  apply trimEnd_snoc. reflexivity.
Qed.

Lemma names_noSpace :
  Forall (fun n => exists c tl, n = String c tl /\ isSpace c = false)
         ["rgb"; "rgba"; "hsl"; "hsla"].
Proof. repeat constructor; eexists _, _; split; reflexivity. Qed.

Lemma isColorToken_trim (v : string) : isColorToken v -> trim v = v.
Proof.
  intros [Hh|Hc]; [apply isHexColor_trim, Hh|].
  eapply isColorCall_trim; [exact names_noSpace | exact Hc].
Qed.

Lemma isColorCall_weaken (names names' : list string) (v : string) :
  incl names names' -> isColorCall names v -> isColorCall names' v.
Proof. intros Hsub (name & args & Hv & Hin & Hargs). exists name, args. auto. Qed.

Lemma truthyMatch_execAt (r : regex) (s v : string) :
  truthyMatch (search r s) = Some v ->
  v <> "" /\ exists pos prev rest m, execAt r pos prev rest = Some m /\ m_text m = v.
Proof.
  unfold truthyMatch, search.
  destruct (searchFrom r 0 None s) as [x|] eqn:Hs; [|discriminate].
  destruct (decide (m_text x = "")) as [|Hne]; [discriminate|].
  intros [= <-]. split; [exact Hne|].
  apply searchFrom_execAt in Hs as (pos & prev & rest & He). eauto 10.
Qed.

(** The token [extractFirstColorToken] returns is a colour token, unless it
    is empty. *)
Lemma extractFirstColorToken_token (rhs : string) :
  extractFirstColorToken rhs <> "" -> isColorToken (extractFirstColorToken rhs).
Proof.
  unfold extractFirstColorToken.
  destruct (truthyMatch (search hexAnchored (trim rhs))) as [hex|] eqn:Hhex.
  { intros _. apply truthyMatch_execAt in Hhex as (_ & pos & prev & rest & m & He & <-).
    apply execAt_sound in He as [Hl _].
    assert (Hh : isHexColor (m_text m)) by (eapply inLang_hex; [left; reflexivity | exact Hl]).
    rewrite (isHexColor_trim _ Hh). left. exact Hh. }
  destruct (truthyMatch (search rgbAnchored (trim rhs))) as [rgb|] eqn:Hrgb.
  { intros _. apply truthyMatch_execAt in Hrgb as (_ & pos & prev & rest & m & He & <-).
    apply execAt_sound in He as [Hl _].
    assert (Hc : isColorCall ["rgb"; "rgba"; "hsl"; "hsla"] (m_text m)).
    { eapply isColorCall_weaken; [|apply (inLang_anchored "rgb" "RGB" _ eq_refl Hl)].
      intros x [<-|[<-|[]]]; simpl; auto. }
    rewrite (isColorToken_trim _ (or_intror Hc)). right. exact Hc. }
  destruct (truthyMatch (search hslAnchored (trim rhs))) as [hsl|] eqn:Hhsl.
  { intros _. apply truthyMatch_execAt in Hhsl as (_ & pos & prev & rest & m & He & <-).
    apply execAt_sound in He as [Hl _].
    assert (Hc : isColorCall ["rgb"; "rgba"; "hsl"; "hsla"] (m_text m)).
    { eapply isColorCall_weaken; [|apply (inLang_anchored "hsl" "HSL" _ eq_refl Hl)].
      intros x [<-|[<-|[]]]; simpl; auto. }
    rewrite (isColorToken_trim _ (or_intror Hc)). right. exact Hc. }
  intros Hne. contradiction.
Qed.

(** The first group of a definition is a name: not empty, of name
    characters. *)
Lemma varDef_name (text : string) (m : Match) :
  m ∈ matchAll cssVarDefRegex text ->
  groupText m 1 <> "" /\ allOf isNameChar (groupText m 1) = true.
Proof.
  intros Hm. apply matchAllFrom_execAt in Hm as (pos & prev & rest & He).
  destruct (execAt_group _ _ _ _ _ 1 He eq_refl) as (g & r1 & Hg & Hin & Hl).
  unfold groupText. rewrite Hg. simpl.
  simpl in Hin. destruct Hin as [[= <-]|[[=]|[]]].
  apply inLang_plus in Hl. exact Hl.
Qed.

Lemma scanVarDefinitions_elem (text : string) (d : VarDef) :
  d ∈ scanVarDefinitions text ->
  isColorToken (defValue d) /\
  exists g, defName d = "--" +:+ g /\ g <> "" /\ allOf isNameChar g = true.
Proof.
  unfold scanVarDefinitions. intros Hd. apply list_elem_of_omap in Hd as (m & Hm & Hd).
  destruct (decide (extractFirstColorToken (trim (groupText m 2)) = "")) as [|Hne];
    [discriminate|].
  injection Hd as <-. simpl. split; [apply extractFirstColorToken_token, Hne|].
  exists (groupText m 1). split; [reflexivity|]. eapply varDef_name. exact Hm.
Qed.

Lemma collectVarTable_entry (H : Host) (uris : list Uri) (n v : string) :
  collectVarTable H uris !! n = Some v ->
  isColorToken v /\ trim v = v /\
  exists g, n = "--" +:+ g /\ g <> "" /\ allOf isNameChar g = true.
Proof.
  rewrite collectVarTable_lookup. unfold firstDefinition.
  destruct (List.find _ _) as [d|] eqn:Hf; [|discriminate].
  intros [= <-]. apply find_some in Hf as [Hin Hn].
  apply bool_decide_eq_true in Hn. subst n.
  unfold allVarDefinitions in Hin. apply in_concat in Hin as (defs & Hdefs & Hd).
  apply in_map_iff in Hdefs as (uri & <- & _).
  destruct (readFile H uri) as [text|]; [|destruct Hd].
  apply list_elem_of_In, scanVarDefinitions_elem in Hd as [Htok Hname].
  split; [exact Htok|]. split; [apply isColorToken_trim, Htok | exact Hname].
Qed.

Lemma literal_token (re : regex) (text : string) (m : Match) :
  re ∈ [hexRegex; rgbRegex; hslRegex] -> m ∈ matchAll re text ->
  isColorToken (m_text m).
Proof.
  intros Hre Hm. apply matchAllFrom_execAt in Hm as (pos & prev & rest & He).
  apply execAt_sound in He as [Hl _].
  apply list_elem_of_In in Hre. destruct Hre as [<-|[<-|[<-|[]]]].
  - left. eapply inLang_hex; [right; reflexivity | exact Hl].
  - right. eapply isColorCall_weaken;
      [|apply (inLang_call "rgb"
                 [star isSpace; d13; star isSpace; chr ","; star isSpace; d13;
                  star isSpace; chr ","; star isSpace; d13;
                  opt (seqs [star isSpace; chr ","; star isSpace; alphaValue]);
                  star isSpace] (m_text m)); [discriminate | | exact Hl]].
    + intros x [<-|[<-|[]]]; simpl; auto.
    + cbn; repeat split; apply class_no_bracket; reflexivity.
  - right. eapply isColorCall_weaken;
      [|apply (inLang_call "hsl"
                 [star isSpace; d13; opt (litI "deg"); star isSpace; chr ",";
                  star isSpace; d13; chr "%"; star isSpace; chr ","; star isSpace;
                  d13; chr "%"; star isSpace;
                  opt (seqs [chr ","; star isSpace; alphaValue]);
                  star isSpace] (m_text m)); [discriminate | | exact Hl]].
    + intros x [<-|[<-|[]]]; simpl; auto.
    + cbn; repeat split; apply class_no_bracket; reflexivity.
Qed.

(** X26: every entry of the global variable table has a name made of [--]
    and one or more name characters, and a value that is a colour token: a
    hex colour of 3, 4, 6 or 8 digits, or a call of [rgb], [rgba], [hsl] or
    [hsla] closed by its bracket, with no whitespace around it. *)
Theorem table_holds_color_tokens (H : Host) (uris : list Uri) (n v : string) :
  collectVarTable H uris !! n = Some v ->
  isColorToken v /\ trim v = v /\
  exists g, n = "--" +:+ g /\ g <> "" /\ allOf isNameChar g = true.
Proof. apply collectVarTable_entry. Qed.

(** The statement at a style sheet with one definition. *)
Lemma table_holds_color_tokens_witness :
  isColorToken "#aabbcc" /\ trim "#aabbcc" = "#aabbcc" /\
  exists g, "--border" = "--" +:+ g /\ g <> "" /\ allOf isNameChar g = true.
Proof.
  apply (table_holds_color_tokens
           (MemHost.memHost [("/w/a.css", ":root { --border: #aabbcc; }")])
           ["/w/a.css"] "--border" "#aabbcc").
  vm_compute. reflexivity.
Defined.

Section Scanner.
Context (findCssContext : string -> list Z -> Z -> option string * option string)
        (findJsxScopeAround : string -> list Z -> Z -> option string)
        (findJsPropertyKeyBeforeCol : string -> Z -> option string).

(** X27: the value of every occurrence the scanner reports, with the table
    of pass 1, is a colour token with no whitespace around it: of a
    definition, of a reference and of a literal. *)
Theorem occurrence_values_are_tokens (H : Host) (uris : list Uri)
    (text : string) (lineStarts : list Z) (file : string) (o : ColorOccur) :
  o ∈ scanTextForColorOccurrences findCssContext findJsxScopeAround
        findJsPropertyKeyBeforeCol text lineStarts file (collectVarTable H uris) ->
  isColorToken (occValue o) /\ trim (occValue o) = occValue o.
Proof.
  intros Ho. assert (Ht : isColorToken (occValue o)); [|split; [exact Ht | apply isColorToken_trim, Ht]].
  revert Ho. unfold scanTextForColorOccurrences. rewrite !elem_of_app.
  assert (Hlit : forall re, re ∈ [hexRegex; rgbRegex; hslRegex] ->
            o ∈ literalOccurrences findCssContext findJsxScopeAround
                  findJsPropertyKeyBeforeCol text lineStarts file re ->
            isColorToken (occValue o)).
  { intros re Hre Ho. unfold literalOccurrences in Ho.
    apply list_elem_of_fmap in Ho as (m & -> & Hm).
    unfold literalMatches in Hm. apply list_elem_of_filter in Hm as [_ Hm].
    simpl. eapply literal_token; eassumption. }
  intros [Hd | [Hr | [Hl | [Hl | Hl]]]].
  - unfold varDefOccurrences in Hd. apply list_elem_of_fmap in Hd as (h & -> & Hh).
    unfold varDefHits in Hh. apply list_elem_of_omap in Hh as (m & _ & Hm).
    unfold varDefHit in Hm.
    destruct (decide (extractFirstColorToken (trim (groupText m 2)) = "")) as [|Hne];
      [discriminate|].
    destruct (indexOf _ (m_text m)) as [inner|]; [|discriminate].
    injection Hm as <-. simpl. apply extractFirstColorToken_token, Hne.
  - unfold varRefOccurrences in Hr. apply list_elem_of_omap in Hr as (m & _ & Hm).
    unfold varRefOccurrence in Hm.
    destruct (collectVarTable H uris !! groupText m 1) as [resolved|] eqn:Hres;
      [|discriminate].
    destruct (decide (resolved = "")) as [|Hne]; [discriminate|].
    injection Hm as <-. simpl. eapply collectVarTable_entry. exact Hres.
  - apply (Hlit hexRegex); [apply list_elem_of_In; simpl; auto | exact Hl].
  - apply (Hlit rgbRegex); [apply list_elem_of_In; simpl; auto | exact Hl].
  - apply (Hlit hslRegex); [apply list_elem_of_In; simpl; auto | exact Hl].
Qed.

End Scanner.

(** The statement at the literal of [borderSheet]. *)
Lemma occurrence_values_are_tokens_witness :
  isColorToken (occValue (OccLiteral "#aabbcc" "a.css" (MkRange 2 15 22)
                            (MkUsage false None None 2)))
  /\ trim (occValue (OccLiteral "#aabbcc" "a.css" (MkRange 2 15 22)
                       (MkUsage false None None 2)))
     = occValue (OccLiteral "#aabbcc" "a.css" (MkRange 2 15 22)
                   (MkUsage false None None 2)).
Proof.
  apply (occurrence_values_are_tokens (fun _ _ _ => (None, None)) (fun _ _ _ => None)
           (fun _ _ => None) (MemHost.memHost [("/w/a.css", borderSheet)]) ["/w/a.css"]
           borderSheet (buildLineStartIndex borderSheet) "a.css").
  vm_compute. apply list_elem_of_In. simpl. auto.
Defined.

End TokenFacts.

(** ** The context of an occurrence *)

Module ContextFacts.
Import Js RegExp LineIndex Colors Rev3 MatchNotions Lang UsageContext.
Import RegExpFacts GroupFacts LangFacts.

Lemma prefix_split (p s : string) :
  String.prefix p s = true -> exists post, s = p +:+ post.
Proof.
  revert s. induction p as [|a p IH]; intros s; [exists s; reflexivity|].
  destruct s as [|b s]; simpl; [discriminate|].
  destruct (ascii_dec a b) as [->|]; [|discriminate].
  intros Hp. destruct (IH _ Hp) as [post ->]. exists post. reflexivity.
Qed.

Lemma prefix_is_substring (p s : string) : String.prefix p s = true -> substring p s.
Proof. intros Hp. destruct (prefix_split _ _ Hp) as [post ->]. exists "", post. reflexivity. Qed.

Lemma substring_cons (v w : string) (c : ascii) : substring v w -> substring v (String c w).
Proof. intros (pre & post & ->). exists (String c pre), post. reflexivity. Qed.

Lemma lastIndexOf_substring (v w : string) :
  is_Some (lastIndexOf v w) -> substring v w.
Proof.
  induction w as [|c tl IH]; cbn [lastIndexOf].
  - destruct (String.prefix v "") eqn:Hp; [intros _; apply prefix_is_substring, Hp|].
    intros [? [=]].
  - destruct (lastIndexOf v tl) as [i|].
    + intros _. apply substring_cons, IH. eauto.
    + destruct (String.prefix v (String c tl)) eqn:Hp;
        [intros _; apply prefix_is_substring, Hp | intros [? [=]]].
Qed.

Lemma trimStart_head (s : string) :
  trimStart s = "" \/ exists c tl, trimStart s = String c tl /\ isSpace c = false.
Proof.
  induction s as [|c s IH]; [left; reflexivity|]. simpl.
  destruct (isSpace c) eqn:Hc; [exact IH | right; eauto].
Qed.

Lemma trimEnd_idem (s : string) : trimEnd (trimEnd s) = trimEnd s.
Proof.
  induction s as [|c s IH]; [reflexivity|]. cbn [trimEnd].
  destruct (trimEnd s) as [|d t] eqn:Ht.
  - destruct (isSpace c) eqn:Hc; [reflexivity|]. cbn [trimEnd]. rewrite Hc. reflexivity.
  - cbn [trimEnd] in IH |- *. rewrite IH. reflexivity.
Qed.

Lemma trimEnd_head (c : ascii) (tl : string) :
  isSpace c = false -> exists tl', trimEnd (String c tl) = String c tl'.
Proof.
  intros Hc. cbn [trimEnd]. destruct (trimEnd tl); [rewrite Hc|]; eauto.
Qed.

Lemma trim_idem (s : string) : trim (trim s) = trim s.
Proof.
  unfold trim. destruct (trimStart_head s) as [-> | (c & tl & -> & Hc)]; [reflexivity|].
  destruct (trimEnd_head c tl Hc) as [tl' Htl]. rewrite Htl.
  cbn [trimStart]. rewrite Hc, <- Htl. apply trimEnd_idem.
Qed.

Lemma nonEmpty_Some (s x : string) : nonEmpty s = Some x -> x = s /\ s <> "".
Proof.
  unfold nonEmpty. destruct (decide (s = "")); [discriminate|]. intros [= <-]. auto.
Qed.

Lemma matchAllFrom_substring (r : regex) (rest : string) :
  forall skip pos prev m,
    m ∈ matchAllFrom r skip pos prev rest -> substring (m_text m) rest.
Proof.
  induction rest as [|c tl IH]; intros skip pos prev m.
  - destruct skip as [|n]; simpl; [|intros Hm; inversion Hm].
    destruct (execAt r pos prev "") as [m'|] eqn:He; [|intros Hm; inversion Hm].
    intros Hm. apply list_elem_of_singleton in Hm as ->.
    destruct (execAt_spec _ _ _ _ _ He) as (_ & _ & rest' & Hrest).
    exists "", rest'. exact Hrest.
  - destruct skip as [|n]; simpl; [|intros Hm; apply substring_cons; eapply IH; exact Hm].
    destruct (execAt r pos prev (String c tl)) as [m'|] eqn:He;
      [|intros Hm; apply substring_cons; eapply IH; exact Hm].
    intros Hm. apply elem_of_cons in Hm as [->|Hm];
      [|apply substring_cons; eapply IH; exact Hm].
    destruct (execAt_spec _ _ _ _ _ He) as (_ & _ & rest' & Hrest).
    exists "", rest'. exact Hrest.
Qed.

(** A group of a match: its text is one of the group's expression, and lies
    in the match. *)
Lemma execAt_group_text (r : regex) (pos : nat) (prev : option ascii)
    (rest : string) (m : Match) (i : nat) (g : string) :
  execAt r pos prev rest = Some m -> group m i = Some g ->
  (exists r1, In (i, r1) (groupsOf r) /\ inLang r1 g) /\ substring g (m_text m).
Proof.
  intros He Hg. apply lookupGroup_In in Hg.
  split; [apply (execAt_sound _ _ _ _ _ He), Hg|].
  eapply execAt_groups; [exact He | apply list_elem_of_In, Hg].
Qed.

Lemma search_group_text (r : regex) (s : string) (m : Match) (i : nat) (g : string) :
  search r s = Some m -> group m i = Some g ->
  (exists r1, In (i, r1) (groupsOf r) /\ inLang r1 g) /\ substring g s.
Proof.
  intros Hs Hg. pose proof (searchFrom_substring _ _ _ _ _ Hs) as Hsub.
  apply searchFrom_execAt in Hs as (pos & prev & rest & He).
  destruct (execAt_group_text _ _ _ _ _ _ _ He Hg) as [Hl Hin].
  split; [exact Hl | eapply substring_trans; eassumption].
Qed.

Lemma matchAll_group_text (r : regex) (s : string) (m : Match) (i : nat) (g : string) :
  m ∈ matchAll r s -> group m i = Some g ->
  (exists r1, In (i, r1) (groupsOf r) /\ inLang r1 g) /\ substring g s.
Proof.
  intros Hm Hg. pose proof (matchAllFrom_substring _ _ _ _ _ _ Hm) as Hsub.
  apply matchAllFrom_execAt in Hm as (pos & prev & rest & He).
  destruct (execAt_group_text _ _ _ _ _ _ _ He Hg) as [Hl Hin].
  split; [exact Hl | eapply substring_trans; eassumption].
Qed.

(** X28: the property [findCssContext] reports is a name of one or more
    characters of [[-\w]] that stands on the line of the offset; the scope
    it reports is not empty, has no whitespace around it, and is reported
    only when a [{] stands before the offset. *)
Theorem findCssContext_fields (text : string) (lineStarts : list Z) (offset : Z)
    (scope property : option string) :
  findCssContext text lineStarts offset = (scope, property) ->
  (forall p, property = Some p ->
     p <> "" /\ allOf isNameChar p = true /\
     substring p (getLineText text lineStarts (offsetToLine0 lineStarts offset))) /\
  (forall s, scope = Some s ->
     s <> "" /\ trim s = s /\ substring "{" (sliceToZ offset text)).
Proof.
  unfold findCssContext. cbv zeta.
  set (prop := match search propRe _ with Some pm => group pm 1 | None => None end).
  assert (Hprop : forall p, prop = Some p ->
            p <> "" /\ allOf isNameChar p = true /\
            substring p (getLineText text lineStarts (offsetToLine0 lineStarts offset))).
  { intros p. unfold prop.
    destruct (search propRe _) as [pm|] eqn:Hs; [|discriminate].
    intros Hg. destruct (search_group_text _ _ _ _ _ Hs Hg) as [(r1 & Hin & Hl) Hsub].
    simpl in Hin. destruct Hin as [[= <-]|[]].
    apply inLang_plus in Hl as [Hne Hall]. auto. }
  destruct (lastIndexOf "{" (sliceToZ offset text)) as [bracePos|] eqn:Hbrace.
  - intros [= <- <-]. split; [exact Hprop|].
    intros s Hs. apply nonEmpty_Some in Hs as [-> Hne].
    split; [exact Hne|]. split; [apply trim_idem|].
    apply lastIndexOf_substring. rewrite Hbrace. eauto.
  - intros [= <- <-]. split; [exact Hprop | discriminate].
Qed.

(** The statement at the colour of a rule over three lines. *)
Lemma findCssContext_fields_witness :
  (forall p, Some "color" = Some p ->
     p <> "" /\ allOf isNameChar p = true /\
     substring p
       (getLineText (".card {" +:+ String "010" "  color: #aabbcc;" +:+ String "010" "}")
          (buildLineStartIndex
             (".card {" +:+ String "010" "  color: #aabbcc;" +:+ String "010" "}"))
          (offsetToLine0
             (buildLineStartIndex
                (".card {" +:+ String "010" "  color: #aabbcc;" +:+ String "010" "}"))
             17))) /\
  (forall s, Some ".card" = Some s ->
     s <> "" /\ trim s = s /\
     substring "{"
       (sliceToZ 17 (".card {" +:+ String "010" "  color: #aabbcc;" +:+ String "010" "}"))).
Proof.
  apply (findCssContext_fields
           (".card {" +:+ String "010" "  color: #aabbcc;" +:+ String "010" "}")
           (buildLineStartIndex
              (".card {" +:+ String "010" "  color: #aabbcc;" +:+ String "010" "}"))
           17 (Some ".card") (Some "color")).
  vm_compute. reflexivity.
Defined.

(** X29: the key [findJsPropertyKeyBeforeCol] reports is not empty, has no
    whitespace around it, and stands in the part of the line before the
    column. *)
Theorem findJsPropertyKeyBeforeCol_key (lineText : string) (col : Z) (key : string) :
  findJsPropertyKeyBeforeCol lineText col = Some key ->
  key <> "" /\ trim key = key /\
  substring key (sliceTo (Z.to_nat (Z.max 0 col)) lineText).
Proof.
  unfold findJsPropertyKeyBeforeCol. cbv zeta.
  destruct (last (matchAll jsKeyRe _)) as [m|] eqn:Hlast; [|discriminate].
  apply last_Some_elem_of in Hlast.
  destruct (firstGroup m) as [k|] eqn:Hk; [|discriminate].
  intros Hkey. apply nonEmpty_Some in Hkey as [-> Hne].
  split; [exact Hne|]. split; [apply trim_idem|].
  eapply substring_trans; [apply trim_substring|].
  unfold firstGroup in Hk.
  destruct (group m 1) as [g1|] eqn:H1;
    [injection Hk as <-; eapply matchAll_group_text; eassumption|].
  destruct (group m 2) as [g2|] eqn:H2;
    [injection Hk as <-; eapply matchAll_group_text; eassumption|].
  eapply matchAll_group_text; eassumption.
Qed.

(** The statement at a line of a style object. *)
Lemma findJsPropertyKeyBeforeCol_key_witness :
  "border" <> "" /\ trim "border" = "border" /\
  substring "border" (sliceTo (Z.to_nat (Z.max 0 12)) "  border: '1px solid #fff',").
Proof.
  apply (findJsPropertyKeyBeforeCol_key "  border: '1px solid #fff'," 12 "border").
  vm_compute. reflexivity.
Defined.

Lemma firstClass_Some (m : option Match) (first : string) :
  firstClass m = Some first -> first <> "".
Proof.
  unfold firstClass. destruct m as [x|]; [|discriminate].
  destruct (group x 1) as [g|]; [|discriminate].
  destruct (decide (g = "")); [discriminate|].
  destruct (split _ _) as [|f tl]; [discriminate|].
  intros Hf. apply nonEmpty_Some in Hf as [-> Hne]. exact Hne.
Qed.

(** X30: the scope [findJsxScopeAround] reports is a dot and a class that
    is not empty, or a tag name: a letter and then letters and digits. *)
Theorem findJsxScopeAround_scope (text : string) (lineStarts : list Z)
    (tokenLine0 : Z) (s : string) :
  findJsxScopeAround text lineStarts tokenLine0 = Some s ->
  (exists first, s = "." +:+ first /\ first <> "") \/
  (exists c tl, s = String c tl /\ isAlpha c = true /\ allOf isAlnum tl = true).
Proof.
  unfold findJsxScopeAround. cbv zeta.
  destruct (firstClass (search classNameRe _)) as [f1|] eqn:H1.
  { intros [= <-]. left. exists f1. split; [reflexivity | eapply firstClass_Some, H1]. }
  destruct (firstClass (search classNameBraceRe _)) as [f2|] eqn:H2.
  { intros [= <-]. left. exists f2. split; [reflexivity | eapply firstClass_Some, H2]. }
  destruct (search tagRe _) as [m3|] eqn:H3; [|discriminate].
  destruct (group m3 1) as [g|] eqn:Hg; [|discriminate].
  intros Hs. apply nonEmpty_Some in Hs as [-> _]. right.
  destruct (search_group_text _ _ _ _ _ H3 Hg) as [(r1 & Hin & Hl) _].
  simpl in Hin. destruct Hin as [[= <-]|[]].
  destruct Hl as (w1 & w2 & -> & (c & -> & Hc) & Hw2).
  exists c, w2. split; [reflexivity|]. split; [exact Hc | exact Hw2].
Qed.

(** The statement at a tag over two lines. *)
Lemma findJsxScopeAround_scope_witness :
  (exists first, ".card" = "." +:+ first /\ first <> "") \/
  (exists c tl, ".card" = String c tl /\ isAlpha c = true /\ allOf isAlnum tl = true).
Proof.
  apply (findJsxScopeAround_scope
           ("<div className='card big'" +:+ String "010" "  style={{ color: '#fff' }} />")
           (buildLineStartIndex
              ("<div className='card big'" +:+ String "010" "  style={{ color: '#fff' }} />"))
           1 ".card").
  vm_compute. reflexivity.
Defined.

End ContextFacts.
